(** * html2component: the template compiler, embedded and verified

    The development follows the compiler pipeline of the repository:
    the attribute classifier [compileAttribute], the node compiler
    [compileNode] with its SVG-context detection, the parent-aware fold
    [reduce] of the parser module, and the code generator [compile] with
    its helpers [prepareNodes], [nameof], [compileHtml], [walkDeclared]
    and [indent].  The earlier generation of the compiler (the one built
    on [walk] and [flat]) lives in [Module Legacy].

    Strings.  A JavaScript string is modelled by a [string]; the
    character of code [c] stands for the UTF-16 code unit [c], so the
    model covers the strings whose code units are below 256.  Code units
    above that range cannot be written in the model, which is why the
    alternatives U+2028, U+2029 and U+FEFF of the whitespace classes have
    no counterpart below.

    The properties come in two parts.  The first follows the
    specification of the compiler.  The second covers the rest of the
    parser module ([walk], [flat], [findParent], what [parse] guarantees
    of the forest it returns), [reduce] and the declared tree it builds,
    the attribute classifier, and what the output of [compile] does and
    does not depend on. *)

From Stdlib Require Import Ascii NArith DecimalString.
From Stdlib Require DecimalN DecimalPos.
From stdpp Require Import gmap strings list.

Set Warnings "-register-all".

(** ** JavaScript built-ins used by the compiler *)

Module JS.

Definition nl : string := String "010"%char "".
Definition dq : string := String "034"%char "".
Definition bs : string := String "092"%char "".

(** [WhiteSpace] and [LineTerminator] of ECMAScript, below U+0100. *)
Definition isWhiteSpace (c : ascii) : bool :=
  match N_of_ascii c with
  | 9 | 10 | 11 | 12 | 13 | 32 | 160 => true
  | _ => false
  end%N.

Fixpoint trimStart (s : string) : string :=
  match s with
  | EmptyString => EmptyString
  | String c s' => if isWhiteSpace c then trimStart s' else s
  end.

Fixpoint trimEnd (s : string) : string :=
  match s with
  | EmptyString => EmptyString
  | String c s' =>
      match trimEnd s' with
      | EmptyString => if isWhiteSpace c then EmptyString else String c EmptyString
      | r => String c r
      end
  end.

(** [String.prototype.trim]. *)
Definition trim (s : string) : string := trimEnd (trimStart s).

(** [s.startsWith(p)]. *)
Definition startsWith (s p : string) : bool := String.prefix p s.

(** [s.indexOf(c)] for a one-character needle; [None] is [-1]. *)
Fixpoint indexOf (s : string) (c : ascii) : option nat :=
  match s with
  | EmptyString => None
  | String d s' => if Ascii.eqb d c then Some 0 else S <$> indexOf s' c
  end.

(** [s.split(sep)] where the separator is one character or a class of
    single characters: the result is never empty, and an empty input
    gives one empty piece. *)
Fixpoint split (sep : ascii → bool) (s : string) : list string :=
  match s with
  | EmptyString => [EmptyString]
  | String c s' =>
      if sep c then EmptyString :: split sep s'
      else match split sep s' with
           | x :: xs => String c x :: xs
           | [] => [String c EmptyString]
           end
  end.

(** Truthiness of a string: the empty string is falsy. *)
Definition truthy (s : string) : bool :=
  match s with EmptyString => false | _ => true end.

(** [a || b] on strings. *)
Definition or_else (a b : string) : string := if truthy a then a else b.

Definition hexDigit (n : N) : ascii :=
  (if n <? 10 then ascii_of_N (48 + n) else ascii_of_N (87 + n))%N.

Definition escapeChar (c : ascii) : string :=
  let n := N_of_ascii c in
  match n with
  | 8 => bs +:+ "b"
  | 9 => bs +:+ "t"
  | 10 => bs +:+ "n"
  | 12 => bs +:+ "f"
  | 13 => bs +:+ "r"
  | 34 => bs +:+ dq
  | 92 => bs +:+ bs
  | _ =>
      if (n <? 32)%N
      then bs +:+ "u00" +:+ String (hexDigit (n / 16)) (String (hexDigit (n mod 16)) "")
      else String c ""
  end%N.

Fixpoint escape (s : string) : string :=
  match s with
  | EmptyString => EmptyString
  | String c s' => escapeChar c +:+ escape s'
  end.

(** [JSON.stringify] of a string value. *)
Definition stringify (s : string) : string := dq +:+ escape s +:+ dq.

(** Number-to-string conversion of a non-negative integer, as done by a
    template literal. *)
Definition ofNumber (n : N) : string := NilZero.string_of_uint (N.to_uint n).

(** [s.replace(/[cls]+/g, by)]: every maximal run of characters of the
    class is replaced by one copy of [by]. *)
Fixpoint replaceRuns (cls : ascii → bool) (by_ : string) (inRun : bool) (s : string) : string :=
  match s with
  | EmptyString => EmptyString
  | String c s' =>
      if cls c
      then (if inRun then replaceRuns cls by_ true s'
            else by_ +:+ replaceRuns cls by_ true s')
      else String c (replaceRuns cls by_ false s')
  end.

(** [s.replace(/[cls]/g, by)]: every character of the class is replaced. *)
Fixpoint replaceEach (cls : ascii → bool) (by_ : string) (s : string) : string :=
  match s with
  | EmptyString => EmptyString
  | String c s' =>
      if cls c then by_ +:+ replaceEach cls by_ s' else String c (replaceEach cls by_ s')
  end.

End JS.

Abbreviation nl := JS.nl.
Abbreviation dq := JS.dq.

(** ** The parsed tree (parser module)

    A parsed node carries a reference to its parent node.  Through that
    reference the compiler only ever reads the parent's [refId], its
    [type], its [tag] and its own [parent], none of which changes after
    the node is created, so the reference is modelled by the parent node
    as a value.  The offsets [startIndex] and [endIndex] are never read
    by the compiler and are left out. *)

Record NodeAttribute := { name : string; value : string }.

Inductive Node : Type :=
| TextNode (refId : N) (parent : option Node) (textContent : string)
| TagNode (refId : N) (parent : option Node) (tag : string)
    (attributes : list NodeAttribute) (children : list Node).

Definition refId (node : Node) : N :=
  match node with TextNode r _ _ | TagNode r _ _ _ _ => r end.

Definition parent (node : Node) : option Node :=
  match node with TextNode _ p _ | TagNode _ p _ _ _ => p end.

Definition isTextNode (node : Node) : bool :=
  match node with TextNode _ _ _ => true | TagNode _ _ _ _ _ => false end.

Definition isTagNode (node : Node) : bool :=
  match node with TagNode _ _ _ _ _ => true | TextNode _ _ _ => false end.

(** The character class of [normalizeAttributes]: CR, LF, VT, FF and
    NEL (U+0085); its members U+2028 and U+2029 lie outside the model. *)
Definition isNewlineLike (c : ascii) : bool :=
  match N_of_ascii c with
  | 13 | 10 | 11 | 12 | 133 => true
  | _ => false
  end%N.

(** The value computed for one attribute by [normalizeAttributes]:
    every run of characters of that class becomes one space, then the
    result is trimmed. *)
Definition normalizeValue (raw : string) : string :=
  JS.trim (JS.replaceRuns isNewlineLike " " false raw).

(** [normalizeAttributes]: the tokenizer's attribute object, taken as the
    list of its entries in key order. *)
Definition normalizeAttributes (attrs : list (string * string)) : list NodeAttribute :=
  map (λ kv, {| name := kv.1; value := normalizeValue kv.2 |}) attrs.

(** ** The parser over the tokenizer's events

    [parse] feeds the text to an external tokenizer and builds the tree
    in three callbacks.  The model starts from the sequence of callback
    invocations. *)

Inductive Token :=
| OpenTag (name : string) (attribs : list (string * string))
| CloseTag
| TextRun (text : string).

(** [lastIsText] stands for [lastNode?.type === 'text']; when it holds,
    [lastNode] is the node pushed last on [flatNodes].  The head of
    [nodeStack] is the top of the stack. *)
Record ParseState := {
  refCount : N;
  lastIsText : bool;
  nodeStack : list Node;
  flatNodes : list Node }.

(** [text.replace(/\r?\n/g, '\n')], a carriage return before a line feed
    is dropped. *)
Fixpoint normalizeLineBreaks (s : string) : string :=
  match s with
  | EmptyString => EmptyString
  | String c s' =>
      match s' with
      | String c' _ =>
          if Ascii.eqb c "013"%char && Ascii.eqb c' "010"%char
          then normalizeLineBreaks s'
          else String c (normalizeLineBreaks s')
      | EmptyString => String c EmptyString
      end
  end.

Definition appendText (text : string) (node : Node) : Node :=
  match node with
  | TextNode r p s => TextNode r p (s +:+ text)
  | _ => node
  end.

Definition parseStep (st : ParseState) (tok : Token) : option ParseState :=
  match tok with
  | OpenTag name attribs =>
      let node := TagNode (refCount st + 1) (head (nodeStack st)) name
                    (normalizeAttributes attribs) [] in
      Some {| refCount := refCount st + 1; lastIsText := false;
              nodeStack := node :: nodeStack st; flatNodes := flatNodes st |}
  | CloseTag =>
      match nodeStack st with
      | node :: rest =>
          Some {| refCount := refCount st; lastIsText := false;
                  nodeStack := rest; flatNodes := flatNodes st ++ [node] |}
      | [] => None
      end
  | TextRun text =>
      let text := normalizeLineBreaks (JS.trim text) in
      (* remove empty node or comments *)
      if negb (JS.truthy text) || JS.startsWith text "<!--" then Some st
      (* append this node *)
      else if lastIsText st then
        Some {| refCount := refCount st; lastIsText := true;
                nodeStack := nodeStack st;
                flatNodes := alter (appendText text) (length (flatNodes st) - 1)
                               (flatNodes st) |}
      else
        let node := TextNode (refCount st + 1) (head (nodeStack st)) text in
        Some {| refCount := refCount st + 1; lastIsText := true;
                nodeStack := nodeStack st; flatNodes := flatNodes st ++ [node] |}
  end.

(** The closing loop of [parse], [parent.children.push(node)] for every
    node of [flatNodes]: a tag is pushed on [flatNodes] when it closes,
    after all the nodes below it, so when the loop reaches a node its own
    children have all been pushed.  [pending] holds the children arrays
    filled so far, by the ref id of their owner. *)
Definition attachStep (acc : gmap N (list Node) * list Node) (node : Node)
  : gmap N (list Node) * list Node :=
  let filled :=
    match node with
    | TagNode r p t a _ => TagNode r p t a (default [] (acc.1 !! r))
    | TextNode _ _ _ => node
    end in
  match parent node with
  | Some p =>
      if isTagNode p
      then (<[refId p := default [] (acc.1 !! refId p) ++ [filled]]> acc.1, acc.2)
      else acc
  | None => (acc.1, acc.2 ++ [filled])
  end.

(** [parse], from the tokenizer's events on; [None] when the events close
    a tag that was never opened, which the tokenizer does not do. *)
Definition parseTokens (tokens : list Token) : option (list Node) :=
  st ← foldl (λ st tok, st ≫= (λ st, parseStep st tok))
         (Some {| refCount := 0; lastIsText := false; nodeStack := []; flatNodes := [] |})
         tokens;
  Some (foldl attachStep (∅, []) (flatNodes st)).2.

(** ** The parent-aware fold [reduce]

    [visit] may mutate the values it has already produced (the compiler
    pushes every new node into its parent's [children]), so it runs in a
    state [St]; [nodeTo] is the [Map] from ref ids to reduced values. *)

(** [nodes.map(f)] for a callback with side effects on a state. *)
Definition mapState {A B St : Type} (f : A → St → B * St) : list A → St → list B * St :=
  fix go (l : list A) (st : St) : list B * St :=
    match l with
    | [] => ([], st)
    | c :: l' =>
        let '(r, st1) := f c st in
        let '(rs, st2) := go l' st1 in
        (r :: rs, st2)
    end.

Section Reduce.
Context {T St : Type}.
Variable visit : Node → option T → St → T * St.

Definition getParent (nodeTo : gmap N T) (node : Node) : option T :=
  match parent node with
  | Some p => nodeTo !! refId p
  | None => None
  end.

Fixpoint reduceNode (node : Node) (st : gmap N T * St) : T * (gmap N T * St) :=
  let '(reduced, s) := visit node (getParent st.1 node) st.2 in
  let st' := (<[refId node := reduced]> st.1, s) in
  match node with
  | TagNode _ _ _ _ children => (reduced, (mapState reduceNode children st').2)
  | TextNode _ _ _ => (reduced, st')
  end.

Definition reduceWalk (nodes : list Node) (st : gmap N T * St) : list T * (gmap N T * St) :=
  mapState reduceNode nodes st.

Definition reduce (nodes : list Node) (s : St) : list T * St :=
  let '(rs, st) := reduceWalk nodes (∅, s) in (rs, st.2).

End Reduce.

(** ** The attribute classifier *)

Record VariableAttribute := { var_name : string; variable : string }.
Record RefAttribute := { ref_name : string }.
Record EventAttribute :=
  { eventName : string; modifiers : list string; variableName : string }.
Record GenericAttribute := { attr_name : string; attr_value : string }.

Inductive DeclaredAttribute :=
| Variable_ (a : VariableAttribute)
| Ref (a : RefAttribute)
| Event (a : EventAttribute)
| Attribute (a : GenericAttribute).

(** ** The declared tree

    Declared nodes are mutable objects: [compile] pushes every node into
    the [children] array of its declared parent after that parent has
    been returned and stored.  They therefore live in a store, a list
    indexed by allocation order, and refer to each other by index. *)

Abbreviation loc := nat.

Inductive ElementType := svg | element.

Inductive DeclaredNode :=
| TextElementNode (node : Node) (parent : option loc) (content : string)
| ElementNode (node : Node) (parent : option loc) (type : ElementType)
    (tag : string) (refTag : option string) (events : list EventAttribute)
    (variableAttributes : list VariableAttribute)
    (attributes : list GenericAttribute) (children : list loc).

Abbreviation store := (list DeclaredNode).

Definition dnode (d : DeclaredNode) : Node :=
  match d with TextElementNode n _ _ | ElementNode n _ _ _ _ _ _ _ _ => n end.

Definition dparent (d : DeclaredNode) : option loc :=
  match d with TextElementNode _ p _ | ElementNode _ p _ _ _ _ _ _ _ => p end.

Definition dchildren (d : DeclaredNode) : list loc :=
  match d with
  | TextElementNode _ _ _ => []
  | ElementNode _ _ _ _ _ _ _ _ c => c
  end.

Definition devents (d : DeclaredNode) : list EventAttribute :=
  match d with
  | TextElementNode _ _ _ => []
  | ElementNode _ _ _ _ _ ev _ _ _ => ev
  end.

Definition isText (d : DeclaredNode) : bool :=
  match d with TextElementNode _ _ _ => true | _ => false end.

(** [compiled.parent = parent]. *)
Definition setParent (d : DeclaredNode) (p : option loc) : DeclaredNode :=
  match d with
  | TextElementNode n _ c => TextElementNode n p c
  | ElementNode n _ ty tg r ev va at_ ch => ElementNode n p ty tg r ev va at_ ch
  end.

(** [d.children.push(c)]; only called on element nodes. *)
Definition pushChild (c : loc) (d : DeclaredNode) : DeclaredNode :=
  match d with
  | TextElementNode n p s => TextElementNode n p s
  | ElementNode n p ty tg r ev va at_ ch => ElementNode n p ty tg r ev va at_ (ch ++ [c])
  end.

Definition isSvgNode (node : Node) : bool :=
  match node with
  | TagNode _ _ tag _ _ => String.eqb tag "svg"
  | TextNode _ _ _ => false
  end.

Fixpoint hasSvgParent (node : Node) : bool :=
  match node with
  | TextNode _ (Some p) _ | TagNode _ (Some p) _ _ _ => isSvgNode p || hasSvgParent p
  | _ => false
  end.

Definition shouldRenderAsSvg (node : Node) : bool :=
  isSvgNode node || hasSvgParent node.

Section Compiler.

(** [trimAny] of the utils module and [decode] of the html-entities
    package are not part of the sources at hand; the compiler is
    parameterised by them. *)
Variable trimAny : string → list string → string.
Variable decode : string → string.

Definition isEventSep (c : ascii) : bool :=
  Ascii.eqb c "|"%char || Ascii.eqb c "."%char.

Definition compileAttribute (a : NodeAttribute) : option DeclaredAttribute :=
  let name := name a in
  let value := value a in
  (* compound assignment, unused *)
  if JS.startsWith name "=" then None
  (* reference assignment *)
  else if String.eqb name "#ref" then
    Some (Ref {| ref_name := JS.or_else (JS.trim value) "el" |})
  (* variable shorthand *)
  else if JS.startsWith name "{" then
    let variableName := JS.trim (trimAny name ["{"; "}"]) in
    Some (Variable_ {| var_name := variableName; variable := variableName |})
  (* variable assignment *)
  else if JS.startsWith value "{" then
    let asVariable :=
      Some (Variable_ {| var_name := name;
                         variable := JS.trim (trimAny value ["{"; "}"]) |}) in
    (* indicates an event *)
    match JS.indexOf name ":"%char with
    | Some (S _) =>
        match JS.split (λ c, Ascii.eqb c ":"%char) name with
        | on :: part :: _ =>
            let eventNameParts := JS.split isEventSep part in
            if String.eqb on "on" then
              Some (Event {| eventName := hd "" eventNameParts;
                             modifiers := tl eventNameParts;
                             variableName := JS.trim (trimAny value ["{"; "}"]) |})
            else asVariable
        | _ => asVariable
        end
    | _ => asVariable
    end
  else Some (Attribute {| attr_name := name; attr_value := value |}).

Definition refName (a : DeclaredAttribute) : option string :=
  match a with Ref r => Some (ref_name r) | _ => None end.

Definition asEvent (a : DeclaredAttribute) : option EventAttribute :=
  match a with Event e => Some e | _ => None end.

Definition asVariable (a : DeclaredAttribute) : option VariableAttribute :=
  match a with Variable_ v => Some v | _ => None end.

Definition asGeneric (a : DeclaredAttribute) : option GenericAttribute :=
  match a with Attribute g => Some g | _ => None end.

(** [attrs.find(isRef)?.name || undefined]. *)
Definition findRefTag (attrs : list DeclaredAttribute) : option string :=
  match omap refName attrs with
  | r :: _ => if JS.truthy r then Some r else None
  | [] => None
  end.

(** [compileNode]: the compiled node's parent is always [null]. *)
Definition compileNode (node : Node) : DeclaredNode :=
  match node with
  | TextNode _ _ textContent => TextElementNode node None (decode textContent)
  | TagNode _ _ tag attributes _ =>
      let attrs := omap compileAttribute attributes in
      ElementNode node None
        (if shouldRenderAsSvg node then svg else element)
        tag
        (findRefTag attrs)
        (omap asEvent attrs)
        (omap asVariable attrs)
        (omap asGeneric attrs)
        []
  end.

(** The callback that [compile] hands to [reduce]. *)
Definition declare (node : Node) (parent : option loc) (h : store) : loc * store :=
  let compiled := setParent (compileNode node) parent in
  let l := length h in
  let h := h ++ [compiled] in
  (l, match parent with
      | Some p =>
          match h !! p with
          | Some (ElementNode _ _ _ _ _ _ _ _ _) => alter (pushChild l) p h
          | _ => h
          end
      | None => h
      end).

Record Prepared := {
  rootNodes : list loc;
  templates : list loc;
  scripts : list loc;
  styles : list loc }.

Definition prepareStep (h : store) (acc : Prepared) (n : loc) : Prepared :=
  match h !! n with
  | None => acc
  | Some d =>
      (* only get root nodes *)
      if bool_decide (is_Some (dparent d)) then acc
      else
        let asRoot :=
          {| rootNodes := rootNodes acc ++ [n]; templates := templates acc;
             scripts := scripts acc; styles := styles acc |} in
        match d with
        | ElementNode _ _ element tag _ _ _ _ _ =>
            if String.eqb tag "template" then
              {| rootNodes := rootNodes acc; templates := templates acc ++ [n];
                 scripts := scripts acc; styles := styles acc |}
            else if String.eqb tag "script" then
              {| rootNodes := rootNodes acc; templates := templates acc;
                 scripts := scripts acc ++ [n]; styles := styles acc |}
            else if String.eqb tag "style" then
              {| rootNodes := rootNodes acc; templates := templates acc;
                 scripts := scripts acc; styles := styles acc ++ [n] |}
            else asRoot
        | _ => asRoot
        end
  end.

Definition prepareNodes (h : store) (nodes : list loc) : Prepared :=
  fold_left (prepareStep h) nodes
    {| rootNodes := []; templates := []; scripts := []; styles := [] |}.

Definition nameof (d : DeclaredNode) : string :=
  let name :=
    match d with
    | TextElementNode _ _ _ => None
    | ElementNode _ _ _ _ refTag _ _ _ _ => refTag
    end in
  match name with
  | Some n => if JS.truthy n then n else "el" +:+ JS.ofNumber (refId (dnode d))
  | None => "el" +:+ JS.ofNumber (refId (dnode d))
  end.

Definition isDimension (n : string) : bool :=
  String.eqb n "width" || String.eqb n "height".

(** The statement emitted for one plain attribute of the node named [self]. *)
Definition attributeStatement (self : string) (attr : GenericAttribute) : string :=
  if isDimension (attr_name attr) then
    self +:+ "." +:+ attr_name attr +:+ " = " +:+ JS.stringify (attr_value attr) +:+ ";" +:+ nl
  else if String.eqb (attr_name attr) "class" then
    self +:+ ".className = " +:+ JS.stringify (attr_value attr) +:+ ";" +:+ nl
  else if String.eqb (attr_name attr) "style" then
    self +:+ ".style.cssText = " +:+ JS.stringify (attr_value attr) +:+ ";" +:+ nl
  else
    self +:+ ".setAttribute(" +:+ JS.stringify (attr_name attr) +:+ ", "
         +:+ JS.stringify (attr_value attr) +:+ ");" +:+ nl.

Definition svgNamespace : string := "http://www.w3.org/2000/svg".

Definition compileHtml (h : store) (d : DeclaredNode) : string :=
  let code := "" in
  let code :=
    match d with
    | TextElementNode _ _ content =>
        code +:+ "const " +:+ nameof d +:+ " = document.createTextNode("
             +:+ JS.stringify content +:+ ");" +:+ nl
    | ElementNode _ _ type tag _ _ _ attributes _ =>
        let code :=
          match type with
          | svg =>
              code +:+ "const " +:+ nameof d +:+ " = document.createElementNS("
                   +:+ dq +:+ svgNamespace +:+ dq +:+ ", " +:+ dq +:+ tag +:+ dq +:+ ");" +:+ nl
          | element =>
              code +:+ "const " +:+ nameof d +:+ " = document.createElement("
                   +:+ dq +:+ tag +:+ dq +:+ ");" +:+ nl
          end in
        fold_left (λ code attr, code +:+ attributeStatement (nameof d) attr) attributes code
    end in
  let code :=
    match dparent d with
    | Some p =>
        match h !! p with
        | Some pd => code +:+ nameof pd +:+ ".appendChild(" +:+ nameof d +:+ ");" +:+ nl
        | None => code
        end
    | None => code
    end in
  code +:+ nl.

Definition indent (s : string) : string :=
  fold_left
    (λ code part,
       let part := JS.trim part in
       (if JS.truthy part then code +:+ "  " +:+ part else code) +:+ nl)
    (JS.split (λ c, Ascii.eqb c "010"%char) s) "".

(** [walkDeclared]: the recursion follows references into the store, so
    it is bounded by [fuel], the nesting depth it may reach; [None] means
    the bound was hit or a reference led nowhere. *)
Fixpoint walkDeclared {S : Type} (fuel : nat) (h : store) (nodes : list loc)
    (visitor : loc → DeclaredNode → S → S) (s : S) : option S :=
  match fuel with
  | 0 => None
  | Datatypes.S fuel' =>
      (fix each (l : list loc) (s : S) : option S :=
         match l with
         | [] => Some s
         | n :: l' =>
             d ← h !! n;
             s ← (let s := visitor n d s in
                  if isText d then Some s
                  else walkDeclared fuel' h (dchildren d) visitor s);
             each l' s
         end) nodes s
  end.

Record BindEvent := { bind_node : DeclaredNode; bind_event : EventAttribute }.

Definition emitNode (h : store) (_ : loc) (d : DeclaredNode)
    (acc : string * list BindEvent) : string * list BindEvent :=
  let '(compiledCode, events) := acc in
  let compiledCode := compiledCode +:+ indent (JS.trim (compileHtml h d)) in
  let compiledCode := compiledCode +:+ nl in
  (compiledCode,
   if isText d then events
   else fold_left (λ events event,
                     events ++ [{| bind_node := d; bind_event := event |}])
          (devents d) events).

Definition emitScript (_ : loc) (d : DeclaredNode) (compiledCode : string) : string :=
  match d with
  | TextElementNode _ _ content => (compiledCode +:+ JS.trim content) +:+ nl +:+ nl
  | _ => compiledCode
  end.

Definition eventStatement (b : BindEvent) : string :=
  "  " +:+ nameof (bind_node b) +:+ ".addEventListener("
       +:+ JS.stringify (eventName (bind_event b)) +:+ ", "
       +:+ variableName (bind_event b) +:+ ")" +:+ nl.

(** The declared tree built by the [reduce] call of [compile]: the
    declared root-level nodes and the store holding every declared node. *)
Definition declareAll (nodes : list Node) : list loc * store :=
  reduce declare nodes [].

Definition compile (nodes : list Node) : option string :=
  let '(declared, h) := declareAll nodes in
  let p := prepareNodes h declared in
  let compiledCode := "export function compile() {" +:+ nl in
  let fuel := Datatypes.S (length h) in
  '(compiledCode, events) ← walkDeclared fuel h (rootNodes p) (emitNode h) (compiledCode, []);
  compiledCode ← walkDeclared fuel h (scripts p) emitScript compiledCode;
  let compiledCode :=
    fold_left (λ code b, code +:+ eventStatement b) events compiledCode in
  Some (compiledCode +:+ "}" +:+ nl).

End Compiler.

(** ** Notions used to state the properties *)

(** Concatenation of a list of output fragments. *)
Definition concatS (l : list string) : string := foldr String.app "" l.

(** The order in which [walkDeclared] calls its visitor: every visited
    reference with the node it denotes. *)
Fixpoint preorder (fuel : nat) (h : store) (nodes : list loc) : option (list (loc * DeclaredNode)) :=
  match fuel with
  | 0 => None
  | Datatypes.S fuel' =>
      (fix each (l : list loc) : option (list (loc * DeclaredNode)) :=
         match l with
         | [] => Some []
         | n :: l' =>
             d ← h !! n;
             sub ← (if isText d then Some [] else preorder fuel' h (dchildren d));
             rest ← each l';
             Some ((n, d) :: sub ++ rest)
         end) nodes
  end.

(** Shape of the store built by [compile]: a declared parent is allocated
    before its children, and the [children] array of a node holds exactly
    references to nodes that name it as their parent. *)
Definition wf_store (h : store) : Prop :=
  ∀ p d, h !! p = Some d →
    (∀ q, dparent d = Some q → q < p) ∧
    (∀ c, c ∈ dchildren d → p < c ∧ dparent <$> h !! c = Some (Some p)).

(** A declared node without its links into the store. *)
Definition eraseLinks (d : DeclaredNode) : DeclaredNode :=
  match d with
  | TextElementNode n _ c => TextElementNode n None c
  | ElementNode n _ ty tg r ev va at_ _ => ElementNode n None ty tg r ev va at_ []
  end.

(** Every node of the store is the compiled form of the parsed node it
    keeps, up to its links. *)
Definition declared_by trimAny decode (h : store) : Prop :=
  ∀ l d, h !! l = Some d → eraseLinks d = compileNode trimAny decode (dnode d).

(** [h'] extends [h]: the nodes of [h] are still there, with the same
    parent and the same contents; only their [children] may have grown. *)
Definition store_ext (h h' : store) : Prop :=
  ∀ k d, h !! k = Some d →
    ∃ d', h' !! k = Some d' ∧ dparent d' = dparent d ∧ eraseLinks d' = eraseLinks d.

(** A root-level node that the buckets of [prepareNodes] and of the
    earlier compiler take out: a parentless template, script or style. *)
Definition isSegregatedRoot (node : Node) : bool :=
  match node with
  | TagNode _ None tag _ _ =>
      String.eqb tag "template" || String.eqb tag "script" || String.eqb tag "style"
  | _ => false
  end.

(** The invariant of the fold [reduce] as [compile] runs it: the store is
    well formed, holds compiled forms only, and the [Map] only holds
    references to nodes that exist. *)
Definition reduce_inv trimAny decode (st : gmap N nat * store) : Prop :=
  (wf_store st.2 ∧ declared_by trimAny decode st.2) ∧
  ∀ r l, st.1 !! r = Some l → l < length st.2.

(** The creation statement of a node, the first statement of [compileHtml]. *)
Definition creationStatement (d : DeclaredNode) : string :=
  match d with
  | TextElementNode _ _ content =>
      "const " +:+ nameof d +:+ " = document.createTextNode("
        +:+ JS.stringify content +:+ ");" +:+ nl
  | ElementNode _ _ svg tag _ _ _ _ _ =>
      "const " +:+ nameof d +:+ " = document.createElementNS("
        +:+ dq +:+ svgNamespace +:+ dq +:+ ", " +:+ dq +:+ tag +:+ dq +:+ ");" +:+ nl
  | ElementNode _ _ element tag _ _ _ _ _ =>
      "const " +:+ nameof d +:+ " = document.createElement("
        +:+ dq +:+ tag +:+ dq +:+ ");" +:+ nl
  end.

Definition dattributes (d : DeclaredNode) : list GenericAttribute :=
  match d with
  | TextElementNode _ _ _ => []
  | ElementNode _ _ _ _ _ _ _ at_ _ => at_
  end.

(** The tree-assembly statement appending [child] to [parent]. *)
Definition appendStatement (parent child : DeclaredNode) : string :=
  nameof parent +:+ ".appendChild(" +:+ nameof child +:+ ");" +:+ nl.

(** The tree-assembly part of [compileHtml]: empty for a node without a
    declared parent. *)
Definition appendPart (h : store) (d : DeclaredNode) : string :=
  match dparent d with
  | Some p =>
      match h !! p with
      | Some pd => appendStatement pd d
      | None => ""
      end
  | None => ""
  end.

(** The text [compile] appends for one visited node. *)
Definition nodeChunk (h : store) (x : loc * DeclaredNode) : string :=
  indent (JS.trim (compileHtml h x.2)) +:+ nl.

(** The text [compile] appends for one node met in the script walk. *)
Definition scriptChunk (x : loc * DeclaredNode) : string :=
  match x.2 with
  | TextElementNode _ _ content => JS.trim content +:+ nl +:+ nl
  | _ => ""
  end.

(** The event bindings collected at one visited node. *)
Definition bindings (x : loc * DeclaredNode) : list BindEvent :=
  map (λ e, {| bind_node := x.2; bind_event := e |}) (devents x.2).

Definition header : string := "export function compile() {" +:+ nl.
Definition footer : string := "}" +:+ nl.

(** The nodes visited by the structural walk of [compile], in order. *)
Definition visited trimAny decode (nodes : list Node) : option (list (loc * DeclaredNode)) :=
  let '(declared, h) := declareAll trimAny decode nodes in
  preorder (S (length h)) h (rootNodes (prepareNodes h declared)).

(** The nodes visited by the script walk of [compile], in order. *)
Definition visitedScripts trimAny decode (nodes : list Node) : option (list (loc * DeclaredNode)) :=
  let '(declared, h) := declareAll trimAny decode nodes in
  preorder (S (length h)) h (scripts (prepareNodes h declared)).

(** ** The earlier compiler

    The first generation of [compile] works on the parsed tree directly,
    through [walk] and [flat].  Its nodes have the same shape as the
    current ones; the fields it calls [attrs] and [content] are the
    [attributes] and [children] (or [textContent]) of [Node].  It can
    throw: reading the first child of a childless script. *)

Module Legacy.

Inductive outcome := Return (code : string) | TypeError.

Inductive runState := Outside | One (c : ascii) | Many.

(** [s.replace(/\s\s+/g, by)]: runs of two or more characters of the
    class are replaced, a lone one is kept. *)
Fixpoint replaceLongRuns (cls : ascii → bool) (by_ : string) (st : runState) (s : string) : string :=
  match s with
  | EmptyString => match st with One c0 => String c0 EmptyString | _ => EmptyString end
  | String c s' =>
      if cls c then
        match st with
        | Outside => replaceLongRuns cls by_ (One c) s'
        | One _ => by_ +:+ replaceLongRuns cls by_ Many s'
        | Many => replaceLongRuns cls by_ Many s'
        end
      else
        match st with
        | One c0 => String c0 (String c (replaceLongRuns cls by_ Outside s'))
        | _ => String c (replaceLongRuns cls by_ Outside s')
        end
  end.

(** The value computed by the earlier [normalizeAttribute] for a string. *)
Definition normalizeValue (raw : string) : string :=
  JS.trim (replaceLongRuns JS.isWhiteSpace " " Outside
             (JS.replaceEach JS.isWhiteSpace " " raw)).

Definition isSvgNode (node : Node) (autoSvg : bool) : bool :=
  match node with
  | TagNode _ _ tag attrs _ =>
      if String.eqb tag "svg" then
        if autoSvg then true
        else existsb (λ attr, String.eqb (name attr) "xmlns"
                                && String.eqb (value attr) svgNamespace) attrs
      else false
  | TextNode _ _ _ => false
  end.

Fixpoint hasSvgParent (node : Node) (autoSvg : bool) : bool :=
  match node with
  | TextNode _ (Some p) _ | TagNode _ (Some p) _ _ _ =>
      isSvgNode p autoSvg || hasSvgParent p autoSvg
  | _ => false
  end.

Definition shouldRenderAsSvg (node : Node) (autoSvg : bool) : bool :=
  isSvgNode node autoSvg || hasSvgParent node autoSvg.

(** [walk]: the order in which the visitor is called. *)
Fixpoint walk (node : Node) : list Node :=
  node ::
  match node with
  | TagNode _ _ _ _ content => flat_map walk content
  | TextNode _ _ _ => []
  end.

Definition walkAll (nodes : list Node) : list Node := flat_map walk nodes.

(** [flat]: the walk, keeping the first node met for every ref id. *)
Definition flat (nodes : list Node) : list Node :=
  (fold_left
     (λ (acc : gset N * list Node) node,
        if bool_decide (refId node ∈ acc.1) then acc
        else ({[refId node]} ∪ acc.1, acc.2 ++ [node]))
     (walkAll nodes) (∅, [])).2.

Definition isSpecialTag (node : Node) : bool :=
  match node with
  | TagNode _ _ tag _ _ =>
      String.eqb tag "template" || String.eqb tag "script" || String.eqb tag "style"
  | TextNode _ _ _ => false
  end.

Definition hasTag (t : string) (node : Node) : bool :=
  match node with
  | TagNode _ _ tag _ _ => String.eqb tag t
  | TextNode _ _ _ => false
  end.

Record VariableExport := { ve_node : Node; ve_attr : string; ve_variable : string }.
Record EventHandler := { eh_node : Node; eh_event : string; eh_variable : string }.

Record Emit := {
  code : string;
  exportNodes : list Node;
  variableExport : list VariableExport;
  eventHandlers : list EventHandler }.

Section Compiler.
Variable trimAny : string → list string → string.
Variable decode : string → string.

(** The name the first walk chooses for a node. *)
Definition chosenName (node : Node) : string :=
  match node with
  | TagNode r _ _ attrs _ =>
      match find (λ attr, String.eqb (name attr) "#ref") attrs with
      | Some attr =>
          if String.eqb (value attr) "" then "el"
          else if JS.truthy (value attr) then value attr
          else "el" +:+ JS.ofNumber r
      | None => "el" +:+ JS.ofNumber r
      end
  | TextNode r _ _ => "el" +:+ JS.ofNumber r
  end.

Definition nameStep (m : gmap N string) (node : Node) : gmap N string :=
  match m !! refId node with
  | Some n => if JS.truthy n then m else <[refId node := chosenName node]> m
  | None => <[refId node := chosenName node]> m
  end.

Definition getVariableName (m : gmap N string) (node : Node) : string :=
  match m !! refId node with
  | Some n => if JS.truthy n then n else "el" +:+ JS.ofNumber (refId node)
  | None => "el" +:+ JS.ofNumber (refId node)
  end.

(** The body of the loop over the attributes of one tag node. *)
Definition attrStep (m : gmap N string) (node : Node) (e : Emit) (a : NodeAttribute) : Emit :=
  let name := name a in
  let value := value a in
  (* compound assignment, unused *)
  if JS.startsWith name "=" then e
  (* variable shorthand *)
  else if JS.startsWith name "{" then
    let variable := JS.trim (trimAny name ["{"; "}"]) in
    {| code := code e; exportNodes := exportNodes e;
       variableExport := variableExport e ++
         [{| ve_node := node; ve_attr := variable; ve_variable := variable |}];
       eventHandlers := eventHandlers e |}
  (* variable assignment *)
  else if JS.startsWith value "{" then
    match JS.indexOf name ":"%char with
    | Some (S _) =>
        match JS.split (λ c, Ascii.eqb c ":"%char) name with
        | on :: part :: _ =>
            if String.eqb on "on" then
              {| code := code e; exportNodes := exportNodes e;
                 variableExport := variableExport e;
                 eventHandlers := eventHandlers e ++
                   [{| eh_node := node;
                       eh_event := hd "" (JS.split (λ c, Ascii.eqb c "|"%char) part);
                       eh_variable := JS.trim (trimAny value ["{"; "}"]) |}] |}
            else e
        | _ => e
        end
    | _ => e
    end
  else
    {| code := code e +:+ "  " +:+ getVariableName m node +:+ ".setAttribute("
                 +:+ JS.stringify name +:+ ", " +:+ JS.stringify value +:+ ");" +:+ nl;
       exportNodes := exportNodes e; variableExport := variableExport e;
       eventHandlers := eventHandlers e |}.

(** The body of the loop over the flattened nodes. *)
Definition nodeStep (m : gmap N string) (templates : list Node) (e : Emit) (node : Node) : Emit :=
  let creation :=
    match node with
    | TextNode _ _ content =>
        "  const " +:+ getVariableName m node +:+ " = document.createTextNode("
          +:+ JS.stringify (decode content) +:+ ");" +:+ nl
    | TagNode _ _ tag _ _ =>
        if shouldRenderAsSvg node true then
          "  const " +:+ getVariableName m node +:+ " = document.createElementNS("
            +:+ dq +:+ svgNamespace +:+ dq +:+ ", " +:+ dq +:+ tag +:+ dq +:+ ");" +:+ nl
        else
          "  const " +:+ getVariableName m node +:+ " = document.createElement("
            +:+ dq +:+ tag +:+ dq +:+ ");" +:+ nl
    end in
  let e := {| code := code e +:+ creation; exportNodes := exportNodes e;
              variableExport := variableExport e; eventHandlers := eventHandlers e |} in
  let e :=
    match node with
    | TagNode _ _ _ attrs _ => fold_left (attrStep m node) attrs e
    | TextNode _ _ _ => e
    end in
  let e :=
    match parent node with
    | None =>
        {| code := code e; exportNodes := exportNodes e ++ [node];
           variableExport := variableExport e; eventHandlers := eventHandlers e |}
    | Some p =>
        if existsb (λ root, N.eqb (refId p) (refId root)) templates then
          {| code := code e; exportNodes := exportNodes e ++ [node];
             variableExport := variableExport e; eventHandlers := eventHandlers e |}
        else
          {| code := code e +:+ "  " +:+ getVariableName m p +:+ ".appendChild("
                       +:+ getVariableName m node +:+ ");" +:+ nl;
             exportNodes := exportNodes e; variableExport := variableExport e;
             eventHandlers := eventHandlers e |}
    end in
  {| code := code e +:+ nl; exportNodes := exportNodes e;
     variableExport := variableExport e; eventHandlers := eventHandlers e |}.

(** [names.join(sep)]. *)
Fixpoint join (sep : string) (l : list string) : string :=
  match l with
  | [] => ""
  | [x] => x
  | x :: l' => x +:+ sep +:+ join sep l'
  end.

Definition accessorText (m : gmap N string) (v : VariableExport) : string :=
  "    get " +:+ ve_variable v +:+ "() {" +:+ nl
    +:+ "    }," +:+ nl
    +:+ "    set " +:+ ve_variable v +:+ "(value) {" +:+ nl
    +:+ "      " +:+ getVariableName m (ve_node v) +:+ ".setAttribute(" +:+ dq
    +:+ ve_attr v +:+ dq +:+ ", value);" +:+ nl
    +:+ "    }," +:+ nl.

(** [compile], from the parsed root nodes on. *)
Definition compile (parsed : list Node) : outcome :=
  (* iterate and remove top level special elements *)
  let templates := filter (λ n, hasTag "template" n = true) (reverse parsed) in
  let scripts := filter (λ n, hasTag "script" n = true) (reverse parsed) in
  let nodes := filter (λ n, isSpecialTag n = false) parsed in
  let m := fold_left nameStep (walkAll nodes) ∅ in
  let e :=
    fold_left (nodeStep m templates) (flat nodes)
      {| code := "export function compile() {" +:+ nl; exportNodes := [];
         variableExport := []; eventHandlers := [] |} in
  match exportNodes e with
  | [] => Return ""
  | first :: others =>
      let script :=
        match scripts with
        | [] => Some None
        | TagNode _ _ _ _ (TextNode _ _ text :: _) :: _ => Some (Some text)
        | TagNode _ _ _ _ (TagNode _ _ _ _ _ :: _) :: _ => Some None
        | TagNode _ _ _ _ [] :: _ => None
        | TextNode _ _ _ :: _ => Some None
        end in
      match script with
      | None => TypeError
      | Some script =>
          let body :=
            match script with
            | Some text =>
                if JS.truthy text then Some (code e +:+ text +:+ nl +:+ nl) else None
            | None => None
            end in
          let body :=
            match body with
            | Some b => b
            | None =>
                let c := code e +:+ "  return {" +:+ nl in
                let c :=
                  match others with
                  | [] => c +:+ "    el: " +:+ getVariableName m first +:+ "," +:+ nl
                  | _ => c +:+ "    el: ["
                           +:+ join ", " (map (getVariableName m) (exportNodes e))
                           +:+ "]," +:+ nl
                  end in
                fold_left (λ c v, c +:+ accessorText m v) (variableExport e) c +:+ "  }"
            end in
          let body :=
            fold_left
              (λ c h, c +:+ "  " +:+ getVariableName m (eh_node h) +:+ ".addEventListener("
                        +:+ JS.stringify (eh_event h) +:+ ", " +:+ eh_variable h +:+ ")")
              (eventHandlers e) body in
          Return (body +:+ nl +:+ "}")
      end
  end.

End Compiler.

End Legacy.

(** ** Parameters used in the examples *)

(** Modelled from the spec: the helper [trimAny] of the utils module is
    not among the sources; the specification describes it as stripping the
    given characters from both ends of the string. *)
Definition trimAnyModel (s : string) (chars : list string) : string :=
  let inSet c := existsb (String.eqb (String c "")) chars in
  let fix front s :=
    match s with
    | String c s' => if inSet c then front s' else s
    | EmptyString => EmptyString
    end in
  let fix back s :=
    match s with
    | EmptyString => EmptyString
    | String c s' =>
        match back s' with
        | EmptyString => if inSet c then EmptyString else String c EmptyString
        | r => String c r
        end
    end in
  back (front s).

(** The entity decoder on text without entities. *)
Definition decodePlain (s : string) : string := s.

(** The type tag of a declared node, as the string the source stores. *)
Definition typeOf (d : DeclaredNode) : string :=
  match d with
  | TextElementNode _ _ _ => "text"
  | ElementNode _ _ svg _ _ _ _ _ _ => "svg"
  | ElementNode _ _ element _ _ _ _ _ _ => "element"
  end.

(** The chain of ancestors of a parsed node, nearest first. *)
Fixpoint ancestors (node : Node) : list Node :=
  match node with
  | TextNode _ (Some p) _ | TagNode _ (Some p) _ _ _ => p :: ancestors p
  | _ => []
  end.

Definition tagOf (node : Node) : option string :=
  match node with
  | TagNode _ _ tag _ _ => Some tag
  | TextNode _ _ _ => None
  end.

(** ** Example documents

    The trees [parse] returns for a few documents; a child refers to its
    parent as the parent stood when the child was created, with no
    children yet. *)

Definition tab : string := String "009"%char "".

(** [<svg><rect/></svg>] *)
Definition svgOpen : Node := TagNode 1 None "svg" [] [].
Definition rectInSvg : Node := TagNode 2 (Some svgOpen) "rect" [] [].
Definition svgDoc : list Node := [TagNode 1 None "svg" [] [rectInSvg]].

(** [<rect/>] on its own *)
Definition rectAlone : Node := TagNode 1 None "rect" [] [].

(** [<svg>hi</svg>] *)
Definition textInSvg : Node := TextNode 2 (Some svgOpen) "hi".

(** [<div class=c><span>hi</span></div>], the class value quoted *)
Definition divOpen : Node := TagNode 1 None "div" [{| name := "class"; value := "c" |}] [].
Definition spanOpen : Node := TagNode 2 (Some divOpen) "span" [] [].
Definition hiText : Node := TextNode 3 (Some spanOpen) "hi".
Definition divDoc : list Node :=
  [TagNode 1 None "div" [{| name := "class"; value := "c" |}]
     [TagNode 2 (Some divOpen) "span" [] [hiText]]].

(** [<template><p></p></template>] *)
Definition templateOpen : Node := TagNode 1 None "template" [] [].
Definition templateDoc : list Node :=
  [TagNode 1 None "template" [] [TagNode 2 (Some templateOpen) "p" [] []]].

(** [<style>body{}</style>] *)
Definition styleOpen : Node := TagNode 1 None "style" [] [].
Definition styleDoc : list Node :=
  [TagNode 1 None "style" [] [TextNode 2 (Some styleOpen) "body{}"]].

(** [<div on:click={onClick}><img {src}></div>] followed by a script *)
Definition clickDivOpen : Node :=
  TagNode 1 None "div" [{| name := "on:click"; value := "{onClick}" |}] [].
Definition scriptOpen : Node := TagNode 3 None "script" [] [].
Definition clickDoc : list Node :=
  [TagNode 1 None "div" [{| name := "on:click"; value := "{onClick}" |}]
     [TagNode 2 (Some clickDivOpen) "img" [{| name := "{src}"; value := "" |}] []];
   TagNode 3 None "script" [] [TextNode 4 (Some scriptOpen) "function onClick() {}"]].

(** The same document with modifiers on the event attribute. *)
Definition clickModDivOpen : Node :=
  TagNode 1 None "div" [{| name := "on:click.once.passive"; value := "{onClick}" |}] [].
Definition clickModDoc : list Node :=
  [TagNode 1 None "div" [{| name := "on:click.once.passive"; value := "{onClick}" |}]
     [TagNode 2 (Some clickModDivOpen) "img" [{| name := "{src}"; value := "" |}] []];
   TagNode 3 None "script" [] [TextNode 4 (Some scriptOpen) "function onClick() {}"]].

(** [under h t c]: following declared parents upwards from [c] reaches [t]. *)
Inductive under (h : store) (t : loc) : loc → Prop :=
| under_self : under h t t
| under_child c d p :
    h !! c = Some d → dparent d = Some p → under h t p → under h t c.

(** ** Documents that differ in event modifiers only *)

(** An event name: no colon, dot or bar in it. *)
Fixpoint isEventWord (s : string) : bool :=
  match s with
  | EmptyString => true
  | String c s' =>
      negb (Ascii.eqb c ":"%char) && negb (isEventSep c) && isEventWord s'
  end.

(** The modifier segments of an attribute name: nothing, or a dot or a
    bar followed by anything. *)
Definition isModifierPart (s : string) : bool :=
  match s with
  | EmptyString => true
  | String c _ => isEventSep c
  end.

(** Two attributes that are equal, or that are event attributes with the
    same event, the same handler expression and any modifiers. *)
Inductive sameAttribute : NodeAttribute → NodeAttribute → Prop :=
| same_attribute a : sameAttribute a a
| same_event ev m1 m2 v :
    isEventWord ev = true → isModifierPart m1 = true → isModifierPart m2 = true →
    JS.startsWith v "{" = true →
    sameAttribute {| name := "on:" +:+ ev +:+ m1; value := v |}
                  {| name := "on:" +:+ ev +:+ m2; value := v |}.

(** Two parsed trees that are identical except for the modifier segments
    of event attribute names. *)
Inductive sameButModifiers : Node → Node → Prop :=
| same_text r p1 p2 s :
    option_Forall2 sameButModifiers p1 p2 →
    sameButModifiers (TextNode r p1 s) (TextNode r p2 s)
| same_tag r p1 p2 t a1 a2 c1 c2 :
    option_Forall2 sameButModifiers p1 p2 →
    Forall2 sameAttribute a1 a2 →
    Forall2 sameButModifiers c1 c2 →
    sameButModifiers (TagNode r p1 t a1 c1) (TagNode r p2 t a2 c2).

(** What the generated code reads of an event directive. *)
Definition eventView (e : EventAttribute) : string * string :=
  (eventName e, variableName e).

(** What the generated code reads of a declared node: everything but the
    modifiers of its events, and of the parsed node only the ref id. *)
Definition outView (d : DeclaredNode)
  : N * option loc *
    (string + ElementType * string * option string * list (string * string)
              * list VariableAttribute * list GenericAttribute * list loc) :=
  match d with
  | TextElementNode n p c => (refId n, p, inl c)
  | ElementNode n p ty tg rf ev va at_ ch =>
      (refId n, p, inr (ty, tg, rf, map eventView ev, va, at_, ch))
  end.

(** Two visited nodes that the generated code cannot tell apart. *)
Definition sameVisit (x y : loc * DeclaredNode) : Prop :=
  x.1 = y.1 ∧ outView x.2 = outView y.2.

(** [<div #ref></div>] *)
Definition refDoc : list Node :=
  [TagNode 1 None "div" [{| name := "#ref"; value := "" |}] []].

(** A string in double quotes, and the text made of the given lines. *)
Definition quoted (s : string) : string := dq +:+ s +:+ dq.
Definition textOfLines (l : list string) : string := concatS (map (λ s, s +:+ nl) l).

(** ** The lines of a chunk *)

Definition isNewline (c : ascii) : bool := Ascii.eqb c "010"%char.

Fixpoint noNewline (s : string) : bool :=
  match s with
  | EmptyString => true
  | String c s' => negb (isNewline c) && noNewline s'
  end.

Definition startsClean (s : string) : bool :=
  match s with
  | EmptyString => false
  | String c _ => negb (JS.isWhiteSpace c)
  end.

Fixpoint endsClean (s : string) : bool :=
  match s with
  | EmptyString => false
  | String c EmptyString => negb (JS.isWhiteSpace c)
  | String _ s' => endsClean s'
  end.

(** The lines joined by line breaks, without one at the end. *)
Fixpoint joinLines (l : list string) : string :=
  match l with
  | [] => ""
  | [x] => x
  | x :: l' => x +:+ nl +:+ joinLines l'
  end.

(** A line that [indent] leaves as it is: no line break inside, no white
    space at either end, not empty. *)
Definition isLine (s : string) : bool := noNewline s && startsClean s && endsClean s.

(** The statements of [compileHtml], without their line ends. *)
Definition creationLine (d : DeclaredNode) : string :=
  match d with
  | TextElementNode _ _ content =>
      "const " +:+ nameof d +:+ " = document.createTextNode("
        +:+ JS.stringify content +:+ ");"
  | ElementNode _ _ svg tag _ _ _ _ _ =>
      "const " +:+ nameof d +:+ " = document.createElementNS("
        +:+ dq +:+ svgNamespace +:+ dq +:+ ", " +:+ dq +:+ tag +:+ dq +:+ ");"
  | ElementNode _ _ element tag _ _ _ _ _ =>
      "const " +:+ nameof d +:+ " = document.createElement("
        +:+ dq +:+ tag +:+ dq +:+ ");"
  end.

Definition attributeLine (self : string) (attr : GenericAttribute) : string :=
  if isDimension (attr_name attr) then
    self +:+ "." +:+ attr_name attr +:+ " = " +:+ JS.stringify (attr_value attr) +:+ ";"
  else if String.eqb (attr_name attr) "class" then
    self +:+ ".className = " +:+ JS.stringify (attr_value attr) +:+ ";"
  else if String.eqb (attr_name attr) "style" then
    self +:+ ".style.cssText = " +:+ JS.stringify (attr_value attr) +:+ ";"
  else
    self +:+ ".setAttribute(" +:+ JS.stringify (attr_name attr) +:+ ", "
         +:+ JS.stringify (attr_value attr) +:+ ");".

Definition appendLines (h : store) (d : DeclaredNode) : list string :=
  match dparent d with
  | Some p =>
      match h !! p with
      | Some pd => [nameof pd +:+ ".appendChild(" +:+ nameof d +:+ ");"]
      | None => []
      end
  | None => []
  end.

Definition statements (h : store) (d : DeclaredNode) : list string :=
  creationLine d :: map (attributeLine (nameof d)) (dattributes d) ++ appendLines h d.

Definition tagText (d : DeclaredNode) : string :=
  match d with
  | TextElementNode _ _ _ => ""
  | ElementNode _ _ _ tag _ _ _ _ _ => tag
  end.

(** The names and the tag that [compileHtml] copies into the statements
    of a node unescaped hold no line break, and the names are not blank
    at their start. *)
Definition lineSafe (h : store) (d : DeclaredNode) : bool :=
  noNewline (nameof d) && startsClean (nameof d) && noNewline (tagText d) &&
  match dparent d with
  | Some p =>
      match h !! p with
      | Some pd => noNewline (nameof pd) && startsClean (nameof pd)
      | None => true
      end
  | None => true
  end.

(** A declared node that [prepareNodes] moves to one of its three
    buckets when it meets it at the root level. *)
Definition segregated (d : DeclaredNode) : bool :=
  match d with
  | ElementNode _ _ element tag _ _ _ _ _ =>
      String.eqb tag "template" || String.eqb tag "script" || String.eqb tag "style"
  | _ => false
  end.

(** ** More of the parser module: [walk], [flat], [findParent] *)

(** [walk]: the visitor is called on a node, then on the nodes below it. *)
Fixpoint walkNode {S : Type} (visitor : Node → S → S) (node : Node) (s : S) : S :=
  let s := visitor node s in
  match node with
  | TagNode _ _ _ _ children => fold_left (λ s c, walkNode visitor c s) children s
  | TextNode _ _ _ => s
  end.

(** [walk] on an array of nodes; the state [S] stands for what the
    visitor changes. *)
Definition walk {S : Type} (nodes : list Node) (visitor : Node → S → S) (s : S) : S :=
  fold_left (λ s c, walkNode visitor c s) nodes s.

(** The visitor of [flat]: a node is pushed unless the [Set] holds its
    ref id. *)
Definition flatVisit (node : Node) (acc : gset N * list Node) : gset N * list Node :=
  if bool_decide (refId node ∈ acc.1) then acc
  else ({[refId node]} ∪ acc.1, acc.2 ++ [node]).

(** [flat]: the walk with a [Set] of the ref ids met so far. *)
Definition flat (nodes : list Node) : list Node := (walk nodes flatVisit (∅, [])).2.

(** [findParent]: the nearest ancestor accepted by the filter. *)
Fixpoint findParent (node : Node) (filter : Node → bool) : option Node :=
  match node with
  | TextNode _ (Some p) _ | TagNode _ (Some p) _ _ _ =>
      if filter p then Some p else findParent p filter
  | _ => None
  end.

(** ** Notions for the parsed forest *)

(** The first node of a list for every ref id, in the order of the list. *)
Fixpoint firstOfEach (l : list Node) : list Node :=
  match l with
  | [] => []
  | x :: l' => x :: filter (λ y, refId y ≠ refId x) (firstOfEach l')
  end.

(** The nodes of a tree in document order, a node before the nodes below
    it. *)
Fixpoint nodesOf (node : Node) : list Node :=
  node ::
  match node with
  | TagNode _ _ _ _ children => flat_map nodesOf children
  | TextNode _ _ _ => []
  end.

(** The nodes of a forest in document order. *)
Definition allNodes (nodes : list Node) : list Node := flat_map nodesOf nodes.

(** ** Notions for [reduce] and the declared tree *)

(** One step of [reduce]: the visit of one node and the update of the [Map]. *)
Definition reduceStep {T St : Type} (visit : Node → option T → St → T * St)
    (st : gmap N T * St) (node : Node) : gmap N T * St :=
  let '(reduced, s) := visit node (getParent st.1 node) st.2 in
  (<[refId node := reduced]> st.1, s).

(** The position of the last node of a list that carries a ref id, counted
    from [i]. *)
Fixpoint lastIndexFrom (r : N) (i : nat) (l : list Node) : option nat :=
  match l with
  | [] => None
  | y :: l' =>
      match lastIndexFrom r (S i) l' with
      | Some j => Some j
      | None => if N.eqb (refId y) r then Some i else None
      end
  end.

(** The position of the last node of a list that carries a ref id. *)
Definition lastIndexOf (r : N) (l : list Node) : option nat := lastIndexFrom r 0 l.

(** The declared parent that [reduce] hands to the visitor of the [k]-th
    node [x] of the walk [w]: the last node before it that carries the ref
    id of [x]'s parent link. *)
Definition parentIndex (w : list Node) (k : nat) (x : Node) : option nat :=
  p ← parent x; lastIndexOf (refId p) (take k w).

(** The nodes of a store that name [k] as their parent, in store order. *)
Definition childIndexes (h : store) (k : loc) : list loc :=
  filter (λ j, dparent <$> h !! j = Some (Some k)) (seq 0 (length h)).

(** The state of [reduce] after the nodes [w] have been declared. *)
Definition mirror_inv trimAny decode (w : list Node) (st : gmap N nat * store) : Prop :=
  reduce_inv trimAny decode st ∧
  dnode <$> st.2 = w ∧
  (∀ r, st.1 !! r = lastIndexOf r w) ∧
  (∀ k x d, w !! k = Some x → st.2 !! k = Some d → dparent d = parentIndex w k x) ∧
  (∀ k d, st.2 !! k = Some d →
     dchildren d = if isText d then [] else childIndexes st.2 k).

(** The nodes directly below a node. *)
Definition childrenOf (node : Node) : list Node :=
  match node with
  | TagNode _ _ _ _ children => children
  | TextNode _ _ _ => []
  end.

(** ** Notions for the attribute classifier and the names *)

(** Every character of a string passes a test. *)
Fixpoint allChars (q : ascii → bool) (s : string) : bool :=
  match s with
  | EmptyString => true
  | String c s' => q c && allChars q s'
  end.

(** The separator of [name.split(':')]. *)
Definition isColon (c : ascii) : bool := Ascii.eqb c ":"%char.

(** The text of the modifiers of an event attribute: every modifier after
    its separator, a dot or a bar. *)
Definition modifierSuffix (mods : list (ascii * string)) : string :=
  concatS (map (λ cw, String cw.1 cw.2) mods).


(** ** Notions for [prepareNodes] *)

(** The four arrays of [prepareNodes]. *)
Inductive Bucket := RootBucket | TemplateBucket | ScriptBucket | StyleBucket.

#[global] Instance Bucket_eq_dec : EqDecision Bucket.
Proof. solve_decision. Defined.

(** The array that [prepareNodes] pushes a reference into, if any: none
    for a node with a parent, the array of its tag for a parentless
    template, script or style element, [rootNodes] for the rest. *)
Definition bucketOf (h : store) (n : loc) : option Bucket :=
  d ← h !! n;
  if bool_decide (is_Some (dparent d)) then None
  else Some match d with
            | ElementNode _ _ element tag _ _ _ _ _ =>
                if String.eqb tag "template" then TemplateBucket
                else if String.eqb tag "script" then ScriptBucket
                else if String.eqb tag "style" then StyleBucket
                else RootBucket
            | _ => RootBucket
            end.

(** ** Notions for normalized values and for [indent] *)

(** The string does not start with white space. *)
Definition noWsHead (s : string) : bool :=
  match s with
  | EmptyString => true
  | String c _ => negb (JS.isWhiteSpace c)
  end.

(** Every white-space character of the string is a space, and is not
    followed by another white-space character. *)
Fixpoint spacedOnce (s : string) : bool :=
  match s with
  | EmptyString => true
  | String c s' =>
      (negb (JS.isWhiteSpace c) || (Ascii.eqb c " "%char && noWsHead s')) && spacedOnce s'
  end.

(** A character that is a space or no white space at all. *)
Definition spaceOrInk (c : ascii) : bool := negb (JS.isWhiteSpace c) || Ascii.eqb c " "%char.

(** What [indent] makes of one line: the line without the white space at
    its ends after two spaces, or nothing when only white space is left. *)
Definition indentLine (part : string) : string :=
  let part := JS.trim part in
  if JS.truthy part then "  " +:+ part else "".

(** The pieces that [indent] cuts its argument into. *)
Definition linesOf (s : string) : list string := JS.split (λ c, Ascii.eqb c "010"%char) s.

(** ** Notions for the parser *)

(** The state in which [parse] starts the tokenizer. *)
Definition parseInit : ParseState :=
  {| refCount := 0; lastIsText := false; nodeStack := []; flatNodes := [] |}.

(** The callbacks of [parse], run from a state on. *)
Definition parseFrom (st : option ParseState) (tokens : list Token) : option ParseState :=
  foldl (λ st tok, st ≫= (λ st, parseStep st tok)) st tokens.

(** The closing loop and the final filter of [parse]. *)
Definition attach (flat : list Node) : list Node := (foldl attachStep (∅, []) flat).2.

(** The events never close more tags than they have opened. *)
Fixpoint nested (depth : nat) (tokens : list Token) : bool :=
  match tokens with
  | [] => true
  | OpenTag _ _ :: l => nested (S depth) l
  | CloseTag :: l => match depth with 0 => false | S d => nested d l end
  | TextRun _ :: l => nested depth l
  end.

(** What the parser guarantees of a node by itself: its parent link, if
    any, is a tag; a text node holds text without white space at its ends;
    the attribute values of a tag are normalized. *)
Definition nodeOK (node : Node) : bool :=
  match parent node with Some p => isTagNode p | None => true end &&
  match node with
  | TextNode _ _ s => startsClean s && endsClean s
  | TagNode _ _ _ attrs _ =>
      forallb (λ a, String.eqb (normalizeValue (value a)) (value a)) attrs
  end.

(** Every child of a node names the node as its parent. *)
Definition holdsChildren (y : Node) : Prop :=
  Forall (λ c, refId <$> parent c = Some (refId y)) (childrenOf y).

(** The state of the callbacks of [parse]: the nodes made so far carry
    distinct ref ids, none above the counter, and only tags are open. *)
Definition parse_inv (st : ParseState) : Prop :=
  NoDup (refId <$> (flatNodes st ++ nodeStack st)) ∧
  Forall (λ n, (refId n ≤ refCount st)%N) (flatNodes st ++ nodeStack st) ∧
  Forall (λ n, nodeOK n = true) (flatNodes st ++ nodeStack st) ∧
  Forall (λ n, isTagNode n = true) (nodeStack st).

(** The closing loop of [parse], one node at a time: the node with the
    children gathered for it, and the array it is pushed into, the roots
    ([None]) or the children of the node with a given ref id. *)
Definition fill (acc : gmap N (list Node) * list Node) (node : Node) : Node :=
  match node with
  | TagNode r p t a _ => TagNode r p t a (default [] (acc.1 !! r))
  | TextNode _ _ _ => node
  end.

(** The array a node is pushed into; none when its parent is no tag. *)
Definition targetOf (node : Node) : option (option N) :=
  match parent node with
  | Some p => if isTagNode p then Some (Some (refId p)) else None
  | None => Some None
  end.

(** The contents of an array of the loop. *)
Definition gathered (acc : gmap N (list Node) * list Node) (k : option N) : list Node :=
  match k with
  | None => acc.2
  | Some r => default [] (acc.1 !! r)
  end.

(** An array that the loop may still push into or read: the roots, and
    the children gathered for a node that the loop has not reached. *)
Definition isLive (reached : list N) (k : option N) : Prop :=
  match k with
  | None => True
  | Some r => r ∉ reached
  end.

(** The ref ids of the nodes of a forest. *)
Definition idsOf (l : list Node) : list N := refId <$> allNodes l.

(** The state of the closing loop after it has reached the nodes with the
    ref ids [reached]: every live array holds well-formed trees with
    distinct ref ids, all reached, whose roots name the owner of the array
    as their parent; two live arrays share no ref id. *)
Definition attach_inv (reached : list N) (acc : gmap N (list Node) * list Node) : Prop :=
  (∀ k, isLive reached k →
     NoDup (idsOf (gathered acc k)) ∧
     (∀ i, i ∈ idsOf (gathered acc k) → i ∈ reached) ∧
     Forall (λ y, nodeOK y = true ∧ holdsChildren y) (allNodes (gathered acc k)) ∧
     Forall (λ c, refId <$> parent c = k) (gathered acc k)) ∧
  (∀ k1 k2, isLive reached k1 → isLive reached k2 → k1 ≠ k2 →
     ∀ i, i ∈ idsOf (gathered acc k1) → i ∈ idsOf (gathered acc k2) → False).

(** The events of the tokenizer on [<div class="c"><span>hi</span></div>]. *)
Definition divTokens : list Token :=
  [OpenTag "div" [("class", "c")]; OpenTag "span" []; TextRun "hi"; CloseTag; CloseTag].

(** ** What the generated code reads *)

(** What [compile] reads of an event, and of a declared node: of the
    parsed node the ref id only, no event modifiers, no variable
    bindings. *)
Definition skeletonEvent (e : EventAttribute) : EventAttribute :=
  {| eventName := eventName e; modifiers := []; variableName := variableName e |}.

(** The declared node as the generated code reads it. *)
Definition skeleton (d : DeclaredNode) : DeclaredNode :=
  match d with
  | TextElementNode n p c => TextElementNode (TextNode (refId n) None "") p c
  | ElementNode n p ty tg rf ev va at_ ch =>
      ElementNode (TextNode (refId n) None "") p ty tg rf (map skeletonEvent ev) [] at_ ch
  end.

(** The output of [compile] from a declared tree. *)
Definition outputOf (h : store) (declared : list loc) : option string :=
  ws ← preorder (S (length h)) h (rootNodes (prepareNodes h declared));
  sc ← preorder (S (length h)) h (scripts (prepareNodes h declared));
  Some (header
          +:+ concatS (map (nodeChunk h) ws)
          +:+ concatS (map scriptChunk sc)
          +:+ concatS (map eventStatement (flat_map bindings ws))
          +:+ footer).

(** [declare] on a node that is already compiled. *)
Definition declareNode (compiled : DeclaredNode) (parent : option loc) (h : store) : store :=
  let h := h ++ [setParent compiled parent] in
  match parent with
  | Some p =>
      match h !! p with
      | Some (ElementNode _ _ _ _ _ _ _ _ _) => alter (pushChild (length h - 1)) p h
      | _ => h
      end
  | None => h
  end.

(** The references that [reduce] returns for the roots, when the store
    holds [start] nodes before the first of them. *)
Fixpoint rootPositions (start : nat) (nodes : list Node) : list loc :=
  match nodes with
  | [] => []
  | n :: l => start :: rootPositions (start + length (nodesOf n)) l
  end.

(** An attribute that the classifier drops or takes for a variable
    binding. *)
Definition isSilent trimAny (a : NodeAttribute) : bool :=
  match compileAttribute trimAny a with
  | None | Some (Variable_ _) => true
  | _ => false
  end.

(** A parsed node without its silent attributes, in the node, below it and
    in its parent links. *)
Fixpoint stripSilent trimAny (node : Node) : Node :=
  match node with
  | TextNode r p s => TextNode r (option_map (stripSilent trimAny) p) s
  | TagNode r p t a ch =>
      TagNode r (option_map (stripSilent trimAny) p) t
        (filter (λ x, isSilent trimAny x = false) a)
        (map (stripSilent trimAny) ch)
  end.

(** Two parsed nodes that [compile] cannot tell apart. *)
Definition sameSkeleton trimAny decode (n1 n2 : Node) : Prop :=
  refId n1 = refId n2 ∧ refId <$> parent n1 = refId <$> parent n2 ∧
  skeleton (compileNode trimAny decode n1) = skeleton (compileNode trimAny decode n2).

(** The attributes of a parsed node. *)
Definition attributesOf (node : Node) : list NodeAttribute :=
  match node with
  | TagNode _ _ _ attributes _ => attributes
  | TextNode _ _ _ => []
  end.

(** * Properties *)

(** ** Strings *)

Lemma app_assoc_s (a b c : string) : (a +:+ b) +:+ c = a +:+ b +:+ c.
Proof.
  induction a as [|x a IH]; [done|].
  change (String x ((a +:+ b) +:+ c) = String x (a +:+ b +:+ c)). by rewrite IH.
Qed.

Lemma app_nil_r_s (a : string) : a +:+ "" = a.
Proof.
  induction a as [|x a IH]; [done|].
  change (String x (a +:+ "") = String x a). by rewrite IH.
Qed.

Lemma concatS_app (l1 l2 : list string) :
  concatS (l1 ++ l2) = concatS l1 +:+ concatS l2.
Proof.
  induction l1 as [|x l1 IH]; [done|].
  change (x +:+ concatS (l1 ++ l2) = (x +:+ concatS l1) +:+ concatS l2).
  by rewrite IH, app_assoc_s.
Qed.

Lemma fold_left_emit {A} (f : A → string) (l : list A) (init : string) :
  fold_left (λ code x, code +:+ f x) l init = init +:+ concatS (map f l).
Proof.
  revert init. induction l as [|x l IH]; intros init.
  - simpl. by rewrite app_nil_r_s.
  - change (fold_left (λ code x, code +:+ f x) l (init +:+ f x)
            = init +:+ f x +:+ concatS (map f l)).
    by rewrite IH, app_assoc_s.
Qed.

(** ** Induction on parsed trees *)

Lemma Node_tree_ind (P : Node → Prop) :
  (∀ r p s, P (TextNode r p s)) →
  (∀ r p t a ch, Forall P ch → P (TagNode r p t a ch)) →
  ∀ n, P n.
Proof.
  intros Htext Htag. fix IH 1. intros [r p s|r p t a ch].
  - apply Htext.
  - apply Htag. induction ch as [|c ch IHch]; constructor; [apply IH|apply IHch].
Qed.

Lemma reduceNode_eq {T St} (visit : Node → option T → St → T * St) node st :
  reduceNode visit node st =
    let '(reduced, s) := visit node (getParent st.1 node) st.2 in
    let st' := (<[refId node := reduced]> st.1, s) in
    (reduced, if isTagNode node
              then (reduceWalk visit (match node with TagNode _ _ _ _ ch => ch | _ => [] end) st').2
              else st').
Proof.
  destruct node as [r p s|r p t a ch]; simpl; by destruct (visit _ _ _).
Qed.

(** ** The store built by [reduce] *)

Section Store.
Variable trimAny : string → list string → string.
Variable decode : string → string.

Lemma dparent_setParent d p : dparent (setParent d p) = p.
Proof. by destruct d. Qed.

Lemma dchildren_compileNode node p :
  dchildren (setParent (compileNode trimAny decode node) p) = [].
Proof. by destruct node. Qed.

Lemma declare_loc node p h : (declare trimAny decode node p h).1 = length h.
Proof. done. Qed.

Lemma declare_length node p h :
  length (declare trimAny decode node p h).2 = S (length h).
Proof.
  unfold declare; simpl.
  assert (length (h ++ [setParent (compileNode trimAny decode node) p]) = S (length h))
    as Hlen by (rewrite length_app; simpl; lia).
  destruct p as [q|]; [|done].
  destruct (_ !! q) as [[]|]; try done. by rewrite length_alter.
Qed.

(** What [declare] leaves in the store: the new node at the end, its
    reference pushed into the parent when that parent is an element. *)
Lemma declare_lookup node p h k d :
  (∀ q, p = Some q → q < length h) →
  (declare trimAny decode node p h).2 !! k = Some d →
  (k = length h ∧ d = setParent (compileNode trimAny decode node) p) ∨
  (k < length h ∧ ∃ d0, h !! k = Some d0 ∧ dparent d = dparent d0 ∧
     eraseLinks d = eraseLinks d0 ∧
     (dchildren d = dchildren d0 ∨
      (p = Some k ∧ dchildren d = dchildren d0 ++ [length h]))).
Proof.
  intros Hp. unfold declare. cbn [snd].
  set (c := setParent (compileNode trimAny decode node) p).
  assert (∀ k d, (h ++ [c]) !! k = Some d →
            (k = length h ∧ d = c) ∨ (k < length h ∧ h !! k = Some d)) as Hsnoc.
  { intros k' d' [?|[-> ->]]%lookup_snoc_Some; [right|left]; naive_solver. }
  assert ((h ++ [c]) !! k = Some d →
          (k = length h ∧ d = c) ∨
          (k < length h ∧ ∃ d0, h !! k = Some d0 ∧ dparent d = dparent d0 ∧
             eraseLinks d = eraseLinks d0 ∧
             (dchildren d = dchildren d0 ∨
              (p = Some k ∧ dchildren d = dchildren d0 ++ [length h])))) as Hsame.
  { intros [?|[? ?]]%Hsnoc; [by left|right]. split; [done|]. exists d. auto. }
  destruct p as [q|]; [|done].
  specialize (Hp q eq_refl).
  destruct ((h ++ [c]) !! q) as [[|n0 p0 ty tg r ev va at_ ch]|] eqn:Hq;
    [exact Hsame| |exact Hsame].
  destruct (decide (k = q)) as [->|Hne].
  - rewrite list_lookup_alter_eq, Hq. simpl. intros [= <-].
    apply Hsnoc in Hq as [[-> Hc]|[Hlt Hq]]; [lia|].
    right. split; [done|]. eexists. split; [done|]. simpl. split; [done|].
    split; [done|]. by right.
  - rewrite list_lookup_alter_ne by done. apply Hsame.
Qed.

Lemma declare_new node p h :
  (∀ q, p = Some q → q < length h) →
  (declare trimAny decode node p h).2 !! length h
    = Some (setParent (compileNode trimAny decode node) p).
Proof.
  intros Hp.
  destruct ((declare trimAny decode node p h).2 !! length h) as [d|] eqn:Hd.
  - apply declare_lookup in Hd as [[_ ->]|[Hlt _]]; [done|lia|done].
  - apply lookup_ge_None in Hd. rewrite declare_length in Hd. lia.
Qed.

Lemma declare_old node p h k d0 :
  (∀ q, p = Some q → q < length h) →
  h !! k = Some d0 →
  ∃ d, (declare trimAny decode node p h).2 !! k = Some d ∧ dparent d = dparent d0 ∧
       eraseLinks d = eraseLinks d0 ∧
       (dchildren d = dchildren d0 ∨
        (p = Some k ∧ dchildren d = dchildren d0 ++ [length h])).
Proof.
  intros Hp Hk. pose proof (lookup_lt_Some _ _ _ Hk) as Hlt.
  destruct ((declare trimAny decode node p h).2 !! k) as [d|] eqn:Hd.
  - exists d. split; [done|].
    apply declare_lookup in Hd as [[-> _]|(_ & d0' & Hk' & ? & ? & ?)]; [lia| |done].
    rewrite Hk in Hk'. by inversion Hk'; subst.
  - apply lookup_ge_None in Hd. rewrite declare_length in Hd. lia.
Qed.

Lemma declare_wf node p h :
  wf_store h → (∀ q, p = Some q → q < length h) →
  wf_store (declare trimAny decode node p h).2.
Proof.
  intros Hwf Hp k d Hk.
  assert (∀ c q, dparent <$> h !! c = Some (Some q) →
            dparent <$> (declare trimAny decode node p h).2 !! c = Some (Some q)) as Hkeep.
  { intros c q Hc. destruct (h !! c) as [dc|] eqn:Hdc; [|done].
    destruct (declare_old node p h c dc Hp Hdc) as (d' & -> & Hpar & _ & _).
    simpl in *. by rewrite Hpar. }
  destruct (declare_lookup _ _ _ _ _ Hp Hk) as [[-> ->]|(Hlt & d0 & Hk0 & Hpar & _ & Hch)].
  - rewrite dparent_setParent, dchildren_compileNode. split; [auto|].
    intros c Hc. by apply elem_of_nil in Hc.
  - destruct (Hwf k d0 Hk0) as [Hpa Hc]. split; [by rewrite Hpar|].
    intros c Hin. destruct Hch as [Hch|[-> Hch]]; rewrite Hch in Hin.
    + destruct (Hc c Hin) as [? ?]. split; [done|]. by apply Hkeep.
    + apply elem_of_app in Hin as [Hin|Hin].
      * destruct (Hc c Hin) as [? ?]. split; [done|]. by apply Hkeep.
      * apply list_elem_of_singleton in Hin as ->. split; [done|].
        rewrite declare_new by done. simpl. by rewrite dparent_setParent.
Qed.

Lemma eraseLinks_setParent d p : eraseLinks (setParent d p) = eraseLinks d.
Proof. by destruct d. Qed.

Lemma dnode_eraseLinks d : dnode (eraseLinks d) = dnode d.
Proof. by destruct d. Qed.

Lemma eraseLinks_compileNode node :
  eraseLinks (compileNode trimAny decode node) = compileNode trimAny decode node ∧
  dnode (compileNode trimAny decode node) = node.
Proof. by destruct node. Qed.

Lemma declare_declared_by node p h :
  declared_by trimAny decode h → (∀ q, p = Some q → q < length h) →
  declared_by trimAny decode (declare trimAny decode node p h).2.
Proof.
  intros Hby Hp k d Hk.
  destruct (declare_lookup _ _ _ _ _ Hp Hk) as [[-> ->]|(Hlt & d0 & Hk0 & _ & He & _)].
  - rewrite eraseLinks_setParent.
    destruct (eraseLinks_compileNode node) as [-> _].
    rewrite <- (dnode_eraseLinks (setParent _ _)), eraseLinks_setParent.
    destruct (eraseLinks_compileNode node) as [-> ->]. done.
  - rewrite <- (dnode_eraseLinks d), He, dnode_eraseLinks. by apply (Hby k).
Qed.

Lemma getParent_bound st node q :
  reduce_inv trimAny decode st → getParent st.1 node = Some q → q < length st.2.
Proof.
  intros [_ Hmap]. unfold getParent. destruct (parent node); [|done]. apply Hmap.
Qed.

Lemma declare_step st node :
  reduce_inv trimAny decode st →
  let res := declare trimAny decode node (getParent st.1 node) st.2 in
  reduce_inv trimAny decode (<[refId node := res.1]> st.1, res.2) ∧
  res.1 = length st.2 ∧ length res.2 = S (length st.2).
Proof.
  intros Hinv res. subst res. rewrite declare_loc, declare_length.
  split; [|done]. split; cbn [fst snd]; [split|].
  - apply declare_wf; [apply Hinv|]. intros q. by apply getParent_bound.
  - apply declare_declared_by; [apply Hinv|]. intros q. by apply getParent_bound.
  - intros r' l'. rewrite declare_length, lookup_insert.
    case_decide; [intros [= <-]; lia|]. intros ?%Hinv. lia.
Qed.

Lemma reduceWalk_cons {T St} (visit : Node → option T → St → T * St) c l st :
  reduceWalk visit (c :: l) st =
    let '(r, st1) := reduceNode visit c st in
    let '(rs, st2) := reduceWalk visit l st1 in
    (r :: rs, st2).
Proof. done. Qed.

Lemma reduceNode_inv node : ∀ st,
  reduce_inv trimAny decode st →
  reduce_inv trimAny decode (reduceNode (declare trimAny decode) node st).2 ∧
  length st.2 < length (reduceNode (declare trimAny decode) node st).2.2 ∧
  (reduceNode (declare trimAny decode) node st).1 = length st.2.
Proof.
  induction node as [r p s|r p t a ch IH] using Node_tree_ind; intros st Hinv;
    rewrite reduceNode_eq;
    match goal with |- context [declare _ _ ?n _ _] =>
      pose proof (declare_step st n Hinv) as Hs end;
    cbn zeta in Hs;
    destruct (declare _ _ _ _ _) as [l h']; cbn [isTagNode fst snd] in *;
    destruct Hs as (Hinv' & -> & Hlen).
  - split; [done|]. split; [lia|done].
  - assert (length st.2 < length h') as Hle by lia. clear Hlen.
    revert Hinv' Hle.
    generalize (<[refId (TagNode r p t a ch) := length st.2]> st.1).
    intros m Hinv' Hle. split; [|split; [|done]].
    + clear Hle. revert m h' Hinv'.
      induction IH as [|c ch' Hc _ IHch]; intros m h' Hinv'; [done|].
      rewrite reduceWalk_cons. destruct (Hc (m, h') Hinv') as (Hi1 & _ & _).
      destruct (reduceNode _ c (m, h')) as [r1 [m1 h1]].
      specialize (IHch m1 h1 Hi1).
      by destruct (reduceWalk _ ch' (m1, h1)) as [rs st2].
    + revert m h' Hinv' Hle.
      induction IH as [|c ch' Hc _ IHch]; intros m h' Hinv' Hle; [done|].
      rewrite reduceWalk_cons. destruct (Hc (m, h') Hinv') as (Hi1 & Hl1 & _).
      destruct (reduceNode _ c (m, h')) as [r1 [m1 h1]]. cbn [fst snd] in *.
      assert (length st.2 < length h1) as Hl by lia.
      specialize (IHch m1 h1 Hi1 Hl).
      by destruct (reduceWalk _ ch' (m1, h1)) as [rs st2].
Qed.

(** Every reference returned by the fold denotes a node of the final store. *)
Lemma reduceWalk_inv nodes : ∀ st,
  reduce_inv trimAny decode st →
  reduce_inv trimAny decode (reduceWalk (declare trimAny decode) nodes st).2 ∧
  length st.2 ≤ length (reduceWalk (declare trimAny decode) nodes st).2.2 ∧
  Forall (λ l, l < length (reduceWalk (declare trimAny decode) nodes st).2.2)
    (reduceWalk (declare trimAny decode) nodes st).1.
Proof.
  induction nodes as [|c nodes IH]; intros st Hinv.
  - split; [done|]. split; [done|]. constructor.
  - rewrite reduceWalk_cons.
    destruct (reduceNode_inv c st Hinv) as (Hi1 & Hl1 & Hr1).
    destruct (reduceNode _ c st) as [r1 st1]. cbn [fst snd] in *.
    destruct (IH st1 Hi1) as (Hi2 & Hl2 & Hall).
    destruct (reduceWalk _ nodes st1) as [rs st2]. cbn [fst snd] in *.
    split; [done|]. split; [lia|]. constructor; [lia|done].
Qed.

Lemma declareAll_wf nodes :
  (wf_store (declareAll trimAny decode nodes).2 ∧
   declared_by trimAny decode (declareAll trimAny decode nodes).2) ∧
  Forall (λ l, l < length (declareAll trimAny decode nodes).2)
    (declareAll trimAny decode nodes).1.
Proof.
  unfold declareAll, reduce.
  assert (reduce_inv trimAny decode (∅, [])) as Hinit.
  { split; cbn [fst snd]; [split|intros r l; by rewrite lookup_empty].
    - intros p d Hp. by rewrite lookup_nil in Hp.
    - intros p d Hp. by rewrite lookup_nil in Hp. }
  destruct (reduceWalk_inv nodes _ Hinit) as (Hinv & _ & Hall).
  destruct (reduceWalk _ nodes _) as [rs [m h]]. cbn [fst snd] in *.
  split; [apply Hinv|done].
Qed.

Lemma store_ext_refl h : store_ext h h.
Proof. intros k d Hk. by exists d. Qed.

Lemma store_ext_trans h1 h2 h3 : store_ext h1 h2 → store_ext h2 h3 → store_ext h1 h3.
Proof.
  intros H12 H23 k d Hk. destruct (H12 k d Hk) as (d2 & Hk2 & Hp2 & He2).
  destruct (H23 k d2 Hk2) as (d3 & Hk3 & Hp3 & He3).
  exists d3. split; [done|]. split; congruence.
Qed.

Lemma declare_ext st node :
  reduce_inv trimAny decode st →
  store_ext st.2 (declare trimAny decode node (getParent st.1 node) st.2).2.
Proof.
  intros Hinv k d Hk.
  destruct (declare_old node (getParent st.1 node) st.2 k d) as (d' & ? & ? & ? & _);
    [intros q; by apply getParent_bound|done|]. by exists d'.
Qed.

Lemma reduceNode_ext node : ∀ st,
  reduce_inv trimAny decode st → store_ext st.2 (reduceNode (declare trimAny decode) node st).2.2.
Proof.
  induction node as [r p s|r p t a ch IH] using Node_tree_ind; intros st Hinv;
    rewrite reduceNode_eq;
    match goal with |- context [declare _ _ ?n _ _] =>
      pose proof (declare_step st n Hinv) as Hs;
      pose proof (declare_ext st n Hinv) as He end;
    cbn zeta in Hs;
    destruct (declare _ _ _ _ _) as [l h']; cbn [isTagNode fst snd] in *;
    destruct Hs as (Hinv' & -> & Hlen); [done|].
  apply (store_ext_trans _ h'); [done|]. clear He Hlen. revert Hinv'.
  generalize (<[refId (TagNode r p t a ch) := length st.2]> st.1). intros m Hinv'.
  revert m h' Hinv'.
  induction IH as [|c ch' Hc _ IHch]; intros m h' Hinv'; [apply store_ext_refl|].
  rewrite reduceWalk_cons. specialize (Hc (m, h') Hinv').
  destruct (reduceNode_inv c (m, h') Hinv') as (Hi1 & _ & _).
  destruct (reduceNode _ c (m, h')) as [r1 [m1 h1]]. cbn [fst snd] in *.
  specialize (IHch m1 h1 Hi1).
  destruct (reduceWalk _ ch' (m1, h1)) as [rs st2]. cbn [fst snd] in *.
  by apply (store_ext_trans _ h1).
Qed.

(** The node stored for a parsed node right after it has been declared,
    as the final store still shows it. *)
Lemma reduceNode_result node st :
  reduce_inv trimAny decode st →
  ∃ d, (reduceNode (declare trimAny decode) node st).2.2
         !! (reduceNode (declare trimAny decode) node st).1 = Some d ∧
       dparent d = getParent st.1 node ∧
       eraseLinks d = compileNode trimAny decode node.
Proof.
  intros Hinv.
  assert (∃ d, (declare trimAny decode node (getParent st.1 node) st.2).2
                 !! length st.2 = Some d ∧
               dparent d = getParent st.1 node ∧
               eraseLinks d = compileNode trimAny decode node) as (d0 & Hd0 & Hp0 & He0).
  { eexists. split; [apply declare_new; intros q; by apply getParent_bound|].
    rewrite dparent_setParent, eraseLinks_setParent.
    split; [done|]. apply eraseLinks_compileNode. }
  destruct (reduceNode_inv node st Hinv) as (_ & _ & ->).
  rewrite reduceNode_eq.
  pose proof (declare_step st node Hinv) as Hs. cbn zeta in Hs.
  destruct (declare _ _ _ _ _) as [l h']. cbn [fst snd] in *.
  destruct Hs as (Hinv' & -> & Hlen).
  destruct node as [r p s|r p t a ch]; cbn [isTagNode]; [by exists d0|].
  assert (store_ext h' (reduceWalk (declare trimAny decode) ch
            (<[refId (TagNode r p t a ch) := length st.2]> st.1, h')).2.2) as Hext.
  { revert Hinv'. generalize (<[refId (TagNode r p t a ch) := length st.2]> st.1).
    clear. intros m. revert m h'.
    induction ch as [|c ch IHch]; intros m h' Hinv'; [apply store_ext_refl|].
    rewrite reduceWalk_cons. pose proof (reduceNode_ext c (m, h') Hinv') as He.
    destruct (reduceNode_inv c (m, h') Hinv') as (Hi1 & _ & _).
    destruct (reduceNode _ c (m, h')) as [r1 [m1 h1]]. cbn [fst snd] in *.
    specialize (IHch m1 h1 Hi1).
    destruct (reduceWalk _ ch (m1, h1)) as [rs st2]. cbn [fst snd] in *.
    by apply (store_ext_trans _ h1). }
  destruct (Hext _ _ Hd0) as (d' & Hd' & Hp' & He').
  exists d'. cbn [snd]. split; [done|]. split; congruence.
Qed.

Lemma reduceWalk_ext nodes : ∀ st,
  reduce_inv trimAny decode st → store_ext st.2 (reduceWalk (declare trimAny decode) nodes st).2.2.
Proof.
  induction nodes as [|c nodes IH]; intros st Hinv; [apply store_ext_refl|].
  rewrite reduceWalk_cons. pose proof (reduceNode_ext c st Hinv) as He.
  destruct (reduceNode_inv c st Hinv) as (Hi1 & _ & _).
  destruct (reduceNode _ c st) as [r1 st1]. cbn [fst snd] in *.
  specialize (IH st1 Hi1).
  destruct (reduceWalk _ nodes st1) as [rs st2]. cbn [fst snd] in *.
  by apply (store_ext_trans _ st1.2).
Qed.

(** The references returned for the root-level nodes denote their
    compiled forms; a root-level node without a parent has no declared
    parent. *)
Lemma reduceWalk_roots nodes : ∀ st,
  reduce_inv trimAny decode st →
  Forall2 (λ node l,
             ∃ d, (reduceWalk (declare trimAny decode) nodes st).2.2 !! l = Some d ∧
                  eraseLinks d = compileNode trimAny decode node ∧
                  (parent node = None → dparent d = None))
    nodes (reduceWalk (declare trimAny decode) nodes st).1.
Proof.
  induction nodes as [|c nodes IH]; intros st Hinv; [constructor|].
  rewrite reduceWalk_cons.
  destruct (reduceNode_result c st Hinv) as (d & Hd & Hp & He).
  destruct (reduceNode_inv c st Hinv) as (Hi1 & _ & _).
  destruct (reduceNode _ c st) as [r1 st1]. cbn [fst snd] in *.
  specialize (IH st1 Hi1). pose proof (reduceWalk_ext nodes st1 Hi1) as Hext.
  destruct (reduceWalk _ nodes st1) as [rs st2]. cbn [fst snd] in *.
  constructor; [|done].
  destruct (Hext _ _ Hd) as (d' & Hd' & Hp' & He').
  exists d'. split; [done|]. split; [congruence|].
  intros Hnone. rewrite Hp', Hp. unfold getParent. by rewrite Hnone.
Qed.

Lemma declareAll_roots nodes :
  Forall2 (λ node l,
             ∃ d, (declareAll trimAny decode nodes).2 !! l = Some d ∧
                  eraseLinks d = compileNode trimAny decode node ∧
                  (parent node = None → dparent d = None))
    nodes (declareAll trimAny decode nodes).1.
Proof.
  unfold declareAll, reduce.
  assert (reduce_inv trimAny decode (∅, [])) as Hinit.
  { split; cbn [fst snd]; [split|intros r l; by rewrite lookup_empty].
    - intros p d Hp. by rewrite lookup_nil in Hp.
    - intros p d Hp. by rewrite lookup_nil in Hp. }
  pose proof (reduceWalk_roots nodes _ Hinit) as H.
  by destruct (reduceWalk _ nodes _) as [rs [m h]].
Qed.

End Store.

(** ** The walk over the declared tree *)

Lemma preorder_nil fuel h : preorder (S fuel) h [] = Some [].
Proof. done. Qed.

Lemma preorder_cons fuel h n l :
  preorder (S fuel) h (n :: l) =
    d ← h !! n;
    sub ← (if isText d then Some [] else preorder fuel h (dchildren d));
    rest ← preorder (S fuel) h l;
    Some ((n, d) :: sub ++ rest).
Proof. done. Qed.

Lemma walkDeclared_cons {S} fuel h n l (v : loc → DeclaredNode → S → S) s :
  walkDeclared (Datatypes.S fuel) h (n :: l) v s =
    d ← h !! n;
    s ← (let s := v n d s in
         if isText d then Some s else walkDeclared fuel h (dchildren d) v s);
    walkDeclared (Datatypes.S fuel) h l v s.
Proof. done. Qed.

(** [walkDeclared] folds its visitor over the visit order. *)
Lemma walkDeclared_preorder {S} (v : loc → DeclaredNode → S → S) h fuel :
  ∀ nodes s,
    walkDeclared fuel h nodes v s =
      (λ ws, fold_left (λ s x, v x.1 x.2 s) ws s) <$> preorder fuel h nodes.
Proof.
  induction fuel as [|fuel IHf]; intros nodes s; [done|].
  revert s. induction nodes as [|n l IHl]; intros s; [done|].
  rewrite walkDeclared_cons, preorder_cons.
  destruct (h !! n) as [d|]; [|done]. cbn [mbind option_bind].
  destruct (isText d).
  - cbn [mbind option_bind]. rewrite IHl.
    by destruct (preorder (Datatypes.S fuel) h l).
  - rewrite IHf. destruct (preorder fuel h (dchildren d)) as [sub|]; [|done].
    cbn [fmap option_fmap option_map mbind option_bind]. rewrite IHl.
    destruct (preorder (Datatypes.S fuel) h l) as [rest|]; [|done].
    cbn [fmap option_fmap option_map mbind option_bind fold_left fst snd].
    by rewrite fold_left_app.
Qed.

(** Enough fuel: a walk over a well-formed store returns. *)
Lemma preorder_total h : wf_store h →
  ∀ fuel nodes,
    0 < fuel →
    Forall (λ n, n < length h ∧ length h - n < fuel) nodes →
    is_Some (preorder fuel h nodes).
Proof.
  intros Hwf. induction fuel as [|fuel IHf]; intros nodes Hpos Hall; [lia|].
  induction Hall as [|n l [Hn Hf] _ IHl]; [by eexists|].
  rewrite preorder_cons.
  destruct (lookup_lt_is_Some_2 h n Hn) as [d Hd]. rewrite Hd. cbn [mbind option_bind].
  destruct IHl as [rest ->].
  assert (is_Some (if isText d then Some [] else preorder fuel h (dchildren d))) as [sub ->].
  { destruct (isText d); [by eexists|]. apply IHf; [lia|].
    apply Forall_forall. intros c Hc.
    destruct (Hwf n d Hd) as [_ Hch]. destruct (Hch c Hc) as [Hlt Hpar].
    assert (c < length h); [|lia].
    destruct (h !! c) eqn:Hc'; [by eapply lookup_lt_Some|done]. }
  by eexists.
Qed.

(** Where a visited node comes from: it is one of the nodes the walk was
    started on, or a child of a node visited before it. *)
Lemma preorder_origin h fuel :
  ∀ nodes ws, preorder fuel h nodes = Some ws →
  ∀ i c dc, ws !! i = Some (c, dc) →
    h !! c = Some dc ∧
    (c ∈ nodes ∨
     ∃ j p dp, j < i ∧ ws !! j = Some (p, dp) ∧ c ∈ dchildren dp).
Proof.
  induction fuel as [|fuel IHf]; intros nodes; [done|].
  induction nodes as [|n l IHl]; intros ws Hws i c dc Hi.
  - rewrite preorder_nil in Hws. inversion Hws; subst. by rewrite lookup_nil in Hi.
  - rewrite preorder_cons in Hws.
    destruct (h !! n) as [d|] eqn:Hd; [|done]. cbn [mbind option_bind] in Hws.
    destruct (if isText d then Some [] else preorder fuel h (dchildren d))
      as [sub|] eqn:Hsub; [|done]. cbn [mbind option_bind] in Hws.
    destruct (preorder (S fuel) h l) as [rest|] eqn:Hrest; [|done].
    cbn [mbind option_bind] in Hws. inversion Hws; subst ws; clear Hws.
    destruct i as [|i]; cbn [lookup list_lookup] in Hi.
    { inversion Hi; subst. split; [done|]. left. apply list_elem_of_here. }
    change (((n, d) :: sub ++ rest) !! S i) with ((sub ++ rest) !! i) in Hi.
    apply lookup_app_Some in Hi as [Hi|[Hge Hi]].
    + destruct (isText d); [inversion Hsub; subst; by rewrite lookup_nil in Hi|].
      destruct (IHf _ _ Hsub _ _ _ Hi) as [Hc [Hin|(j & p & dp & Hj & Hjp & Hin)]].
      * split; [done|]. right. exists 0, n, d. split; [lia|]. split; [done|done].
      * split; [done|]. right. exists (S j), p, dp. split; [lia|]. split; [|done].
        change (((n, d) :: sub ++ rest) !! S j) with ((sub ++ rest) !! j).
        by apply lookup_app_l_Some.
    + destruct (IHl _ eq_refl _ _ _ Hi) as [Hc [Hin|(j & p & dp & Hj & Hjp & Hin)]].
      * split; [done|]. left. by apply list_elem_of_further.
      * split; [done|]. right. exists (S (length sub + j)), p, dp.
        split; [lia|]. split; [|done].
        change (((n, d) :: sub ++ rest) !! S (length sub + j))
          with ((sub ++ rest) !! (length sub + j)).
        rewrite lookup_app_r by lia. by replace (length sub + j - length sub) with j by lia.
Qed.

(** In a well-formed store, a visited node that has a declared parent is
    visited after that parent; so a walk started on parentless nodes only
    visits a parent before each of its children. *)
Lemma preorder_parent_first h fuel nodes ws :
  wf_store h →
  preorder fuel h nodes = Some ws →
  (∀ r dr, r ∈ nodes → h !! r = Some dr → dparent dr = None) →
  ∀ i c dc p, ws !! i = Some (c, dc) → dparent dc = Some p →
    ∃ j dp, j < i ∧ ws !! j = Some (p, dp) ∧ h !! p = Some dp.
Proof.
  intros Hwf Hws Hroots i c dc p Hi Hpar.
  destruct (preorder_origin _ _ _ _ Hws _ _ _ Hi) as [Hc [Hin|(j & q & dq & Hj & Hjq & Hin)]].
  - rewrite (Hroots _ _ Hin Hc) in Hpar. done.
  - destruct (preorder_origin _ _ _ _ Hws _ _ _ Hjq) as [Hq _].
    destruct (Hwf q dq Hq) as [_ Hch]. destruct (Hch c Hin) as [_ Hcp].
    rewrite Hc in Hcp. simpl in Hcp. rewrite Hpar in Hcp. inversion Hcp; subst.
    by exists j, dq.
Qed.

(** ** Root segregation *)

Lemma prepareNodes_ind (P : Prepared → Prop) h nodes :
  P {| rootNodes := []; templates := []; scripts := []; styles := [] |} →
  (∀ acc n, n ∈ nodes → P acc → P (prepareStep h acc n)) →
  P (prepareNodes h nodes).
Proof.
  unfold prepareNodes. generalize {| rootNodes := []; templates := []; scripts := []; styles := [] |}.
  induction nodes as [|n l IH]; intros acc Hacc Hstep; [done|].
  simpl. apply IH.
  - apply Hstep; [apply list_elem_of_here|done].
  - intros acc' n' Hn'. apply Hstep. by apply list_elem_of_further.
Qed.

Lemma prepareStep_cases h acc n :
  prepareStep h acc n = acc ∨
  (∃ d, h !! n = Some d ∧ dparent d = None ∧
     ((segregated d = false ∧
       prepareStep h acc n =
         {| rootNodes := rootNodes acc ++ [n]; templates := templates acc;
            scripts := scripts acc; styles := styles acc |}) ∨
      (segregated d = true ∧ rootNodes (prepareStep h acc n) = rootNodes acc ∧
       (scripts (prepareStep h acc n) = scripts acc ∨
        scripts (prepareStep h acc n) = scripts acc ++ [n])))).
Proof.
  unfold prepareStep. destruct (h !! n) as [d|]; [|by left].
  destruct (dparent d) as [q|] eqn:Hpar.
  { left. rewrite bool_decide_eq_true_2; [done|by eexists]. }
  rewrite bool_decide_eq_false_2 by (by intros [? ?]).
  right. exists d. split; [done|]. split; [done|].
  destruct d as [|n0 p0 [] tg r ev va at_ ch]; simpl; [by left..|].
  destruct (String.eqb tg "template"); [right; auto|].
  destruct (String.eqb tg "script"); [right; auto|].
  destruct (String.eqb tg "style"); [right; auto|]. by left.
Qed.

(** The structural walk starts on root-level nodes without a declared
    parent that are not segregated. *)
Lemma rootNodes_spec h nodes n :
  n ∈ rootNodes (prepareNodes h nodes) →
  n ∈ nodes ∧ ∃ d, h !! n = Some d ∧ dparent d = None ∧ segregated d = false.
Proof.
  revert n. apply (prepareNodes_ind (λ acc, ∀ n, n ∈ rootNodes acc → _)).
  - intros n Hn. by apply elem_of_nil in Hn.
  - intros acc k Hk IH n.
    destruct (prepareStep_cases h acc k) as [->|(d & Hd & Hp & [[Hs -> ]|(Hs & -> & _)])];
      [apply IH| |apply IH].
    simpl. intros [?|Heq%list_elem_of_singleton]%elem_of_app; [by apply IH|subst n].
    split; [done|]. by exists d.
Qed.

Lemma scripts_spec h nodes n :
  n ∈ scripts (prepareNodes h nodes) →
  n ∈ nodes ∧ ∃ d, h !! n = Some d ∧ dparent d = None.
Proof.
  revert n. apply (prepareNodes_ind (λ acc, ∀ n, n ∈ scripts acc → _)).
  - intros n Hn. by apply elem_of_nil in Hn.
  - intros acc k Hk IH n.
    destruct (prepareStep_cases h acc k) as [->|(d & Hd & Hp & [[Hs -> ]|(Hs & _ & [-> | -> ])])];
      [apply IH|apply IH|apply IH|].
    intros [?|Heq%list_elem_of_singleton]%elem_of_app; [by apply IH|subst n].
    split; [done|]. by exists d.
Qed.

(** ** The shape of the output *)

Section Shape.
Variable trimAny : string → list string → string.
Variable decode : string → string.

Lemma fold_push_events d evs events :
  fold_left (λ events event, events ++ [{| bind_node := d; bind_event := event |}])
    evs events
  = events ++ map (λ e, {| bind_node := d; bind_event := e |}) evs.
Proof.
  revert events. induction evs as [|e evs IH]; intros events; simpl.
  - by rewrite app_nil_r.
  - by rewrite IH, <- app_assoc.
Qed.

Lemma fold_emitNode h ws code events :
  fold_left (λ s (x : loc * DeclaredNode), emitNode h x.1 x.2 s) ws (code, events) =
    (code +:+ concatS (map (nodeChunk h) ws), events ++ flat_map bindings ws).
Proof.
  revert code events. induction ws as [|[n d] ws IH]; intros code events.
  - simpl. by rewrite app_nil_r_s, app_nil_r.
  - cbn [fold_left flat_map map fst snd]. unfold emitNode at 2. rewrite IH. f_equal.
    + change (concatS (nodeChunk h (n, d) :: map (nodeChunk h) ws))
        with (nodeChunk h (n, d) +:+ concatS (map (nodeChunk h) ws)).
      unfold nodeChunk at 2. cbn [snd]. by rewrite !app_assoc_s.
    + rewrite app_assoc. f_equal. unfold bindings. cbn [snd].
      destruct (isText d) eqn:Ht; [|apply fold_push_events].
      destruct d; [by rewrite app_nil_r|done].
Qed.

Lemma fold_emitScript ws code :
  fold_left (λ s (x : loc * DeclaredNode), emitScript x.1 x.2 s) ws code =
    code +:+ concatS (map scriptChunk ws).
Proof.
  revert code. induction ws as [|[n d] ws IH]; intros code.
  - simpl. by rewrite app_nil_r_s.
  - cbn [fold_left map fst snd]. rewrite IH.
    change (concatS (scriptChunk (n, d) :: map scriptChunk ws))
      with (scriptChunk (n, d) +:+ concatS (map scriptChunk ws)).
    unfold emitScript, scriptChunk. cbn [snd].
    destruct d; [by rewrite !app_assoc_s|done].
Qed.

Lemma visited_total nodes : is_Some (visited trimAny decode nodes).
Proof.
  unfold visited. destruct (declareAll_wf trimAny decode nodes) as [[Hwf _] Hall].
  destruct (declareAll trimAny decode nodes) as [declared h]. cbn [fst snd] in *.
  apply preorder_total; [done|lia|].
  apply Forall_forall. intros n [Hn _]%rootNodes_spec.
  rewrite Forall_forall in Hall. specialize (Hall n Hn). lia.
Qed.

Lemma visitedScripts_total nodes : is_Some (visitedScripts trimAny decode nodes).
Proof.
  unfold visitedScripts. destruct (declareAll_wf trimAny decode nodes) as [[Hwf _] Hall].
  destruct (declareAll trimAny decode nodes) as [declared h]. cbn [fst snd] in *.
  apply preorder_total; [done|lia|].
  apply Forall_forall. intros n [Hn _]%scripts_spec.
  rewrite Forall_forall in Hall. specialize (Hall n Hn). lia.
Qed.

(** [compile] always returns, and its result is the header, one chunk per
    visited node, the script text, one statement per collected event
    binding, and the footer. *)
Lemma compile_shape nodes :
  ∃ ws sc,
    visited trimAny decode nodes = Some ws ∧
    visitedScripts trimAny decode nodes = Some sc ∧
    compile trimAny decode nodes =
      Some (header
              +:+ concatS (map (nodeChunk (declareAll trimAny decode nodes).2) ws)
              +:+ concatS (map scriptChunk sc)
              +:+ concatS (map eventStatement (flat_map bindings ws))
              +:+ footer).
Proof.
  destruct (visited_total nodes) as [ws Hws], (visitedScripts_total nodes) as [sc Hsc].
  exists ws, sc. split; [done|]. split; [done|].
  unfold compile, visited, visitedScripts in *.
  destruct (declareAll trimAny decode nodes) as [declared h]. cbn [snd].
  rewrite !walkDeclared_preorder, Hws. cbn [fmap option_fmap option_map mbind option_bind].
  rewrite fold_emitNode. cbn [mbind option_bind].
  rewrite walkDeclared_preorder, Hsc. cbn [fmap option_fmap option_map mbind option_bind].
  rewrite fold_emitScript, fold_left_emit. cbn [app].
  by rewrite !app_assoc_s.
Qed.

End Shape.

(** ** Chunks as lines *)

Lemma compileHtml_eq h d :
  compileHtml h d =
    creationStatement d
      +:+ concatS (map (attributeStatement (nameof d)) (dattributes d))
      +:+ appendPart h d +:+ nl.
Proof.
  unfold compileHtml, appendPart, appendStatement.
  destruct d as [n p c|n p ty tg rf ev va at_ ch]; cbn [dparent dattributes creationStatement].
  - change (concatS (map _ [])) with "".
    destruct p as [q|]; [destruct (h !! q)|]; by rewrite ?app_assoc_s.
  - rewrite fold_left_emit.
    destruct ty, p as [q|]; try destruct (h !! q); by rewrite ?app_assoc_s, ?app_nil_r_s.
Qed.

Lemma noNewline_app a b : noNewline (a +:+ b) = noNewline a && noNewline b.
Proof.
  induction a as [|c a IH]; [done|].
  change (String c a +:+ b) with (String c (a +:+ b)). simpl.
  by rewrite IH, andb_assoc.
Qed.

Lemma noNewline_escape s : noNewline (JS.escape s) = true.
Proof.
  induction s as [|c s IH]; [done|]. cbn [JS.escape]. rewrite noNewline_app, IH, andb_true_r.
  unfold JS.escapeChar.
  destruct c as [[] [] [] [] [] [] [] []]; vm_compute; reflexivity.
Qed.

Lemma noNewline_stringify s : noNewline (JS.stringify s) = true.
Proof. unfold JS.stringify. by rewrite !noNewline_app, noNewline_escape. Qed.

Lemma startsClean_app a b : startsClean a = true → startsClean (a +:+ b) = true.
Proof. by destruct a. Qed.

Lemma endsClean_app a b : endsClean b = true → endsClean (a +:+ b) = true.
Proof.
  intros Hb. induction a as [|c a IH]; [done|].
  change (String c a +:+ b) with (String c (a +:+ b)). simpl.
  destruct (a +:+ b) eqn:E; [|done].
  destruct a; [|done]. simpl in E. by subst.
Qed.

Lemma trimStart_clean s : startsClean s = true → JS.trimStart s = s.
Proof. destruct s as [|c s]; [done|]. simpl. by destruct (JS.isWhiteSpace c). Qed.

Lemma trimEnd_clean s : endsClean s = true → JS.trimEnd s = s.
Proof.
  induction s as [|c s IH]; [done|]. simpl.
  destruct s as [|c' s]; [by destruct (JS.isWhiteSpace c)|].
  intros Hs. rewrite (IH Hs). done.
Qed.

Lemma trimEnd_app_blank a : JS.trimEnd (a +:+ nl +:+ nl) = JS.trimEnd a.
Proof.
  induction a as [|c a IH]; [done|].
  change (String c a +:+ nl +:+ nl) with (String c (a +:+ nl +:+ nl)).
  cbn [JS.trimEnd]. by rewrite IH.
Qed.

Lemma trim_clean s : startsClean s = true → endsClean s = true → JS.trim s = s.
Proof. intros Hs He. unfold JS.trim. rewrite trimStart_clean by done. by apply trimEnd_clean. Qed.

Lemma textOfLines_join l : l ≠ [] → textOfLines l = joinLines l +:+ nl.
Proof.
  induction l as [|x [|y l] IH]; [done|..]; intros _.
  - unfold textOfLines. simpl. by rewrite app_nil_r_s.
  - change (textOfLines (x :: y :: l)) with ((x +:+ nl) +:+ textOfLines (y :: l)).
    rewrite IH by done.
    change (joinLines (x :: y :: l)) with (x +:+ nl +:+ joinLines (y :: l)).
    by rewrite !app_assoc_s.
Qed.

Lemma split_line x rest :
  noNewline x = true →
  JS.split (λ c, Ascii.eqb c "010"%char) (x +:+ nl +:+ rest)
    = x :: JS.split (λ c, Ascii.eqb c "010"%char) rest.
Proof.
  induction x as [|c x IH]; [done|]. simpl. intros [Hc Hx]%andb_true_iff.
  change (String c x +:+ nl +:+ rest) with (String c (x +:+ nl +:+ rest)).
  cbn [JS.split]. unfold isNewline in Hc. apply negb_true_iff in Hc. rewrite Hc.
  by rewrite (IH Hx).
Qed.

Lemma split_last_line x :
  noNewline x = true → JS.split (λ c, Ascii.eqb c "010"%char) x = [x].
Proof.
  induction x as [|c x IH]; [done|]. simpl. intros [Hc Hx]%andb_true_iff.
  unfold isNewline in Hc. apply negb_true_iff in Hc. by rewrite Hc, (IH Hx).
Qed.

Lemma split_joinLines l :
  l ≠ [] → Forall (λ x, noNewline x = true) l →
  JS.split (λ c, Ascii.eqb c "010"%char) (joinLines l) = l.
Proof.
  induction l as [|x [|y l] IH]; [done|..]; intros _ Hall.
  - apply Forall_cons in Hall as [Hx _]. by apply split_last_line.
  - apply Forall_cons in Hall as [Hx Hall].
    change (joinLines (x :: y :: l)) with (x +:+ nl +:+ joinLines (y :: l)).
    rewrite split_line by done. by rewrite IH.
Qed.

Lemma isLine_parts x :
  isLine x = true → noNewline x = true ∧ startsClean x = true ∧ endsClean x = true.
Proof. unfold isLine. by intros [[? ?]%andb_true_iff ?]%andb_true_iff. Qed.

Lemma startsClean_joinLines l x :
  startsClean x = true → startsClean (joinLines (x :: l)) = true.
Proof.
  destruct l as [|y l]; [done|]. intros Hx.
  change (joinLines (x :: y :: l)) with (x +:+ nl +:+ joinLines (y :: l)).
  by apply startsClean_app.
Qed.

Lemma endsClean_joinLines l :
  l ≠ [] → Forall (λ x, endsClean x = true) l → endsClean (joinLines l) = true.
Proof.
  induction l as [|x [|y l] IH]; [done|..]; intros _ Hall.
  - by apply Forall_cons in Hall as [Hx _].
  - apply Forall_cons in Hall as [_ Hall].
    change (joinLines (x :: y :: l)) with (x +:+ nl +:+ joinLines (y :: l)).
    rewrite <- app_assoc_s. apply endsClean_app. by apply IH.
Qed.

Lemma indent_fold l : ∀ code,
  Forall (λ x, isLine x = true) l →
  fold_left
    (λ code part,
       let part := JS.trim part in
       (if JS.truthy part then code +:+ "  " +:+ part else code) +:+ nl) l code
  = code +:+ textOfLines (map (λ x, "  " +:+ x) l).
Proof.
  induction l as [|x l IH]; intros code Hall.
  - simpl. by rewrite app_nil_r_s.
  - apply Forall_cons in Hall as [Hx Hall]. cbn [fold_left map]. rewrite IH by done.
    apply isLine_parts in Hx as (_ & Hs & He). cbv zeta. rewrite (trim_clean x Hs He).
    destruct x as [|c x]; [done|]. cbn [JS.truthy].
    change (textOfLines (("  " +:+ String c x) :: map (λ x, "  " +:+ x) l))
      with ((("  " +:+ String c x) +:+ nl) +:+ textOfLines (map (λ x, "  " +:+ x) l)).
    by rewrite !app_assoc_s.
Qed.

(** [indent] of a text made of clean lines followed by a blank line puts
    two spaces before each line and keeps their order. *)
Lemma indent_lines l :
  l ≠ [] → Forall (λ x, isLine x = true) l →
  indent (JS.trim (textOfLines l +:+ nl)) = textOfLines (map (λ x, "  " +:+ x) l).
Proof.
  intros Hne Hall.
  assert (JS.trim (textOfLines l +:+ nl) = joinLines l) as ->.
  { rewrite textOfLines_join, app_assoc_s by done. unfold JS.trim.
    destruct l as [|x l]; [done|].
    apply Forall_cons in Hall as Hall'. destruct Hall' as [Hx _].
    apply isLine_parts in Hx as (_ & Hs & _).
    rewrite trimStart_clean
      by (apply startsClean_app; by apply startsClean_joinLines).
    rewrite trimEnd_app_blank. apply trimEnd_clean, endsClean_joinLines; [done|].
    eapply Forall_impl; [exact Hall|]. intros y Hy. by destruct (isLine_parts y Hy) as (? & ? & ?). }
  unfold indent. rewrite split_joinLines; [|done|].
  2: { eapply Forall_impl; [exact Hall|]. intros y Hy. by destruct (isLine_parts y Hy) as (? & ? & ?). }
  by rewrite indent_fold.
Qed.

Lemma textOfLines_cons x l : textOfLines (x :: l) = x +:+ nl +:+ textOfLines l.
Proof. unfold textOfLines. cbn [map concatS foldr]. by rewrite app_assoc_s. Qed.

Lemma textOfLines_app l1 l2 : textOfLines (l1 ++ l2) = textOfLines l1 +:+ textOfLines l2.
Proof. unfold textOfLines. by rewrite map_app, concatS_app. Qed.

(** [compileHtml] writes the statements of a node one per line, then a
    blank line. *)
Lemma compileHtml_lines h d : compileHtml h d = textOfLines (statements h d) +:+ nl.
Proof.
  rewrite compileHtml_eq. unfold statements.
  rewrite textOfLines_cons, textOfLines_app, !app_assoc_s.
  assert (creationStatement d = creationLine d +:+ nl) as ->.
  { destruct d as [|? ? []]; cbn [creationStatement creationLine];
      by rewrite ?app_assoc_s. }
  rewrite app_assoc_s. do 2 f_equal.
  assert (concatS (map (attributeStatement (nameof d)) (dattributes d))
          = textOfLines (map (attributeLine (nameof d)) (dattributes d))) as ->.
  { unfold textOfLines. rewrite map_map. f_equal. apply map_ext. intros a.
    unfold attributeStatement, attributeLine.
    destruct (isDimension _); [by rewrite ?app_assoc_s|].
    destruct (String.eqb _ "class"); [by rewrite ?app_assoc_s|].
    destruct (String.eqb _ "style"); by rewrite ?app_assoc_s. }
  do 2 f_equal. unfold appendPart, appendLines, appendStatement.
  destruct (dparent d) as [p|]; [|done]. destruct (h !! p); [|done].
  rewrite textOfLines_cons. unfold textOfLines. simpl.
  by rewrite ?app_assoc_s, ?app_nil_r_s.
Qed.

Lemma isLine_intro x :
  noNewline x = true → startsClean x = true → endsClean x = true → isLine x = true.
Proof. unfold isLine. by intros -> -> ->. Qed.

Lemma statements_are_lines h d :
  lineSafe h d = true → Forall (λ x, isLine x = true) (statements h d).
Proof.
  unfold lineSafe.
  intros [[[Hn Hs]%andb_true_iff Ht]%andb_true_iff Hp]%andb_true_iff.
  unfold statements. constructor; [|apply Forall_app; split].
  - destruct d as [|? ? []]; cbn [creationLine tagText] in *; apply isLine_intro;
      try done;
      try (rewrite <- ?app_assoc_s; by apply endsClean_app);
      unfold svgNamespace; by rewrite !noNewline_app, ?noNewline_stringify, ?Hn, ?Ht.
  - apply Forall_forall. intros x (a & -> & _)%list_elem_of_fmap.
    unfold attributeLine.
    destruct (isDimension (attr_name a)) eqn:Hd; [|destruct (String.eqb _ "class");
      [|destruct (String.eqb _ "style")]]; apply isLine_intro;
      try (by apply startsClean_app);
      try (rewrite <- ?app_assoc_s; by apply endsClean_app);
      rewrite ?noNewline_app, ?noNewline_stringify, ?Hn; try done.
    unfold isDimension in Hd.
    destruct (String.eqb_spec (attr_name a) "width") as [->|_]; [done|].
    by destruct (String.eqb_spec (attr_name a) "height") as [->|_].
  - unfold appendLines. destruct (dparent d) as [p|]; [|constructor].
    destruct (h !! p) as [pd|]; [|constructor].
    apply andb_true_iff in Hp as [Hpn Hps].
    constructor; [|constructor]. apply isLine_intro.
    + by rewrite !noNewline_app, Hpn, Hn.
    + by apply startsClean_app.
    + rewrite <- ?app_assoc_s. by apply endsClean_app.
Qed.

(** The chunk of a node whose names and tag hold no line break is made
    of its statements, one per line and in their order, each indented by
    two spaces, then a blank line. *)
Lemma nodeChunk_lines h c d :
  lineSafe h d = true →
  nodeChunk h (c, d) = textOfLines (map (λ x, "  " +:+ x) (statements h d)) +:+ nl.
Proof.
  intros Hsafe. unfold nodeChunk. cbn [snd]. rewrite compileHtml_lines.
  rewrite indent_lines; [done|done|by apply statements_are_lines].
Qed.

(** ** Classification of attributes *)

Lemma on_prefix rest : "on:" +:+ rest = String "o" (String "n" (String ":" rest)).
Proof. done. Qed.

(** C5.  An attribute whose name starts with [on:] and whose value does
    not start with an opening brace is not classified as an event and is
    not dropped: it becomes a plain attribute directive carrying the name
    and the value unchanged. *)
Theorem on_without_expression_is_plain trimAny rest v :
  JS.startsWith v "{" = false →
  compileAttribute trimAny {| name := "on:" +:+ rest; value := v |}
    = Some (Attribute {| attr_name := "on:" +:+ rest; attr_value := v |}).
Proof.
  intros Hv. unfold compileAttribute. cbn [name value].
  rewrite Hv, on_prefix. done.
Qed.

Lemma on_without_expression_is_plain_witness :
  compileAttribute trimAnyModel {| name := "on:click"; value := "doIt()" |}
    = Some (Attribute {| attr_name := "on:click"; attr_value := "doIt()" |}).
Proof. apply (on_without_expression_is_plain trimAnyModel "click" "doIt()"). reflexivity. Defined.

(** Only the name [#ref] yields a ref directive. *)
Lemma compileAttribute_ref trimAny a r :
  compileAttribute trimAny a = Some (Ref r) → name a = "#ref".
Proof.
  unfold compileAttribute.
  destruct (JS.startsWith (name a) "="); [done|].
  destruct (String.eqb (name a) "#ref") eqn:Hn; [intros _; by apply String.eqb_eq|].
  destruct (JS.startsWith (name a) "{"); [done|].
  destruct (JS.startsWith (value a) "{"); [|done].
  destruct (JS.indexOf (name a) ":") as [[|?]|]; try done.
  destruct (JS.split _ (name a)) as [|on [|part ?]]; try done.
  by destruct (String.eqb on "on").
Qed.

Lemma or_else_truthy a : JS.truthy (JS.or_else a "el") = true.
Proof. unfold JS.or_else. by destruct a. Qed.

(** C6.  The attribute [#ref] is classified as a ref directive named by
    its trimmed value, or [el] when that is empty; an element whose first
    [#ref] attribute has this value gets that name as its variable name.
    For an absent, empty or blank value the name is [el]. *)
Theorem ref_handle_name trimAny decode r p t pre v post ch :
  Forall (λ a, name a ≠ "#ref") pre →
  compileAttribute trimAny {| name := "#ref"; value := v |}
    = Some (Ref {| ref_name := JS.or_else (JS.trim v) "el" |}) ∧
  nameof (compileNode trimAny decode
            (TagNode r p t (pre ++ {| name := "#ref"; value := v |} :: post) ch))
    = JS.or_else (JS.trim v) "el" ∧
  (JS.trim v = "" → JS.or_else (JS.trim v) "el" = "el").
Proof.
  intros Hpre. split; [done|]. split; [|by intros ->].
  unfold compileNode, nameof. cbn [dnode refId].
  assert (findRefTag (omap (compileAttribute trimAny)
            (pre ++ {| name := "#ref"; value := v |} :: post))
          = Some (JS.or_else (JS.trim v) "el")) as ->.
  { unfold findRefTag. rewrite omap_app.
    assert (omap refName (omap (compileAttribute trimAny) pre) = []) as Hnil.
    { induction Hpre as [|a pre Ha _ IH]; [done|]. simpl.
      destruct (compileAttribute trimAny a) as [[| | |]|] eqn:Hc; simpl; try done.
      by apply compileAttribute_ref in Hc. }
    rewrite omap_app, Hnil. simpl. by rewrite or_else_truthy. }
  by rewrite or_else_truthy.
Qed.

Lemma ref_handle_name_witness :
  nameof (compileNode trimAnyModel decodePlain
            (TagNode 1 None "div" [{| name := "#ref"; value := "" |}] [])) = "el" ∧
  nameof (compileNode trimAnyModel decodePlain
            (TagNode 1 None "div" [{| name := "class"; value := "c" |};
                                   {| name := "#ref"; value := " " |}] [])) = "el" ∧
  nameof (compileNode trimAnyModel decodePlain
            (TagNode 1 None "div" [{| name := "#ref"; value := " box " |}] [])) = "box".
Proof.
  split; [|split].
  - exact (proj1 (proj2 (ref_handle_name trimAnyModel decodePlain 1 None "div"
             [] "" [] [] (Forall_nil_2 _)))).
  - refine (proj1 (proj2 (ref_handle_name trimAnyModel decodePlain 1 None "div"
             [{| name := "class"; value := "c" |}] " " [] [] _))).
    constructor; [discriminate|constructor].
  - exact (proj1 (proj2 (ref_handle_name trimAnyModel decodePlain 1 None "div"
             [] " box " [] [] (Forall_nil_2 _)))).
Defined.

(** ** SVG context and element creation *)

Lemma Node_parent_ind (P : Node → Prop) :
  (∀ n, (∀ p, parent n = Some p → P p) → P n) → ∀ n, P n.
Proof.
  intros H. fix IH 1. intros n. apply H.
  destruct n as [r [q|] s|r [q|] t a ch]; cbn [parent]; intros p Hp;
    try discriminate; pose proof (IH q) as Hq; by inversion Hp; subst.
Qed.

Lemma isSvgNode_spec node : isSvgNode node = true ↔ tagOf node = Some "svg".
Proof.
  destruct node as [r p s|r p t a ch]; simpl; [done|].
  rewrite String.eqb_eq. split; [by intros ->|by intros [= ->]].
Qed.

Lemma hasSvgParent_spec node :
  hasSvgParent node = true ↔ ∃ anc, anc ∈ ancestors node ∧ tagOf anc = Some "svg".
Proof.
  induction node as [node IH] using Node_parent_ind.
  assert (∀ p, parent node = Some p →
            (isSvgNode p || hasSvgParent p = true ↔
             ∃ anc, anc ∈ p :: ancestors p ∧ tagOf anc = Some "svg")) as Hstep.
  { intros p Hp. rewrite orb_true_iff, isSvgNode_spec, (IH p Hp). split.
    - intros [?|(anc & ? & ?)]; [exists p|exists anc]; (split; [|done]).
      + apply list_elem_of_here.
      + by apply list_elem_of_further.
    - intros (anc & [->|?]%elem_of_cons & ?); [by left|right; by exists anc]. }
  destruct node as [r [q|] s|r [q|] t a ch]; simpl;
    try (apply (Hstep q eq_refl));
    (split; [done|intros (anc & Hin & _); by apply elem_of_nil in Hin]).
Qed.

(** C2, as the code has it.  A tag node is declared with type [svg]
    exactly when its tag is [svg] or one of its ancestors is a tag node
    with tag [svg], and with type [element] otherwise; a text node is
    declared with type [text] whatever its ancestors are.  The creation
    statement is [createElementNS] with the SVG namespace exactly for
    type [svg] and plain [createElement] for type [element]. *)
Theorem svg_type_and_creation trimAny decode :
  (∀ r p t a ch,
     let node := TagNode r p t a ch in
     (typeOf (compileNode trimAny decode node) = "svg" ↔
        t = "svg" ∨ ∃ anc, anc ∈ ancestors node ∧ tagOf anc = Some "svg") ∧
     (typeOf (compileNode trimAny decode node) = "element" ↔
        ¬ (t = "svg" ∨ ∃ anc, anc ∈ ancestors node ∧ tagOf anc = Some "svg"))) ∧
  (∀ r p s, typeOf (compileNode trimAny decode (TextNode r p s)) = "text") ∧
  (∀ h n p ty tg rf ev va at_ ch,
     let d := ElementNode n p ty tg rf ev va at_ ch in
     ∃ rest,
       compileHtml h d =
         (if String.eqb (typeOf d) "svg"
          then "const " +:+ nameof d +:+ " = document.createElementNS(" +:+ dq
                 +:+ "http://www.w3.org/2000/svg" +:+ dq +:+ ", " +:+ dq +:+ tg +:+ dq
                 +:+ ");" +:+ nl
          else "const " +:+ nameof d +:+ " = document.createElement(" +:+ dq +:+ tg
                 +:+ dq +:+ ");" +:+ nl) +:+ rest).
Proof.
  split; [|split].
  - intros r p t a ch node.
    assert (shouldRenderAsSvg node = true ↔
            t = "svg" ∨ ∃ anc, anc ∈ ancestors node ∧ tagOf anc = Some "svg") as Hsvg.
    { unfold shouldRenderAsSvg. rewrite orb_true_iff, hasSvgParent_spec, isSvgNode_spec.
      subst node. simpl. split; (intros [H|H]; [left|by right]); [by inversion H|by subst]. }
    unfold compileNode. subst node. cbv zeta.
    destruct (shouldRenderAsSvg (TagNode r p t a ch)); simpl; split.
    + split; [intros _; by apply Hsvg|done].
    + split; [done|]. intros Hn. exfalso. apply Hn. by apply Hsvg.
    + split; [done|]. intros H. by apply Hsvg in H.
    + split; [|done]. intros _ H. by apply Hsvg in H.
  - done.
  - intros h n p ty tg rf ev va at_ ch d. rewrite compileHtml_eq.
    eexists. destruct ty; subst d; cbn [typeOf String.eqb Ascii.eqb Bool.eqb creationStatement];
      cbv iota; unfold svgNamespace; rewrite ?app_assoc_s; reflexivity.
Qed.

(** The text node of [<svg>hi</svg>] has an ancestor with tag [svg], yet
    its declared type is [text], not [svg]. *)
Lemma svg_type_text_node_counterexample :
  typeOf (compileNode trimAnyModel decodePlain textInSvg) = "text" ∧
  (∃ anc, anc ∈ ancestors textInSvg ∧ tagOf anc = Some "svg") ∧
  "text" ≠ "svg".
Proof.
  split; [done|]. split; [|done].
  exists svgOpen. split; [apply list_elem_of_here|done].
Qed.

Example svg_document_uses_namespace :
  compile trimAnyModel decodePlain svgDoc =
    Some ("export function compile() {" +:+ nl
      +:+ "  const el1 = document.createElementNS(" +:+ dq +:+ "http://www.w3.org/2000/svg"
      +:+ dq +:+ ", " +:+ dq +:+ "svg" +:+ dq +:+ ");" +:+ nl +:+ nl
      +:+ "  const el2 = document.createElementNS(" +:+ dq +:+ "http://www.w3.org/2000/svg"
      +:+ dq +:+ ", " +:+ dq +:+ "rect" +:+ dq +:+ ");" +:+ nl
      +:+ "  el1.appendChild(el2);" +:+ nl +:+ nl
      +:+ "}" +:+ nl).
Proof. vm_compute. reflexivity. Qed.

Example rect_alone_is_plain :
  compile trimAnyModel decodePlain [rectAlone] =
    Some ("export function compile() {" +:+ nl
      +:+ "  const el1 = document.createElement(" +:+ dq +:+ "rect" +:+ dq +:+ ");" +:+ nl +:+ nl
      +:+ "}" +:+ nl).
Proof. vm_compute. reflexivity. Qed.

(** ** Plain attributes *)

Lemma app_inv_head_s (a b c : string) : a +:+ b = a +:+ c → b = c.
Proof. apply (inj (String.app a)). Qed.

(** C3.  The statements of an element are its creation statement, then
    directly one statement per plain attribute directive, in the order of
    the attribute list of the parsed node, then the assembly statement.
    [width] and [height] are assigned as properties, [class] is assigned
    to [className] and never passed to [setAttribute], [style] is
    assigned to [style.cssText], and every other plain attribute goes
    through [setAttribute]. *)
Theorem plain_attribute_statements trimAny decode h :
  (∀ r p t a ch,
     dattributes (compileNode trimAny decode (TagNode r p t a ch))
       = omap asGeneric (omap (compileAttribute trimAny) a)) ∧
  (∀ d,
     compileHtml h d =
       textOfLines
         (creationLine d :: map (attributeLine (nameof d)) (dattributes d)
            ++ appendLines h d) +:+ nl) ∧
  ∀ self n v,
    attributeLine self {| attr_name := n; attr_value := v |} =
      (if bool_decide (n = "width" ∨ n = "height")
       then self +:+ "." +:+ n +:+ " = " +:+ JS.stringify v +:+ ";"
       else if bool_decide (n = "class")
       then self +:+ ".className = " +:+ JS.stringify v +:+ ";"
       else if bool_decide (n = "style")
       then self +:+ ".style.cssText = " +:+ JS.stringify v +:+ ";"
       else self +:+ ".setAttribute(" +:+ JS.stringify n +:+ ", "
              +:+ JS.stringify v +:+ ");") ∧
    attributeLine self {| attr_name := "class"; attr_value := v |}
      ≠ self +:+ ".setAttribute(" +:+ JS.stringify "class" +:+ ", "
          +:+ JS.stringify v +:+ ");".
Proof.
  split; [done|]. split; [apply compileHtml_lines|].
  intros self n v. split.
  - unfold attributeLine, isDimension. cbn [attr_name attr_value].
    destruct (String.eqb_spec n "width") as [->|Hw]; [done|].
    destruct (String.eqb_spec n "height") as [->|Hh]; [done|].
    rewrite (bool_decide_eq_false_2 (n = "width" ∨ n = "height")) by (by intros [?|?]).
    cbn [orb].
    destruct (String.eqb_spec n "class") as [->|Hc]; [done|].
    rewrite (bool_decide_eq_false_2 (n = "class")) by done.
    destruct (String.eqb_spec n "style") as [->|Hs]; [done|].
    by rewrite (bool_decide_eq_false_2 (n = "style")) by done.
  - unfold attributeLine. cbn. intros Heq%app_inv_head_s. discriminate.
Qed.

(** The plain attributes of an element of the playground's sample. *)
Example compile_attributes :
  compile trimAnyModel decodePlain
    [TagNode 1 None "svg"
       [{| name := "width"; value := "467" |}; {| name := "class"; value := "c" |};
        {| name := "style"; value := "fill:red" |}; {| name := "rx"; value := "20" |}] []]
  = Some (textOfLines
      [ "export function compile() {";
        "  const el1 = document.createElementNS("
          +:+ quoted "http://www.w3.org/2000/svg" +:+ ", " +:+ quoted "svg" +:+ ");";
        "  el1.width = " +:+ quoted "467" +:+ ";";
        "  el1.className = " +:+ quoted "c" +:+ ";";
        "  el1.style.cssText = " +:+ quoted "fill:red" +:+ ";";
        "  el1.setAttribute(" +:+ quoted "rx" +:+ ", " +:+ quoted "20" +:+ ");";
        "";
        "}" ]).
Proof. vm_compute. reflexivity. Qed.

(** ** Attribute values *)

(** C9, evaluated.  [normalizeAttributes] replaces runs of newline-like
    characters only: two consecutive spaces and an interior tab come out
    unchanged, also through [parse], and a newline between spaces leaves
    three spaces.  The earlier [normalizeAttribute] collapses all three to
    one space. *)
Theorem attribute_value_keeps_spaces :
  normalizeValue "a  b" = "a  b" ∧
  normalizeValue ("a" +:+ tab +:+ "b") = "a" +:+ tab +:+ "b" ∧
  normalizeValue ("a " +:+ nl +:+ " b") = "a   b" ∧
  normalizeAttributes [("title", "a  b")] = [{| name := "title"; value := "a  b" |}] ∧
  parseTokens [OpenTag "div" [("title", "a  b")]; CloseTag] =
    Some [TagNode 1 None "div" [{| name := "title"; value := "a  b" |}] []] ∧
  Legacy.normalizeValue "a  b" = "a b" ∧
  Legacy.normalizeValue ("a" +:+ tab +:+ "b") = "a b" ∧
  Legacy.normalizeValue ("a " +:+ nl +:+ " b") = "a b".
Proof. repeat split; vm_compute; reflexivity. Qed.

(** ** Order of the output *)

Section Order.
Variable trimAny : string → list string → string.
Variable decode : string → string.

(** The walk of [compile] meets a node with a declared parent only after
    that parent. *)
Lemma visited_parent_first nodes ws i c dc p :
  visited trimAny decode nodes = Some ws →
  ws !! i = Some (c, dc) → dparent dc = Some p →
  ∃ j dp, j < i ∧ ws !! j = Some (p, dp) ∧
          (declareAll trimAny decode nodes).2 !! p = Some dp.
Proof.
  unfold visited. destruct (declareAll_wf trimAny decode nodes) as [[Hwf _] _].
  destruct (declareAll trimAny decode nodes) as [declared h]. cbn [snd] in *.
  intros Hws. eapply preorder_parent_first; [done|done|].
  intros r dr [_ (d & Hd & Hpar & _)]%rootNodes_spec Hr.
  rewrite Hd in Hr. by inversion Hr; subst.
Qed.

Lemma visited_lookup nodes ws i c dc :
  visited trimAny decode nodes = Some ws →
  ws !! i = Some (c, dc) →
  (declareAll trimAny decode nodes).2 !! c = Some dc.
Proof.
  unfold visited. destruct (declareAll trimAny decode nodes) as [declared h]. cbn [snd].
  intros Hws Hi. by destruct (preorder_origin _ _ _ _ Hws _ _ _ Hi).
Qed.

(** C1.  The output of [compile] is the header, then one chunk per node
    in the order of the structural walk, then script text and event
    statements.  The statements of a chunk are, in this order, the
    creation statement of its node, its attribute statements and, only
    when the node has a declared parent, one [appendChild] statement
    naming that parent; they come out one per line and in this order when
    the names and the tag hold no line break.  The chunk of that parent,
    whose first statement is the parent's creation statement, comes
    strictly earlier in the output. *)
Theorem parent_created_before_append nodes :
  ∃ ws sc,
    visited trimAny decode nodes = Some ws ∧
    compile trimAny decode nodes =
      Some (header
              +:+ concatS (map (nodeChunk (declareAll trimAny decode nodes).2) ws)
              +:+ concatS (map scriptChunk sc)
              +:+ concatS (map eventStatement (flat_map bindings ws))
              +:+ footer) ∧
    ∀ i c dc, ws !! i = Some (c, dc) →
      compileHtml (declareAll trimAny decode nodes).2 dc =
        textOfLines
          (creationLine dc :: map (attributeLine (nameof dc)) (dattributes dc)
             ++ appendLines (declareAll trimAny decode nodes).2 dc) +:+ nl ∧
      (lineSafe (declareAll trimAny decode nodes).2 dc = true →
       nodeChunk (declareAll trimAny decode nodes).2 (c, dc) =
         textOfLines
           (map (λ x, "  " +:+ x)
              (creationLine dc :: map (attributeLine (nameof dc)) (dattributes dc)
                 ++ appendLines (declareAll trimAny decode nodes).2 dc)) +:+ nl) ∧
      match dparent dc with
      | None => appendLines (declareAll trimAny decode nodes).2 dc = []
      | Some p =>
          ∃ j dp,
            j < i ∧ ws !! j = Some (p, dp) ∧
            appendLines (declareAll trimAny decode nodes).2 dc =
              [nameof dp +:+ ".appendChild(" +:+ nameof dc +:+ ");"]
      end.
Proof.
  destruct (compile_shape trimAny decode nodes) as (ws & sc & Hws & Hsc & Hc).
  exists ws, sc. split; [done|]. split; [exact Hc|].
  intros i c dc Hi. split; [apply compileHtml_lines|]. split; [apply nodeChunk_lines|].
  unfold appendLines. destruct (dparent dc) as [p|] eqn:Hpar; [|done].
  destruct (visited_parent_first _ _ _ _ _ _ Hws Hi Hpar) as (j & dp & Hj & Hjp & Hp).
  exists j, dp. split; [done|]. split; [done|]. by rewrite Hp.
Qed.

(** C4.  The event statements form one block at the end of the output,
    after the chunks of all visited nodes and after the script text; a
    chunk holds creation, attribute and assembly statements only.  The
    block lists the bindings node by node in the order of the structural
    walk, and for each node in the order of its event directives, which
    is the order of the event attributes in the parsed node. *)
Theorem events_follow_structure nodes :
  ∃ ws sc,
    visited trimAny decode nodes = Some ws ∧
    visitedScripts trimAny decode nodes = Some sc ∧
    compile trimAny decode nodes =
      Some (header
              +:+ concatS (map (nodeChunk (declareAll trimAny decode nodes).2) ws)
              +:+ concatS (map scriptChunk sc)
              +:+ concatS (map eventStatement (flat_map bindings ws))
              +:+ footer) ∧
    (∀ x, x ∈ ws →
       nodeChunk (declareAll trimAny decode nodes).2 x =
         indent (JS.trim
           (textOfLines
              (creationLine x.2 :: map (attributeLine (nameof x.2)) (dattributes x.2)
                 ++ appendLines (declareAll trimAny decode nodes).2 x.2) +:+ nl))
           +:+ nl ∧
       bindings x = map (λ e, {| bind_node := x.2; bind_event := e |}) (devents x.2) ∧
       devents x.2 =
         match dnode x.2 with
         | TagNode _ _ _ attributes _ =>
             omap asEvent (omap (compileAttribute trimAny) attributes)
         | TextNode _ _ _ => []
         end) ∧
    (∀ b, eventStatement b =
            "  " +:+ nameof (bind_node b) +:+ ".addEventListener("
              +:+ JS.stringify (eventName (bind_event b)) +:+ ", "
              +:+ variableName (bind_event b) +:+ ")" +:+ nl).
Proof.
  destruct (compile_shape trimAny decode nodes) as (ws & sc & Hws & Hsc & Hc).
  exists ws, sc. split; [done|]. split; [done|]. split; [done|]. split; [|done].
  intros [c dc] [i Hi]%list_elem_of_lookup.
  split; [unfold nodeChunk; by rewrite compileHtml_lines|]. split; [done|].
  pose proof (visited_lookup _ _ _ _ _ Hws Hi) as Hd.
  destruct (declareAll_wf trimAny decode nodes) as [[_ Hby] _].
  specialize (Hby c dc Hd). cbn [snd].
  destruct dc as [n p s|n p ty tg rf ev va at_ ch]; cbn [dnode devents eraseLinks] in *.
  - by destruct n.
  - destruct n as [|r q t a chn]; simpl in Hby; [done|]. by inversion Hby.
Qed.


End Order.


(** ** Documents without exportable roots *)

Lemma isSegregatedRoot_compileNode trimAny decode node :
  isSegregatedRoot node = true →
  parent node = None ∧
  ∃ n tg rf ev va at_,
    compileNode trimAny decode node = ElementNode n None element tg rf ev va at_ [] ∧
    String.eqb tg "template" || String.eqb tg "script" || String.eqb tg "style" = true.
Proof.
  destruct node as [r p s|r [q|] t a ch]; try done. simpl. intros Ht.
  split; [done|].
  assert (shouldRenderAsSvg (TagNode r None t a ch) = false) as ->.
  { unfold shouldRenderAsSvg. simpl. rewrite orb_false_r.
    destruct (String.eqb_spec t "svg") as [->|]; [done|done]. }
  by repeat eexists.
Qed.

Lemma prepareNodes_all_segregated trimAny decode h nodes locs :
  Forall2 (λ node l,
             ∃ d, h !! l = Some d ∧
                  eraseLinks d = compileNode trimAny decode node ∧
                  (parent node = None → dparent d = None)) nodes locs →
  Forall (λ n, isSegregatedRoot n = true) nodes →
  rootNodes (prepareNodes h locs) = [].
Proof.
  intros H2 Hall. unfold prepareNodes.
  assert (∀ acc, rootNodes acc = [] → rootNodes (fold_left (prepareStep h) locs acc) = [])
    as Hgen; [|by apply Hgen].
  induction H2 as [|node l nodes locs (d & Hd & He & Hp) _ IH]; intros acc Hacc; [done|].
  apply Forall_cons in Hall as [Hn Hall]. simpl. apply IH; [done|].
  destruct (isSegregatedRoot_compileNode trimAny decode node Hn)
    as (Hnone & n & tg & rf & ev & va & at_ & Hc & Htag).
  destruct (prepareStep_cases h acc l) as [->|(d' & Hd' & _ & [[Hs _]|(_ & -> & _)])];
    [done| |done].
  rewrite Hd in Hd'. inversion Hd'; subst d'.
  assert (segregated d = segregated (eraseLinks d)) as Hse by (by destruct d).
  rewrite Hse, He, Hc in Hs. cbn [segregated] in Hs. by rewrite Htag in Hs.
Qed.

Lemma legacy_nothing_left nodes :
  Forall (λ n, isSegregatedRoot n = true) nodes →
  filter (λ n, Legacy.isSpecialTag n = false) nodes = [].
Proof.
  induction 1 as [|n nodes Hn _ IH]; [done|].
  rewrite filter_cons_False; [done|].
  destruct n as [|r [q|] t a ch]; try done. simpl in *. by rewrite Hn.
Qed.

(** C7, as the code has it.  When every root-level node is a parentless
    template, script or style element, the current [compile] neither fails
    nor returns an empty string: it returns the function wrapper around
    the script text alone.  The earlier [compile] returns the empty string
    on the same input. *)
Theorem no_exportable_roots trimAny decode nodes :
  Forall (λ n, isSegregatedRoot n = true) nodes →
  (∃ sc, visitedScripts trimAny decode nodes = Some sc ∧
         compile trimAny decode nodes =
           Some (header +:+ concatS (map scriptChunk sc) +:+ footer)) ∧
  compile trimAny decode nodes ≠ Some "" ∧
  Legacy.compile trimAny decode nodes = Legacy.Return "".
Proof.
  intros Hall.
  assert (∃ sc, visitedScripts trimAny decode nodes = Some sc ∧
                compile trimAny decode nodes =
                  Some (header +:+ concatS (map scriptChunk sc) +:+ footer))
    as (sc & Hsc & Hc).
  { destruct (compile_shape trimAny decode nodes) as (ws & sc & Hws & Hsc & Hc).
    exists sc. split; [done|]. rewrite Hc.
    pose proof (declareAll_roots trimAny decode nodes) as Hroots.
    unfold visited in Hws. destruct (declareAll trimAny decode nodes) as [declared h].
    cbn [fst snd] in *.
    rewrite (prepareNodes_all_segregated _ _ _ _ _ Hroots Hall) in Hws.
    inversion Hws; subst. done. }
  split; [by exists sc|]. split; [by rewrite Hc|].
  unfold Legacy.compile.
  by rewrite (legacy_nothing_left nodes Hall).
Qed.

Lemma no_exportable_roots_witness :
  (∃ sc, visitedScripts trimAnyModel decodePlain styleDoc = Some sc ∧
         compile trimAnyModel decodePlain styleDoc =
           Some (header +:+ concatS (map scriptChunk sc) +:+ footer)) ∧
  compile trimAnyModel decodePlain styleDoc ≠ Some "" ∧
  Legacy.compile trimAnyModel decodePlain styleDoc = Legacy.Return "".
Proof.
  apply (no_exportable_roots trimAnyModel decodePlain styleDoc).
  repeat constructor.
Defined.

(** The document [<style>body{}</style>]: the current [compile] returns
    the wrapper, which is not the empty string. *)
Lemma style_only_counterexample :
  compile trimAnyModel decodePlain styleDoc =
    Some ("export function compile() {" +:+ nl +:+ "}" +:+ nl) ∧
  "export function compile() {" +:+ nl +:+ "}" +:+ nl ≠ "".
Proof. split; [vm_compute; reflexivity|done]. Qed.

(** ** Event modifiers *)

Lemma sameButModifiers_rel_ind (P : Node → Node → Prop) :
  (∀ r p1 p2 s,
     option_Forall2 sameButModifiers p1 p2 → option_Forall2 P p1 p2 →
     P (TextNode r p1 s) (TextNode r p2 s)) →
  (∀ r p1 p2 t a1 a2 c1 c2,
     option_Forall2 sameButModifiers p1 p2 → option_Forall2 P p1 p2 →
     Forall2 sameAttribute a1 a2 →
     Forall2 sameButModifiers c1 c2 → Forall2 P c1 c2 →
     P (TagNode r p1 t a1 c1) (TagNode r p2 t a2 c2)) →
  ∀ n1 n2, sameButModifiers n1 n2 → P n1 n2.
Proof.
  intros Htext Htag. fix IH 3. intros n1 n2 [r p1 p2 s Hp|r p1 p2 t a1 a2 c1 c2 Hp Ha Hc].
  - apply Htext; [done|]. destruct Hp as [q1 q2 Hq|]; constructor. by apply IH.
  - apply Htag; [done| |done|done|].
    + destruct Hp as [q1 q2 Hq|]; constructor. by apply IH.
    + induction Hc as [|x y l1 l2 Hxy Hl IHl]; constructor; [by apply IH|apply IHl].
Qed.

(** Splitting at a class of characters: a prefix without such characters
    stays in the first piece. *)
Lemma split_hd_app sep w rest :
  (∀ c, sep c = true → isEventWord (String c "") = false) →
  isEventWord w = true →
  hd "" (JS.split sep (w +:+ rest)) = w +:+ hd "" (JS.split sep rest).
Proof.
  intros Hsep. induction w as [|c w IH]; intros Hw; [done|].
  change (String c w +:+ rest) with (String c (w +:+ rest)).
  cbn [JS.split]. simpl in Hw.
  destruct (sep c) eqn:Hc.
  { apply Hsep in Hc. simpl in Hc. rewrite andb_true_r in Hc.
    rewrite Hc in Hw. done. }
  apply andb_true_iff in Hw as [_ Hw]. specialize (IH Hw).
  destruct (JS.split sep (w +:+ rest)) as [|x xs] eqn:Hs; simpl in *.
  - destruct (w +:+ rest); simpl in Hs; [done|]. by destruct (sep _), (JS.split sep _).
  - by rewrite IH.
Qed.

(** The first colon-separated piece after [on] is the event name followed
    by what the modifier part holds up to its first colon. *)
Lemma event_part ev m :
  isEventWord ev = true → isModifierPart m = true →
  ∃ m', hd "" (JS.split (λ c, Ascii.eqb c ":"%char) (ev +:+ m)) = ev +:+ m' ∧
        isModifierPart m' = true.
Proof.
  intros Hev Hm. exists (hd "" (JS.split (λ c, Ascii.eqb c ":"%char) m)). split.
  - apply split_hd_app; [|done]. intros c Hc. simpl. by rewrite Hc.
  - destruct m as [|c m]; [done|]. cbn [JS.split]. simpl in Hm.
    destruct (Ascii.eqb_spec c ":"%char) as [->|_]; [done|].
    by destruct (JS.split _ m).
Qed.

Lemma event_name_of_part ev m' :
  isEventWord ev = true → isModifierPart m' = true →
  hd "" (JS.split isEventSep (ev +:+ m')) = ev.
Proof.
  intros Hev Hm. rewrite split_hd_app; [| |done].
  - destruct m' as [|c m']; [by rewrite app_nil_r_s|]. simpl in Hm.
    cbn [JS.split]. rewrite Hm. simpl. by rewrite app_nil_r_s.
  - intros c Hc. simpl. rewrite Hc. by destruct (Ascii.eqb c ":").
Qed.

Lemma split_nonempty sep s : ∃ x xs, JS.split sep s = x :: xs.
Proof.
  destruct s as [|c s]; simpl; [by eexists _, _|].
  destruct (sep c); [by eexists _, _|]. destruct (JS.split sep s); by eexists _, _.
Qed.

Lemma split_on_prefix rest :
  JS.split (λ c, Ascii.eqb c ":"%char) (String "o" (String "n" (String ":" rest)))
    = "on" :: JS.split (λ c, Ascii.eqb c ":"%char) rest.
Proof. done. Qed.

(** An event attribute is classified as an event directive with the event
    name and the handler taken from it, whatever its modifier part. *)
Lemma compileAttribute_event trimAny ev m v :
  isEventWord ev = true → isModifierPart m = true → JS.startsWith v "{" = true →
  ∃ mods,
    compileAttribute trimAny {| name := "on:" +:+ ev +:+ m; value := v |} =
      Some (Event {| eventName := ev; modifiers := mods;
                     variableName := JS.trim (trimAny v ["{"; "}"]) |}).
Proof.
  intros Hev Hm Hv. unfold compileAttribute. cbn [name value].
  rewrite Hv, on_prefix, split_on_prefix.
  change (JS.startsWith (String "o" _) "=") with false.
  change (JS.startsWith (String "o" (String "n" (String ":" (ev +:+ m)))) "{") with false.
  change (String.eqb (String "o" (String "n" (String ":" (ev +:+ m)))) "#ref") with false.
  change (JS.indexOf (String "o" (String "n" (String ":" (ev +:+ m)))) ":")
    with (Some 2).
  cbv iota.
  destruct (event_part ev m Hev Hm) as (m' & Hpart & Hm').
  destruct (split_nonempty (λ c, Ascii.eqb c ":"%char) (ev +:+ m)) as (x & xs & Hs).
  rewrite Hs in *. cbn [hd] in Hpart. subst x.
  change (String.eqb "on" "on") with true. cbv iota.
  rewrite event_name_of_part by done. by eexists.
Qed.

Section Modifiers.
Variable trimAny : string → list string → string.
Variable decode : string → string.

Lemma sameAttribute_compile a1 a2 :
  sameAttribute a1 a2 →
  compileAttribute trimAny a1 = compileAttribute trimAny a2 ∨
  ∃ e1 e2, compileAttribute trimAny a1 = Some (Event e1) ∧
           compileAttribute trimAny a2 = Some (Event e2) ∧
           eventView e1 = eventView e2.
Proof.
  intros [a|ev m1 m2 v Hev Hm1 Hm2 Hv]; [by left|right].
  destruct (compileAttribute_event trimAny ev m1 v Hev Hm1 Hv) as [mods1 ->].
  destruct (compileAttribute_event trimAny ev m2 v Hev Hm2 Hv) as [mods2 ->].
  by eexists _, _.
Qed.

Lemma sameAttribute_directives a1 a2 :
  Forall2 sameAttribute a1 a2 →
  omap refName (omap (compileAttribute trimAny) a1)
    = omap refName (omap (compileAttribute trimAny) a2) ∧
  map eventView (omap asEvent (omap (compileAttribute trimAny) a1))
    = map eventView (omap asEvent (omap (compileAttribute trimAny) a2)) ∧
  omap asVariable (omap (compileAttribute trimAny) a1)
    = omap asVariable (omap (compileAttribute trimAny) a2) ∧
  omap asGeneric (omap (compileAttribute trimAny) a1)
    = omap asGeneric (omap (compileAttribute trimAny) a2).
Proof.
  induction 1 as [|x y l1 l2 Hxy _ (IH1 & IH2 & IH3 & IH4)]; [done|].
  cbn [omap list_omap].
  destruct (sameAttribute_compile x y Hxy) as [->|(e1 & e2 & -> & -> & He)].
  - destruct (compileAttribute trimAny y) as [[| | |]|]; cbn [omap list_omap refName asEvent asVariable asGeneric map];
      rewrite ?IH1, ?IH2, ?IH3, ?IH4; done.
  - cbn [omap list_omap refName asEvent asVariable asGeneric map].
    by rewrite IH1, IH2, IH3, IH4, He.
Qed.

Lemma sameButModifiers_svg n1 n2 :
  sameButModifiers n1 n2 →
  isSvgNode n1 = isSvgNode n2 ∧ hasSvgParent n1 = hasSvgParent n2.
Proof.
  induction 1 as [r p1 p2 s _ Hp|r p1 p2 t a1 a2 c1 c2 _ Hp _ _ _]
    using sameButModifiers_rel_ind;
    (split; [done|]); (destruct Hp as [q1 q2 [H1 H2]|]; [simpl; by rewrite H1, H2|done]).
Qed.

Lemma sameButModifiers_ids n1 n2 :
  sameButModifiers n1 n2 →
  refId n1 = refId n2 ∧ refId <$> parent n1 = refId <$> parent n2.
Proof.
  assert (∀ a b, sameButModifiers a b → refId a = refId b) as Hid.
  { by intros a b [|]. }
  intros [r p1 p2 s Hp|r p1 p2 t a1 a2 c1 c2 Hp _ _]; (split; [done|]);
    destruct Hp as [q1 q2 Hq|]; simpl; [|done| |done]; by rewrite (Hid _ _ Hq).
Qed.

Lemma sameButModifiers_compileNode n1 n2 :
  sameButModifiers n1 n2 →
  outView (compileNode trimAny decode n1) = outView (compileNode trimAny decode n2).
Proof.
  intros H. destruct (sameButModifiers_svg _ _ H) as [Hs Hp].
  destruct H as [r p1 p2 s _|r p1 p2 t a1 a2 c1 c2 _ Ha _]; [done|].
  unfold compileNode, shouldRenderAsSvg. rewrite Hs, Hp. cbn [outView refId].
  destruct (sameAttribute_directives a1 a2 Ha) as (H1 & H2 & H3 & H4).
  unfold findRefTag. by rewrite H1, H2, H3, H4.
Qed.

Lemma sameView_lookup (h1 h2 : store) k :
  outView <$> h1 = outView <$> h2 → outView <$> h1 !! k = outView <$> h2 !! k.
Proof. intros H. by rewrite <- !list_lookup_fmap, H. Qed.

Lemma outView_setParent d1 d2 p :
  outView d1 = outView d2 → outView (setParent d1 p) = outView (setParent d2 p).
Proof. destruct d1, d2; simpl; intros [=]; congruence. Qed.

Lemma outView_pushChild d1 d2 l :
  outView d1 = outView d2 → outView (pushChild l d1) = outView (pushChild l d2).
Proof. destruct d1, d2; simpl; intros [=]; congruence. Qed.

Lemma declare_same n1 n2 p h1 h2 :
  outView (compileNode trimAny decode n1) = outView (compileNode trimAny decode n2) →
  outView <$> h1 = outView <$> h2 →
  (declare trimAny decode n1 p h1).1 = (declare trimAny decode n2 p h2).1 ∧
  outView <$> (declare trimAny decode n1 p h1).2
    = outView <$> (declare trimAny decode n2 p h2).2.
Proof.
  intros Hn Hh.
  assert (length h1 = length h2) as Hlen.
  { by rewrite <- (length_fmap outView h1), Hh, length_fmap. }
  unfold declare. cbn [fst snd]. split; [done|]. rewrite Hlen.
  set (c1 := setParent (compileNode trimAny decode n1) p).
  set (c2 := setParent (compileNode trimAny decode n2) p).
  assert (outView <$> (h1 ++ [c1]) = outView <$> (h2 ++ [c2])) as Hh'.
  { rewrite !fmap_app, Hh. simpl. subst c1 c2. by rewrite (outView_setParent _ _ p Hn). }
  destruct p as [q|]; [|done].
  pose proof (sameView_lookup _ _ q Hh') as Hq.
  destruct ((h1 ++ [c1]) !! q) as [d1|] eqn:E1, ((h2 ++ [c2]) !! q) as [d2|] eqn:E2;
    try done.
  simpl in Hq. injection Hq as Hq.
  destruct d1, d2; try done.
  apply list_eq. intros k. rewrite !list_lookup_fmap, !list_lookup_alter.
  pose proof (sameView_lookup _ _ k Hh') as Hk.
  case_decide; [|done]. rewrite E1, E2. cbn [fmap option_fmap option_map]. f_equal.
  by apply outView_pushChild.
Qed.

Lemma reduceNode_same n1 n2 :
  sameButModifiers n1 n2 →
  ∀ m h1 h2,
    outView <$> h1 = outView <$> h2 →
    (reduceNode (declare trimAny decode) n1 (m, h1)).1
      = (reduceNode (declare trimAny decode) n2 (m, h2)).1 ∧
    (reduceNode (declare trimAny decode) n1 (m, h1)).2.1
      = (reduceNode (declare trimAny decode) n2 (m, h2)).2.1 ∧
    outView <$> (reduceNode (declare trimAny decode) n1 (m, h1)).2.2
      = outView <$> (reduceNode (declare trimAny decode) n2 (m, h2)).2.2.
Proof.
  induction 1 as [r p1 p2 s Hp _|r p1 p2 t a1 a2 c1 c2 Hp _ Ha Hc IH]
    using sameButModifiers_rel_ind; intros m h1 h2 Hh.
  - assert (sameButModifiers (TextNode r p1 s) (TextNode r p2 s)) as Hn by (by constructor).
    destruct (sameButModifiers_ids _ _ Hn) as [_ Hpar].
    rewrite !reduceNode_eq. cbn [fst snd isTagNode].
    assert (getParent m (TextNode r p1 s) = getParent m (TextNode r p2 s)) as ->.
    { unfold getParent. simpl in *. destruct p1, p2; simpl in *; congruence. }
    destruct (declare_same _ _ (getParent m (TextNode r p2 s)) h1 h2
                (sameButModifiers_compileNode _ _ Hn) Hh) as [Hl Hs].
    destruct (declare _ _ (TextNode r p1 s) _ _) as [l1 h1'],
             (declare _ _ (TextNode r p2 s) _ _) as [l2 h2']. cbn [fst snd] in *.
    by subst.
  - assert (sameButModifiers (TagNode r p1 t a1 c1) (TagNode r p2 t a2 c2)) as Hn
      by (by constructor).
    destruct (sameButModifiers_ids _ _ Hn) as [_ Hpar].
    rewrite !reduceNode_eq. cbn [fst snd isTagNode].
    assert (getParent m (TagNode r p1 t a1 c1) = getParent m (TagNode r p2 t a2 c2)) as ->.
    { unfold getParent. simpl in *. destruct p1, p2; simpl in *; congruence. }
    destruct (declare_same _ _ (getParent m (TagNode r p2 t a2 c2)) h1 h2
                (sameButModifiers_compileNode _ _ Hn) Hh) as [Hl Hs].
    destruct (declare _ _ (TagNode r p1 t a1 c1) _ _) as [l1 h1'],
             (declare _ _ (TagNode r p2 t a2 c2) _ _) as [l2 h2']. cbn [fst snd refId] in *.
    subst l2. split; [done|]. clear Hh Hn Hpar Hp Ha Hc.
    revert Hs. generalize (<[r:=l1]> m). clear m. intros m. revert m h1' h2'.
    induction IH as [|x y l1' l2' Hxy _ IHl]; intros m h1' h2' Hs; [done|].
    rewrite !reduceWalk_cons.
    destruct (Hxy m h1' h2' Hs) as (E1 & E2 & E3).
    destruct (reduceNode _ x (m, h1')) as [r1 [m1 g1]],
             (reduceNode _ y (m, h2')) as [r2 [m2 g2]]. cbn [fst snd] in *. subst.
    specialize (IHl m2 g1 g2 E3).
    destruct (reduceWalk _ l1' (m2, g1)) as [rs1 [k1 f1]],
             (reduceWalk _ l2' (m2, g2)) as [rs2 [k2 f2]]. done.
Qed.

Lemma reduceWalk_same nodes1 nodes2 :
  Forall2 sameButModifiers nodes1 nodes2 →
  ∀ m h1 h2,
    outView <$> h1 = outView <$> h2 →
    (reduceWalk (declare trimAny decode) nodes1 (m, h1)).1
      = (reduceWalk (declare trimAny decode) nodes2 (m, h2)).1 ∧
    outView <$> (reduceWalk (declare trimAny decode) nodes1 (m, h1)).2.2
      = outView <$> (reduceWalk (declare trimAny decode) nodes2 (m, h2)).2.2.
Proof.
  induction 1 as [|x y l1 l2 Hxy _ IH]; intros m h1 h2 Hh; [done|].
  rewrite !reduceWalk_cons.
  destruct (reduceNode_same x y Hxy m h1 h2 Hh) as (E1 & E2 & E3).
  destruct (reduceNode _ x (m, h1)) as [r1 [m1 g1]],
           (reduceNode _ y (m, h2)) as [r2 [m2 g2]]. cbn [fst snd] in *. subst.
  specialize (IH m2 g1 g2 E3).
  destruct (reduceWalk _ l1 (m2, g1)) as [rs1 [k1 f1]],
           (reduceWalk _ l2 (m2, g2)) as [rs2 [k2 f2]]. cbn [fst snd] in *.
  destruct IH as [-> ?]. done.
Qed.

Lemma outView_fields d1 d2 :
  outView d1 = outView d2 →
  dparent d1 = dparent d2 ∧ isText d1 = isText d2 ∧ dchildren d1 = dchildren d2 ∧
  nameof d1 = nameof d2 ∧ creationStatement d1 = creationStatement d2 ∧
  dattributes d1 = dattributes d2 ∧ segregated d1 = segregated d2 ∧
  map eventView (devents d1) = map eventView (devents d2) ∧
  scriptChunk (0, d1) = scriptChunk (0, d2).
Proof.
  destruct d1 as [n1 p1 s1|n1 p1 ty1 tg1 rf1 ev1 va1 at1 ch1],
           d2 as [n2 p2 s2|n2 p2 ty2 tg2 rf2 ev2 va2 at2 ch2]; simpl; intros [=]; subst;
    unfold nameof, creationStatement, nameof, scriptChunk; cbn [dnode snd];
    repeat match goal with H : refId _ = refId _ |- _ => rewrite H; clear H end;
    repeat split; congruence.
Qed.

Lemma prepareStep_same h1 h2 acc n :
  outView <$> h1 = outView <$> h2 → prepareStep h1 acc n = prepareStep h2 acc n.
Proof.
  intros Hh. pose proof (sameView_lookup _ _ n Hh) as Hn. unfold prepareStep.
  destruct (h1 !! n) as [d1|], (h2 !! n) as [d2|]; try done.
  simpl in Hn. injection Hn as Hn.
  destruct (outView_fields _ _ Hn) as (-> & _).
  destruct (bool_decide _); [done|].
  destruct d1 as [n1 p1 s1|n1 p1 ty1 tg1 rf1 ev1 va1 at1 ch1],
           d2 as [n2 p2 s2|n2 p2 ty2 tg2 rf2 ev2 va2 at2 ch2]; try done.
  simpl in Hn. injection Hn as _ _ -> -> _ _ _ _ _. done.
Qed.

Lemma prepareNodes_same h1 h2 locs :
  outView <$> h1 = outView <$> h2 → prepareNodes h1 locs = prepareNodes h2 locs.
Proof.
  intros Hh. unfold prepareNodes.
  generalize {| rootNodes := []; templates := []; scripts := []; styles := [] |}.
  induction locs as [|n l IH]; intros acc; [done|].
  simpl. by rewrite (prepareStep_same h1 h2 acc n Hh), IH.
Qed.

Lemma preorder_same h1 h2 :
  outView <$> h1 = outView <$> h2 →
  ∀ fuel nodes,
    option_Forall2 (Forall2 sameVisit) (preorder fuel h1 nodes) (preorder fuel h2 nodes).
Proof.
  intros Hh. induction fuel as [|fuel IHf]; intros nodes; [constructor|].
  induction nodes as [|n l IHl]; [repeat constructor|].
  rewrite !preorder_cons. pose proof (sameView_lookup _ _ n Hh) as Hn.
  destruct (h1 !! n) as [d1|], (h2 !! n) as [d2|]; try done; [|constructor].
  simpl in Hn. injection Hn as Hn. cbn [mbind option_bind].
  destruct (outView_fields _ _ Hn) as (_ & -> & -> & _).
  assert (option_Forall2 (Forall2 sameVisit)
            (if isText d2 then Some [] else preorder fuel h1 (dchildren d2))
            (if isText d2 then Some [] else preorder fuel h2 (dchildren d2))) as Hsub.
  { destruct (isText d2); [repeat constructor|apply IHf]. }
  destruct Hsub as [sub1 sub2 Hsub|]; [|constructor]. cbn [mbind option_bind].
  destruct IHl as [rest1 rest2 Hrest|]; [|constructor]. cbn [mbind option_bind].
  constructor. constructor; [done|]. by apply Forall2_app.
Qed.

Lemma compileHtml_same h1 h2 d1 d2 :
  outView <$> h1 = outView <$> h2 → outView d1 = outView d2 →
  compileHtml h1 d1 = compileHtml h2 d2.
Proof.
  intros Hh Hd. rewrite !compileHtml_eq.
  destruct (outView_fields _ _ Hd) as (Hp & _ & _ & Hn & Hc & Ha & _).
  rewrite Hn, Hc, Ha. do 2 f_equal. unfold appendPart, appendStatement. rewrite Hp, Hn.
  destruct (dparent d2) as [q|]; [|done].
  pose proof (sameView_lookup _ _ q Hh) as Hq.
  destruct (h1 !! q) as [e1|], (h2 !! q) as [e2|]; try done.
  simpl in Hq. injection Hq as Hq.
  by destruct (outView_fields _ _ Hq) as (_ & _ & _ & -> & _).
Qed.

Lemma chunks_same h1 h2 ws1 ws2 :
  outView <$> h1 = outView <$> h2 → Forall2 sameVisit ws1 ws2 →
  map (nodeChunk h1) ws1 = map (nodeChunk h2) ws2 ∧
  map scriptChunk ws1 = map scriptChunk ws2 ∧
  map eventStatement (flat_map bindings ws1) = map eventStatement (flat_map bindings ws2).
Proof.
  intros Hh. induction 1 as [|[c1 d1] [c2 d2] l1 l2 [Hc Hd] _ (IH1 & IH2 & IH3)]; [done|].
  cbn [fst snd] in *. subst c2. cbn [map flat_map]. rewrite !map_app, IH1, IH2, IH3.
  split; [|split].
  - f_equal. unfold nodeChunk. cbn [snd]. by rewrite (compileHtml_same h1 h2 d1 d2).
  - f_equal. unfold scriptChunk. cbn [snd].
    by destruct (outView_fields _ _ Hd) as (_ & _ & _ & _ & _ & _ & _ & _ & ?).
  - f_equal. unfold bindings. cbn [snd]. rewrite !map_map.
    destruct (outView_fields _ _ Hd) as (_ & _ & _ & Hn & _ & _ & _ & Hev & _).
    unfold eventStatement. cbn [bind_node bind_event]. rewrite Hn.
    revert Hev. generalize (devents d1) (devents d2).
    induction l as [|e1 es1 IHe]; intros [|e2 es2]; simpl; try done.
    intros [= He1 He2 Hes]. rewrite He1, He2. f_equal. by apply IHe.
Qed.

(** C10.  Two documents that are identical except for the modifier
    segments of event attributes (attributes named [on:] followed by an
    event name and modifiers, with a brace expression as value) compile to
    the same output. *)
Theorem modifiers_do_not_change_output nodes1 nodes2 :
  Forall2 sameButModifiers nodes1 nodes2 →
  compile trimAny decode nodes1 = compile trimAny decode nodes2.
Proof.
  intros Hsame.
  destruct (compile_shape trimAny decode nodes1) as (ws1 & sc1 & Hws1 & Hsc1 & ->).
  destruct (compile_shape trimAny decode nodes2) as (ws2 & sc2 & Hws2 & Hsc2 & ->).
  unfold visited, visitedScripts, declareAll, reduce in *.
  destruct (reduceWalk_same nodes1 nodes2 Hsame ∅ [] [] eq_refl) as [Hr Hh].
  destruct (reduceWalk _ nodes1 _) as [rs1 [m1 h1]],
           (reduceWalk _ nodes2 _) as [rs2 [m2 h2]]. cbn [fst snd] in *. subst rs2.
  assert (length h1 = length h2) as Hlen.
  { by rewrite <- (length_fmap outView h1), Hh, length_fmap. }
  rewrite (prepareNodes_same h1 h2 rs1 Hh), Hlen in Hws1, Hsc1.
  pose proof (preorder_same h1 h2 Hh (S (length h2)) (rootNodes (prepareNodes h2 rs1))) as Hw.
  pose proof (preorder_same h1 h2 Hh (S (length h2)) (scripts (prepareNodes h2 rs1))) as Hs.
  rewrite Hws1, Hws2 in Hw. rewrite Hsc1, Hsc2 in Hs.
  inversion Hw as [? ? Hw'|]; subst. inversion Hs as [? ? Hs'|]; subst.
  destruct (chunks_same h1 h2 ws1 ws2 Hh Hw') as (-> & _ & ->).
  by destruct (chunks_same h1 h2 sc1 sc2 Hh Hs') as (_ & -> & _).
Qed.

End Modifiers.

Lemma Node_full_ind (P : Node → Prop) :
  (∀ r p s, (∀ q, p = Some q → P q) → P (TextNode r p s)) →
  (∀ r p t a ch, (∀ q, p = Some q → P q) → Forall P ch → P (TagNode r p t a ch)) →
  ∀ n, P n.
Proof.
  intros Htext Htag. fix IH 1. intros [r [q|] s|r [q|] t a ch].
  - apply Htext. intros q' [= <-]. apply IH.
  - apply Htext. intros q' [=].
  - apply Htag.
    + intros q' [= <-]. apply IH.
    + induction ch as [|c ch IHch]; constructor; [apply IH|apply IHch].
  - apply Htag.
    + intros q' [=].
    + induction ch as [|c ch IHch]; constructor; [apply IH|apply IHch].
Qed.

Lemma sameButModifiers_refl n : sameButModifiers n n.
Proof.
  induction n as [r p s Hp|r p t a ch Hp Hch] using Node_full_ind.
  - constructor. destruct p as [q|]; constructor. by apply Hp.
  - constructor.
    + destruct p as [q|]; constructor. by apply Hp.
    + induction a; constructor; [constructor|done].
    + induction Hch; constructor; done.
Qed.

Lemma modifiers_do_not_change_output_witness :
  compile trimAnyModel decodePlain clickDoc = compile trimAnyModel decodePlain clickModDoc.
Proof.
  apply (modifiers_do_not_change_output trimAnyModel decodePlain clickDoc clickModDoc).
  assert (sameButModifiers clickDivOpen clickModDivOpen) as Hdiv.
  { constructor; [constructor| |constructor].
    constructor; [|constructor].
    exact (same_event "click" "" ".once.passive" "{onClick}" eq_refl eq_refl eq_refl eq_refl). }
  constructor; [|constructor; [apply sameButModifiers_refl|constructor]].
  constructor; [constructor| |].
  - constructor; [|constructor].
    exact (same_event "click" "" ".once.passive" "{onClick}" eq_refl eq_refl eq_refl eq_refl).
  - constructor; [|constructor].
    constructor; [by constructor|repeat constructor|constructor].
Defined.

(** ** The documents of the specification *)

Example parse_svgDoc :
  parseTokens [OpenTag "svg" []; OpenTag "rect" []; CloseTag; CloseTag] = Some svgDoc.
Proof. vm_compute. reflexivity. Qed.

Example parse_textInSvg :
  parseTokens [OpenTag "svg" []; TextRun "hi"; CloseTag]
    = Some [TagNode 1 None "svg" [] [textInSvg]].
Proof. vm_compute. reflexivity. Qed.

Example parse_divDoc :
  parseTokens [OpenTag "div" [("class", "c")]; OpenTag "span" []; TextRun "hi";
               CloseTag; CloseTag] = Some divDoc.
Proof. vm_compute. reflexivity. Qed.

Example parse_clickDoc :
  parseTokens [OpenTag "div" [("on:click", "{onClick}")]; TextRun (nl +:+ "  ");
               OpenTag "img" [("{src}", "")]; CloseTag; TextRun nl; CloseTag;
               TextRun (nl +:+ nl);
               OpenTag "script" []; TextRun (nl +:+ "  function onClick() {}" +:+ nl);
               CloseTag] = Some clickDoc.
Proof. vm_compute. reflexivity. Qed.

Example parse_styleDoc :
  parseTokens [OpenTag "style" []; TextRun "body{}"; CloseTag] = Some styleDoc.
Proof. vm_compute. reflexivity. Qed.

Example parse_templateDoc :
  parseTokens [OpenTag "template" []; OpenTag "p" []; CloseTag; CloseTag]
    = Some templateDoc.
Proof. vm_compute. reflexivity. Qed.

Example parse_refDoc :
  parseTokens [OpenTag "div" [("#ref", "")]; CloseTag] = Some refDoc ∧
  parseTokens [OpenTag "div" [("#ref", " ")]; CloseTag] = Some refDoc.
Proof. split; vm_compute; reflexivity. Qed.

(** The round trip of the specification: two elements, a [className]
    assignment, a text node, and the two append calls. *)
Example compile_divDoc :
  compile trimAnyModel decodePlain divDoc =
    Some (textOfLines
      [ "export function compile() {";
        "  const el1 = document.createElement(" +:+ quoted "div" +:+ ");";
        "  el1.className = " +:+ quoted "c" +:+ ";";
        "";
        "  const el2 = document.createElement(" +:+ quoted "span" +:+ ");";
        "  el1.appendChild(el2);";
        "";
        "  const el3 = document.createTextNode(" +:+ quoted "hi" +:+ ");";
        "  el2.appendChild(el3);";
        "";
        "}" ]).
Proof. vm_compute. reflexivity. Qed.

(** The event statement comes last, after the script text. *)
Example compile_clickDoc :
  compile trimAnyModel decodePlain clickDoc =
    Some (textOfLines
      [ "export function compile() {";
        "  const el1 = document.createElement(" +:+ quoted "div" +:+ ");";
        "";
        "  const el2 = document.createElement(" +:+ quoted "img" +:+ ");";
        "  el1.appendChild(el2);";
        "";
        "function onClick() {}";
        "";
        "  el1.addEventListener(" +:+ quoted "click" +:+ ", onClick)";
        "}" ]).
Proof. vm_compute. reflexivity. Qed.

Example compile_refDoc :
  compile trimAnyModel decodePlain refDoc =
    Some (textOfLines
      [ "export function compile() {";
        "  const el = document.createElement(" +:+ quoted "div" +:+ ");";
        "";
        "}" ]).
Proof. vm_compute. reflexivity. Qed.

(** The earlier compiler on the same round-trip document. *)
Example legacy_compile_divDoc :
  Legacy.compile trimAnyModel decodePlain divDoc =
    Legacy.Return (textOfLines
      [ "export function compile() {";
        "  const el1 = document.createElement(" +:+ quoted "div" +:+ ");";
        "  el1.setAttribute(" +:+ quoted "class" +:+ ", " +:+ quoted "c" +:+ ");";
        "";
        "  const el2 = document.createElement(" +:+ quoted "span" +:+ ");";
        "  el1.appendChild(el2);";
        "";
        "  const el3 = document.createTextNode(" +:+ quoted "hi" +:+ ");";
        "  el2.appendChild(el3);";
        "";
        "  return {";
        "    el: el1,";
        "  }" ] +:+ "}").
Proof. vm_compute. reflexivity. Qed.

(** * Further properties *)

(** ** [walk], [flat] and [findParent] *)

Lemma walkNode_fold {S} (visitor : Node → S → S) node : ∀ s,
  walkNode visitor node s = fold_left (λ s n, visitor n s) (nodesOf node) s.
Proof.
  induction node as [r p t|r p t a ch IH] using Node_tree_ind; intros s; [done|].
  cbn [walkNode nodesOf fold_left]. generalize (visitor (TagNode r p t a ch) s).
  induction IH as [|c ch Hc _ IHch]; intros s'; [done|].
  cbn [fold_left flat_map]. rewrite fold_left_app, Hc. apply IHch.
Qed.

Lemma walk_fold {S} (visitor : Node → S → S) nodes : ∀ s,
  walk nodes visitor s = fold_left (λ s n, visitor n s) (allNodes nodes) s.
Proof.
  unfold walk, allNodes. induction nodes as [|c nodes IH]; intros s; [done|].
  cbn [fold_left flat_map]. by rewrite fold_left_app, walkNode_fold, IH.
Qed.

Lemma filter_all {A} (P : A → Prop) `{!∀ x, Decision (P x)} (l : list A) :
  Forall P l → filter P l = l.
Proof.
  induction 1 as [|x l Hx _ IH]; [done|]. by rewrite filter_cons_True, IH.
Qed.

Lemma nodesOf_walk node : nodesOf node = Legacy.walk node.
Proof.
  induction node as [r p t|r p t a ch IH] using Node_tree_ind; [done|].
  cbn [nodesOf Legacy.walk]. apply (f_equal (cons _)).
  induction IH as [|c ch Hc _ IHch]; [done|]. cbn [flat_map]. by rewrite Hc, IHch.
Qed.

Lemma flatVisit_fold l : ∀ seen out,
  (∀ r, r ∈ seen ↔ r ∈ refId <$> out) →
  (fold_left (λ s n, flatVisit n s) l (seen, out)).2
    = out ++ filter (λ y, refId y ∉ seen) (firstOfEach l).
Proof.
  induction l as [|x l IH]; intros seen out Hseen.
  - cbn. by rewrite app_nil_r.
  - cbn [fold_left firstOfEach]. unfold flatVisit at 2. cbn [fst snd].
    case_bool_decide as Hx.
    + rewrite IH by done. f_equal. rewrite filter_cons_False by (intros ?; done).
      rewrite list_filter_filter. apply list_filter_iff. intros y. split; [|tauto].
      intros Hy. split; [done|]. intros Heq. apply Hy. by rewrite Heq.
    + rewrite IH.
      * rewrite <- app_assoc. f_equal. rewrite filter_cons_True by done.
        cbn [app]. f_equal. rewrite list_filter_filter. apply list_filter_iff.
        intros y. rewrite not_elem_of_union, not_elem_of_singleton. tauto.
      * intros r. rewrite fmap_app, elem_of_app, elem_of_union, elem_of_singleton, Hseen.
        cbn. rewrite list_elem_of_singleton. tauto.
Qed.

Lemma firstOfEach_sublist l : firstOfEach l `sublist_of` l.
Proof.
  induction l as [|x l IH]; [done|]. cbn. apply sublist_skip.
  etrans; [apply sublist_filter|done].
Qed.

Lemma firstOfEach_NoDup l : NoDup (refId <$> firstOfEach l).
Proof.
  induction l as [|x l IH]; [constructor|]. cbn [firstOfEach fmap list_fmap].
  constructor.
  - intros (y & Hy & Hin)%list_elem_of_fmap. apply list_elem_of_filter in Hin as [Hne _].
    by apply Hne.
  - eapply sublist_NoDup; [exact IH|]. apply fmap_sublist, sublist_filter.
Qed.

Lemma firstOfEach_covers l x :
  x ∈ l → ∃ y, y ∈ firstOfEach l ∧ refId y = refId x.
Proof.
  induction l as [|z l IH]; [by intros ?%elem_of_nil|].
  intros [->|Hin]%elem_of_cons; cbn [firstOfEach].
  - exists z. split; [left|done].
  - destruct (decide (refId x = refId z)) as [Heq|Hne].
    + exists z. split; [left|done].
    + destruct (IH Hin) as (y & Hy & Hr). exists y. split; [|done]. right.
      apply list_elem_of_filter. split; [congruence|done].
Qed.

Lemma firstOfEach_distinct l : NoDup (refId <$> l) → firstOfEach l = l.
Proof.
  induction l as [|x l IH]; [done|]. cbn [fmap list_fmap firstOfEach].
  intros [Hx Hl]%NoDup_cons. f_equal. rewrite IH by done.
  apply filter_all. apply Forall_forall. intros y Hy Heq. apply Hx.
  rewrite <- Heq. by apply list_elem_of_fmap_2.
Qed.

Lemma allNodes_walkAll nodes : allNodes nodes = Legacy.walkAll nodes.
Proof.
  unfold allNodes, Legacy.walkAll. induction nodes as [|c nodes IH]; [done|].
  cbn. by rewrite nodesOf_walk, IH.
Qed.

(** X1. [walk] calls the visitor once on every node of the forest, in
    document order: a node before the nodes below it, siblings from left
    to right; this is the visiting order of the earlier parser's [walk]
    as well. *)
Theorem walk_visits_document_order {S} (visitor : Node → S → S) nodes s :
  walk nodes visitor s = fold_left (λ s n, visitor n s) (allNodes nodes) s ∧
  allNodes nodes = Legacy.walkAll nodes ∧
  (∀ c r p t a ch, c ∈ ch →
     ∃ pre post, nodesOf (TagNode r p t a ch) = TagNode r p t a ch :: pre ++ nodesOf c ++ post).
Proof.
  split; [apply walk_fold|]. split; [apply allNodes_walkAll|].
  - intros c r p t a ch Hin. cbn [nodesOf].
    apply list_elem_of_split in Hin as (l1 & l2 & ->).
    exists (flat_map nodesOf l1), (flat_map nodesOf l2).
    by rewrite flat_map_app.
Qed.

Lemma flat_firstOfEach nodes : flat nodes = firstOfEach (allNodes nodes).
Proof.
  unfold flat. rewrite walk_fold, flatVisit_fold.
  - cbn [app]. apply filter_all, Forall_forall. intros y _. set_solver.
  - intros r. cbn. rewrite elem_of_nil. set_solver.
Qed.

(** X2. [flat] returns the nodes of the forest in document order, keeping
    for every ref id the first node that carries it: no ref id occurs
    twice in the result, and every node of the forest has a node with its
    ref id in the result.  The [flat] of the earlier parser returns the
    same list. *)
Theorem flat_keeps_first_of_each_id nodes :
  flat nodes = firstOfEach (allNodes nodes) ∧
  NoDup (refId <$> flat nodes) ∧
  flat nodes `sublist_of` allNodes nodes ∧
  (∀ x, x ∈ allNodes nodes → ∃ y, y ∈ flat nodes ∧ refId y = refId x) ∧
  Legacy.flat nodes = flat nodes.
Proof.
  split; [apply flat_firstOfEach|]. rewrite flat_firstOfEach.
  split; [apply firstOfEach_NoDup|].
  split; [apply firstOfEach_sublist|]. split; [intros x; apply firstOfEach_covers|].
  rewrite <- flat_firstOfEach. unfold flat, Legacy.flat.
  rewrite walk_fold, <- allNodes_walkAll.
  generalize (allNodes nodes) (∅ : gset N, @nil Node).
  induction l as [|x l IH]; intros acc; [done|]. cbn [fold_left]. apply IH.
Qed.

(** X3. On a forest whose nodes carry distinct ref ids, as the parser
    numbers them, [flat] is the list of all nodes in document order. *)
Theorem flat_of_distinct_ids nodes :
  NoDup (refId <$> allNodes nodes) → flat nodes = allNodes nodes.
Proof.
  intros Hnd. by rewrite flat_firstOfEach, firstOfEach_distinct.
Qed.

Lemma flat_of_distinct_ids_witness :
  NoDup (refId <$> allNodes divDoc) ∧ flat divDoc = allNodes divDoc.
Proof.
  assert (NoDup (refId <$> allNodes divDoc)) as H
    by (apply (bool_decide_unpack _); vm_compute; reflexivity).
  split; [exact H|apply (flat_of_distinct_ids divDoc H)].
Defined.

(** X4. [findParent] returns the nearest ancestor that the filter accepts,
    and nothing when no ancestor is accepted; the SVG test of the compiler
    is this search with the filter that accepts [svg] tags. *)
Theorem findParent_nearest_accepted node filter :
  findParent node filter = List.find filter (ancestors node) ∧
  shouldRenderAsSvg node
    = isSvgNode node || bool_decide (is_Some (findParent node isSvgNode)).
Proof.
  split.
  - induction node as [node IH] using Node_parent_ind.
    destruct node as [r [q|] s|r [q|] t a ch]; cbn [findParent ancestors List.find];
      try done; rewrite (IH q eq_refl); done.
  - unfold shouldRenderAsSvg. f_equal.
    induction node as [node IH] using Node_parent_ind.
    destruct node as [r [q|] s|r [q|] t a ch]; cbn [findParent hasSvgParent];
      try done; rewrite (IH q eq_refl); by destruct (isSvgNode q).
Qed.

(** ** [reduce] as a fold over the walk *)

Lemma reduceWalk_nil {T St} (visit : Node → option T → St → T * St) st :
  reduceWalk visit [] st = ([], st).
Proof. done. Qed.

Lemma reduceNode_fold {T St} (visit : Node → option T → St → T * St) node : ∀ st,
  (reduceNode visit node st).2 = fold_left (reduceStep visit) (nodesOf node) st.
Proof.
  induction node as [r p t|r p t a ch IH] using Node_tree_ind; intros st;
    rewrite reduceNode_eq; cbn [nodesOf fold_left isTagNode];
    match goal with |- context [reduceStep visit st ?n] =>
      replace (reduceStep visit st n)
        with (let '(reduced, s) := visit n (getParent st.1 n) st.2 in
              (<[refId n := reduced]> st.1, s)) by done end;
    destruct (visit _ _ _) as [reduced s]; cbn [snd]; [done|].
  generalize (<[refId (TagNode r p t a ch) := reduced]> st.1, s).
  induction IH as [|c ch Hc _ IHch]; intros st'; [done|].
  rewrite reduceWalk_cons. cbn [flat_map]. rewrite fold_left_app, <- Hc, <- IHch.
  destruct (reduceNode visit c st') as [r1 st1]. cbn [snd].
  by destruct (reduceWalk visit ch st1).
Qed.

Lemma reduceWalk_fold {T St} (visit : Node → option T → St → T * St) nodes : ∀ st,
  (reduceWalk visit nodes st).2 = fold_left (reduceStep visit) (allNodes nodes) st ∧
  length (reduceWalk visit nodes st).1 = length nodes.
Proof.
  unfold allNodes. induction nodes as [|c nodes IH]; intros st; [done|].
  rewrite reduceWalk_cons. cbn [flat_map]. rewrite fold_left_app, <- reduceNode_fold.
  destruct (reduceNode visit c st) as [r1 st1]. cbn [snd].
  destruct (IH st1) as [<- Hlen]. destruct (reduceWalk visit nodes st1) as [rs st2].
  cbn [fst snd length] in *. by rewrite Hlen.
Qed.

(** ** The declared tree mirrors the walk *)

Lemma filter_ext_Forall {A} (P Q : A → Prop) `{!∀ x, Decision (P x), !∀ x, Decision (Q x)}
    (l : list A) :
  Forall (λ x, P x ↔ Q x) l → filter P l = filter Q l.
Proof.
  induction 1 as [|x l Hx _ IH]; [done|]. rewrite !filter_cons, IH.
  destruct (decide (P x)), (decide (Q x)); tauto.
Qed.

Lemma filter_none {A} (P : A → Prop) `{!∀ x, Decision (P x)} (l : list A) :
  Forall (λ x, ¬ P x) l → filter P l = [].
Proof.
  induction 1 as [|x l Hx _ IH]; [done|]. by rewrite filter_cons_False.
Qed.

Lemma lastIndexFrom_snoc r y l : ∀ i,
  lastIndexFrom r i (l ++ [y]) =
    if N.eqb (refId y) r then Some (i + length l) else lastIndexFrom r i l.
Proof.
  induction l as [|z l IH]; intros i; cbn [app lastIndexFrom length].
  - by rewrite Nat.add_0_r.
  - rewrite IH. destruct (N.eqb (refId y) r); [f_equal; lia|done].
Qed.

Lemma lastIndexOf_snoc r y l :
  lastIndexOf r (l ++ [y]) = if N.eqb (refId y) r then Some (length l) else lastIndexOf r l.
Proof. apply lastIndexFrom_snoc. Qed.

Lemma lastIndexFrom_Some r l : ∀ i j,
  lastIndexFrom r i l = Some j →
  i ≤ j < i + length l ∧ ∃ y, l !! (j - i) = Some y ∧ refId y = r.
Proof.
  induction l as [|z l IH]; intros i j; cbn [lastIndexFrom length]; [done|].
  destruct (lastIndexFrom r (S i) l) as [j'|] eqn:E.
  - intros [= ->]. destruct (IH _ _ E) as [? (y & Hy & ?)]. split; [lia|].
    exists y. by replace (j - i) with (S (j - S i)) by lia.
  - destruct (N.eqb_spec (refId z) r); [|done]. intros [= ->]. split; [lia|].
    exists z. by rewrite Nat.sub_diag.
Qed.

Lemma lastIndexOf_Some r l j :
  lastIndexOf r l = Some j → j < length l ∧ ∃ y, l !! j = Some y ∧ refId y = r.
Proof.
  intros H. destruct (lastIndexFrom_Some _ _ _ _ H) as [? (y & Hy & ?)].
  split; [lia|]. exists y. by rewrite Nat.sub_0_r in Hy.
Qed.

Lemma lastIndexOf_unique l : ∀ i y,
  NoDup (refId <$> l) → l !! i = Some y → lastIndexOf (refId y) l = Some i.
Proof.
  induction l as [|z l IH] using rev_ind; intros i y Hnd Hi; [done|].
  rewrite lastIndexOf_snoc. rewrite fmap_app in Hnd.
  apply NoDup_app in Hnd as (Hl & Hz & _).
  apply lookup_snoc_Some in Hi as [[Hlt Hi]|[-> ->]].
  - destruct (N.eqb_spec (refId z) (refId y)) as [Heq|_]; [|by apply IH].
    exfalso. apply (Hz (refId y)).
    + by apply list_elem_of_fmap_2, list_elem_of_lookup_2 with i.
    + rewrite <- Heq. cbn. apply list_elem_of_here.
  - by rewrite N.eqb_refl.
Qed.

Section Mirror.
Variable trimAny : string → list string → string.
Variable decode : string → string.

Lemma reduceStep_declare st node :
  reduceStep (declare trimAny decode) st node =
    (<[refId node := length st.2]> st.1,
     (declare trimAny decode node (getParent st.1 node) st.2).2).
Proof. done. Qed.

Lemma dnode_declared node p : dnode (setParent (compileNode trimAny decode node) p) = node.
Proof. by destruct node. Qed.

Lemma isText_eraseLinks d : isText (eraseLinks d) = isText d.
Proof. by destruct d. Qed.

Lemma declare_children node p h k d0 :
  h !! k = Some d0 →
  ∃ d, (declare trimAny decode node p h).2 !! k = Some d ∧
       dchildren d = if bool_decide (p = Some k) && negb (isText d0)
                     then dchildren d0 ++ [length h] else dchildren d0.
Proof.
  intros Hk. pose proof (lookup_lt_Some _ _ _ Hk) as Hlt.
  unfold declare. cbn [snd]. set (c := setParent _ p).
  assert ((h ++ [c]) !! k = Some d0) as Hk' by (by apply lookup_app_l_Some).
  destruct p as [q|]; [|by exists d0].
  destruct (decide (q = k)) as [->|Hne].
  - rewrite Hk', bool_decide_true by done. destruct d0 as [|n0 p0 ty tg r ev va at_ ch].
    + by exists (TextElementNode node0 parent0 content).
    + exists (pushChild (length h) (ElementNode n0 p0 ty tg r ev va at_ ch)).
      by rewrite list_lookup_alter_eq, Hk'.
  - rewrite bool_decide_false by congruence. exists d0. split; [|done].
    destruct ((h ++ [c]) !! q) as [[]|]; try done. by rewrite list_lookup_alter_ne.
Qed.

Lemma mirror_step w st node :
  mirror_inv trimAny decode w st →
  mirror_inv trimAny decode (w ++ [node]) (reduceStep (declare trimAny decode) st node).
Proof.
  intros (Hinv & Hw & Hm & Hpar & Hch). rewrite reduceStep_declare.
  pose proof (declare_step trimAny decode st node Hinv) as (Hinv' & _ & Hlen).
  pose proof (λ q, getParent_bound trimAny decode st node q Hinv) as Hp.
  destruct st as [m h]; cbn [fst snd] in *.
  assert (length h = length w) as Hlw by (by rewrite <- Hw, length_fmap).
  set (p := getParent m node) in *.
  set (h' := (declare trimAny decode node p h).2) in *.
  assert (h' !! length h = Some (setParent (compileNode trimAny decode node) p)) as Hnew
    by (by apply declare_new).
  assert (p = parentIndex (w ++ [node]) (length w) node) as Hpv.
  { unfold p, getParent, parentIndex. rewrite take_app_length.
    destruct (parent node); cbn; [apply Hm|done]. }
  split; [exact Hinv'|]. cbn [fst snd]. split; [|split; [|split]].
  - apply list_eq. intros k. rewrite list_lookup_fmap.
    destruct (decide (k < length h)) as [Hlt|Hge].
    + destruct (lookup_lt_is_Some_2 h k Hlt) as [d0 Hd0].
      destruct (declare_old trimAny decode node p h k d0 Hp Hd0) as (d & Hd & _ & He & _).
      change (h' !! k = Some d) in Hd. rewrite Hd, lookup_app_l by lia. rewrite <- Hw, list_lookup_fmap, Hd0. cbn.
      f_equal. rewrite <- (dnode_eraseLinks d), He. apply dnode_eraseLinks.
    + destruct (decide (k = length h)) as [->|Hne].
      * rewrite Hnew. cbn. rewrite dnode_declared. symmetry.
        by apply list_lookup_middle.
      * rewrite !lookup_ge_None_2; [done| |]; [rewrite length_app; cbn|]; lia.
  - intros r. rewrite lastIndexOf_snoc, lookup_insert.
    destruct (N.eqb_spec (refId node) r); case_decide; first [congruence|apply Hm].
  - intros k x d Hk Hd.
    destruct (declare_lookup trimAny decode _ _ _ _ _ Hp Hd)
      as [[-> ->]|(Hlt & d0 & Hd0 & Hdp & _)].
    + rewrite dparent_setParent. rewrite list_lookup_middle in Hk by done.
      injection Hk as <-. by rewrite Hlw.
    + rewrite Hdp. rewrite lookup_app_l in Hk by lia. rewrite (Hpar k x d0 Hk Hd0).
      unfold parentIndex. by rewrite take_app_le by lia.
  - intros k d Hd. unfold childIndexes. rewrite Hlen, seq_S, filter_app. cbn [Nat.add].
    assert (filter (λ j, dparent <$> h' !! j = Some (Some k)) (seq 0 (length h))
            = childIndexes h k) as ->.
    { apply filter_ext_Forall, Forall_forall. intros j Hj%elem_of_seq.
      destruct (lookup_lt_is_Some_2 h j) as [dj Hdj]; [lia|].
      destruct (declare_old trimAny decode node p h j dj Hp Hdj) as (d' & Hd' & Hdp' & _).
      change (h' !! j = Some d') in Hd'. rewrite Hd', Hdj. cbn. by rewrite Hdp'. }
    assert (filter (λ j, dparent <$> h' !! j = Some (Some k)) [length h]
            = if bool_decide (p = Some k) then [length h] else []) as ->.
    { rewrite filter_cons, filter_nil, Hnew. cbn. rewrite dparent_setParent.
      case_decide as H1; case_bool_decide as H2; try done; congruence. }
    destruct (declare_lookup trimAny decode _ _ _ _ _ Hp Hd)
      as [[-> ->]|(Hlt & d0 & Hd0 & _ & He & _)].
    + rewrite dchildren_compileNode. destruct (isText _); [done|].
      rewrite bool_decide_false by (intros Hq; apply Hp in Hq; lia).
      rewrite app_nil_r. symmetry. apply filter_none, Forall_forall.
      intros j Hj%elem_of_seq Hq.
      destruct (h !! j) as [dj|] eqn:Hdj; [|done]. injection Hq as Hq.
      destruct Hinv as [[Hwf _] _]. destruct (Hwf j dj Hdj) as [Hlt _].
      specialize (Hlt _ Hq). lia.
    + destruct (declare_children node p h k d0 Hd0) as (d' & Hd' & Hc).
      change (h' !! k = Some d') in Hd'. rewrite Hd in Hd'. injection Hd' as <-. rewrite Hc.
      rewrite <- (isText_eraseLinks d), He, isText_eraseLinks, (Hch k d0 Hd0).
      destruct (isText d0); cbn; [by rewrite andb_false_r|]. rewrite andb_true_r.
      case_bool_decide; [done|by rewrite app_nil_r].
Qed.

Lemma mirror_fold l : ∀ w st,
  mirror_inv trimAny decode w st →
  mirror_inv trimAny decode (w ++ l) (fold_left (reduceStep (declare trimAny decode)) l st).
Proof.
  induction l as [|x l IH]; intros w st Hinv; cbn [fold_left].
  - by rewrite app_nil_r.
  - replace (w ++ x :: l) with ((w ++ [x]) ++ l) by (by rewrite <- app_assoc).
    by apply IH, mirror_step.
Qed.

Lemma mirror_declareAll nodes :
  ∃ m, mirror_inv trimAny decode (allNodes nodes) (m, (declareAll trimAny decode nodes).2).
Proof.
  unfold declareAll, reduce.
  destruct (reduceWalk_fold (declare trimAny decode) nodes (∅, [])) as [Hf _].
  destruct (reduceWalk _ nodes _) as [rs [m h]]. cbn [fst snd] in *. exists m.
  rewrite Hf. apply (mirror_fold _ [] (∅, [])).
  split; [|cbn [fst snd]; split; [done|split; [intros r; by rewrite lookup_empty|]]].
  - split; cbn [fst snd]; [split|intros r l; by rewrite lookup_empty];
      intros p d Hp; by rewrite lookup_nil in Hp.
  - split; intros k; intros; by rewrite lookup_nil in *.
Qed.

End Mirror.

Lemma flat_map_segment (l : list Node) :
  Forall (λ c, ∀ i x, nodesOf c !! i = Some x →
                 ∃ post, drop i (nodesOf c) = nodesOf x ++ post) l →
  ∀ i x, flat_map nodesOf l !! i = Some x →
    ∃ post, drop i (flat_map nodesOf l) = nodesOf x ++ post.
Proof.
  induction 1 as [|c l Hc _ IH]; intros i x; cbn [flat_map]; [by rewrite lookup_nil|].
  intros [Hi|[Hge Hi]]%lookup_app_Some.
  - destruct (Hc _ _ Hi) as [post Hpost]. exists (post ++ flat_map nodesOf l).
    apply lookup_lt_Some in Hi. rewrite drop_app_le by lia. by rewrite Hpost, app_assoc.
  - destruct (IH _ _ Hi) as [post Hpost]. exists post. by rewrite drop_app_ge.
Qed.

Lemma nodesOf_segment node : ∀ i x,
  nodesOf node !! i = Some x → ∃ post, drop i (nodesOf node) = nodesOf x ++ post.
Proof.
  induction node as [r p t|r p t a ch IH] using Node_tree_ind; intros [|i] x Hi.
  - injection Hi as <-. exists []. by rewrite app_nil_r.
  - discriminate.
  - injection Hi as <-. exists []. by rewrite app_nil_r.
  - cbn [nodesOf] in *. apply (flat_map_segment ch IH i x Hi).
Qed.

Lemma allNodes_segment nodes i x :
  allNodes nodes !! i = Some x → ∃ post, drop i (allNodes nodes) = nodesOf x ++ post.
Proof.
  apply flat_map_segment, Forall_forall. intros c _. apply nodesOf_segment.
Qed.

(** A child comes after its holder in the walk. *)
Lemma allNodes_child_after nodes i x c :
  allNodes nodes !! i = Some x → c ∈ childrenOf x →
  ∃ j, allNodes nodes !! (i + S j) = Some c.
Proof.
  intros Hi Hc. destruct (allNodes_segment nodes i x Hi) as [post Hpost].
  destruct x as [r p t|r p t a ch]; cbn [childrenOf] in Hc; [by apply elem_of_nil in Hc|].
  apply list_elem_of_split in Hc as (l1 & l2 & ->).
  exists (length (flat_map nodesOf l1)).
  assert (∀ (y : Node) l j, (y :: l) !! S j = l !! j) as Hcons by done.
  rewrite <- lookup_drop, Hpost. cbn [nodesOf]. rewrite flat_map_app. cbn [flat_map].
  rewrite <- app_comm_cons, Hcons, <- !app_assoc, lookup_app_r by done.
  rewrite Nat.sub_diag. by destruct c.
Qed.

(** X5. [reduce] visits the nodes in document order, handing to each
    visit the value recorded last under the ref id of the node's parent
    link, and records the value returned under the node's own ref id; it
    returns one value per root. *)
Theorem reduce_visits_document_order {T St} (visit : Node → option T → St → T * St) nodes s :
  (reduce visit nodes s).2
    = (fold_left (reduceStep visit) (allNodes nodes) (∅, s)).2 ∧
  length (reduce visit nodes s).1 = length nodes.
Proof.
  unfold reduce. destruct (reduceWalk_fold visit nodes (∅, s)) as [Hf Hl].
  destruct (reduceWalk visit nodes (∅, s)) as [rs st]. cbn [fst snd] in *.
  by rewrite Hf.
Qed.

(** X6. The store that [compile] builds holds one declared node per parsed
    node, in document order, and the references that [reduce] returns are
    those of the root nodes. *)
Theorem declared_store_mirrors_document trimAny decode nodes :
  dnode <$> (declareAll trimAny decode nodes).2 = allNodes nodes ∧
  Forall2 (λ node l, allNodes nodes !! l = Some node)
    nodes (declareAll trimAny decode nodes).1.
Proof.
  destruct (mirror_declareAll trimAny decode nodes) as (m & _ & Hw & _). cbn [snd] in Hw.
  split; [done|]. rewrite <- Hw.
  eapply Forall2_impl; [apply (declareAll_roots trimAny decode)|].
  intros node l (d & Hd & He & _). cbn beta. rewrite list_lookup_fmap, Hd. cbn.
  by rewrite <- (dnode_eraseLinks d), He, (proj2 (eraseLinks_compileNode trimAny decode node)).
Qed.

(** X7. The declared parent of a node is the declared node of the last
    node before it in document order that carries the ref id of its
    parent link, and nothing when the node has no parent link or no
    earlier node carries that ref id. *)
Theorem declared_parent_is_last_with_id trimAny decode nodes :
  dparent <$> (declareAll trimAny decode nodes).2
    = imap (parentIndex (allNodes nodes)) (allNodes nodes).
Proof.
  destruct (mirror_declareAll trimAny decode nodes) as (m & _ & Hw & _ & Hpar & _).
  cbn [snd] in *. apply list_eq. intros k.
  rewrite list_lookup_fmap, list_lookup_imap, <- Hw, list_lookup_fmap.
  destruct (_ !! k) as [d|] eqn:Hd; [|done]. cbn. f_equal. rewrite Hw.
  apply (Hpar k (dnode d) d); [|done]. by rewrite <- Hw, list_lookup_fmap, Hd.
Qed.

(** X8. The [children] array of a declared element lists the nodes whose
    declared parent it is, all of them and in document order; a declared
    text node has no children even when nodes name it as their parent. *)
Theorem declared_children_name_their_parent trimAny decode nodes :
  dchildren <$> (declareAll trimAny decode nodes).2
    = imap (λ k d, if isText d then []
                   else childIndexes (declareAll trimAny decode nodes).2 k)
        (declareAll trimAny decode nodes).2.
Proof.
  destruct (mirror_declareAll trimAny decode nodes) as (m & _ & _ & _ & _ & Hch).
  cbn [snd] in *. apply list_eq. intros k.
  rewrite list_lookup_fmap, list_lookup_imap.
  destruct (_ !! k) as [d|] eqn:Hd; [|done]. cbn. f_equal. by apply Hch.
Qed.

(** The declared parent of a node whose parent link carries the ref id
    of an earlier node, when ref ids are distinct. *)
Lemma declared_parent_link trimAny decode nodes i k x c :
  NoDup (refId <$> allNodes nodes) →
  allNodes nodes !! i = Some x → allNodes nodes !! k = Some c → i < k →
  refId <$> parent c = Some (refId x) →
  dparent <$> (declareAll trimAny decode nodes).2 !! k = Some (Some i).
Proof.
  intros Hnd Hi Hk Hik Hlink.
  destruct (mirror_declareAll trimAny decode nodes) as (m & _ & Hw & _ & Hpar & _).
  cbn [snd] in *. pose proof Hk as Hk'. rewrite <- Hw, list_lookup_fmap in Hk'.
  destruct ((declareAll trimAny decode nodes).2 !! k) as [dc|] eqn:Hdc; [|done]. cbn. do 2 f_equal.
  rewrite (Hpar k c dc Hk Hdc). unfold parentIndex.
  destruct (parent c) as [p|]; [|done]. cbn in Hlink |- *.
  injection Hlink as Hlink. rewrite Hlink. apply lastIndexOf_unique.
  - rewrite fmap_take. eapply sublist_NoDup; [exact Hnd|apply sublist_take].
  - by rewrite lookup_take_lt.
Qed.

(** A node is in the [children] of the declared element it has as its
    declared parent. *)
Lemma declared_parent_lists_child trimAny decode nodes i k x :
  allNodes nodes !! i = Some x → isTagNode x = true →
  dparent <$> (declareAll trimAny decode nodes).2 !! k = Some (Some i) →
  ∃ dx, (declareAll trimAny decode nodes).2 !! i = Some dx ∧ dnode dx = x ∧
        k ∈ dchildren dx.
Proof.
  intros Hi Htag Hp.
  destruct (mirror_declareAll trimAny decode nodes) as (m & Hinv & Hw & _ & _ & Hch).
  cbn [snd] in *. pose proof Hi as Hi'. rewrite <- Hw, list_lookup_fmap in Hi'.
  destruct ((declareAll trimAny decode nodes).2 !! i) as [dx|] eqn:Hdx; [|done]. injection Hi' as Hnx.
  exists dx. split; [done|]. split; [done|]. rewrite (Hch i dx Hdx).
  assert (isText dx = false) as ->.
  { destruct Hinv as [[_ Hby] _]. specialize (Hby i dx Hdx).
    rewrite <- isText_eraseLinks, Hby, Hnx. by destruct x. }
  apply list_elem_of_filter. split; [done|]. apply elem_of_seq.
  destruct ((declareAll trimAny decode nodes).2 !! k) eqn:Hdk; [|done]. apply lookup_lt_Some in Hdk. lia.
Qed.

(** X9. On a forest whose nodes carry distinct ref ids, a child whose
    parent link carries the ref id of its holder is declared below the
    declared holder: the holder is its declared parent, and it is in the
    holder's [children]. *)
Theorem declared_child_of_declared_holder trimAny decode nodes i k x c :
  NoDup (refId <$> allNodes nodes) →
  allNodes nodes !! i = Some x → allNodes nodes !! k = Some c →
  c ∈ childrenOf x → refId <$> parent c = Some (refId x) →
  ∃ dx dc, (declareAll trimAny decode nodes).2 !! i = Some dx ∧
           (declareAll trimAny decode nodes).2 !! k = Some dc ∧
           dnode dx = x ∧ dnode dc = c ∧ dparent dc = Some i ∧ k ∈ dchildren dx.
Proof.
  intros Hnd Hi Hk Hc Hlink.
  assert (i < k) as Hik.
  { destruct (allNodes_child_after nodes i x c Hi Hc) as [j Hj].
    pose proof (NoDup_lookup _ _ _ _ (NoDup_fmap_1 _ _ Hnd) Hk Hj). lia. }
  pose proof (declared_parent_link trimAny decode nodes i k x c Hnd Hi Hk Hik Hlink) as Hp.
  assert (isTagNode x = true) as Htag
    by (destruct x; [by apply elem_of_nil in Hc|done]).
  destruct (declared_parent_lists_child trimAny decode nodes i k x Hi Htag Hp)
    as (dx & Hdx & Hnx & Hin).
  destruct ((declareAll trimAny decode nodes).2 !! k) as [dc|] eqn:Hdc; [|done]. injection Hp as Hp.
  exists dx, dc. do 3 (split; [done|]). split; [|done].
  destruct (mirror_declareAll trimAny decode nodes) as (m & _ & Hw & _).
  cbn [snd] in Hw. rewrite <- Hw, list_lookup_fmap, Hdc in Hk. by injection Hk.
Qed.

Lemma declared_child_of_declared_holder_witness :
  ∃ x c dx dc,
    NoDup (refId <$> allNodes divDoc) ∧
    allNodes divDoc !! 0 = Some x ∧ allNodes divDoc !! 1 = Some c ∧
    c ∈ childrenOf x ∧ refId <$> parent c = Some (refId x) ∧
    (declareAll trimAnyModel decodePlain divDoc).2 !! 0 = Some dx ∧
    (declareAll trimAnyModel decodePlain divDoc).2 !! 1 = Some dc ∧
    dnode dx = x ∧ dnode dc = c ∧ dparent dc = Some 0 ∧ 1 ∈ dchildren dx.
Proof.
  destruct (allNodes divDoc !! 0) as [x|] eqn:Hx; [|discriminate].
  destruct (allNodes divDoc !! 1) as [c|] eqn:Hc; [|discriminate].
  assert (NoDup (refId <$> allNodes divDoc)) as Hnd
    by (apply (bool_decide_unpack _); vm_compute; reflexivity).
  assert (c ∈ childrenOf x) as Hin
    by (injection Hx as <-; injection Hc as <-; apply list_elem_of_here).
  assert (refId <$> parent c = Some (refId x)) as Hlink
    by (injection Hx as <-; injection Hc as <-; reflexivity).
  destruct (declared_child_of_declared_holder trimAnyModel decodePlain divDoc 0 1 x c
              Hnd Hx Hc Hin Hlink) as (dx & dc & H).
  exists x, c, dx, dc. by repeat split; try apply H.
Defined.

(** ** The attribute classifier *)

Lemma startsWith_app s p : JS.startsWith s p = true ↔ ∃ rest, s = p +:+ rest.
Proof.
  unfold JS.startsWith. revert s. induction p as [|a p IH]; intros s.
  - split; [intros _; by exists s|by destruct s].
  - destruct s as [|b s]; cbn [String.prefix].
    + split; [done|by intros [rest ?]].
    + destruct (ascii_dec a b) as [<-|Hne].
      * rewrite IH. split; intros [rest Hr]; exists rest.
        -- change (String a p +:+ rest) with (String a (p +:+ rest)). by rewrite Hr.
        -- change (String a p +:+ rest) with (String a (p +:+ rest)) in Hr. congruence.
      * split; [done|]. intros [rest Hr].
        change (String a p +:+ rest) with (String a (p +:+ rest)) in Hr. congruence.
Qed.

Lemma split_first sep s : ∀ x y rest,
  JS.split sep s = x :: y :: rest →
  ∃ c s', sep c = true ∧ s = x +:+ String c s' ∧ JS.split sep s' = y :: rest.
Proof.
  induction s as [|c s IH]; intros x y rest; cbn [JS.split]; [done|].
  destruct (sep c) eqn:Hc.
  - intros [= <- Hs]. by exists c, s.
  - destruct (JS.split sep s) as [|x' xs] eqn:Hs; [done|].
    intros [= <- ->]. destruct (IH _ _ _ eq_refl) as (c0 & s' & Hc0 & -> & Hs').
    by exists c0, s'.
Qed.

Lemma split_allChars q sep s :
  allChars q s = true → Forall (λ w, allChars q w = true) (JS.split sep s).
Proof.
  induction s as [|c s IH]; cbn [JS.split allChars]; [by repeat constructor|].
  intros [Hc Hs]%andb_true_iff. specialize (IH Hs).
  destruct (sep c); [by constructor|].
  destruct (JS.split sep s) as [|x xs]; [repeat constructor; cbn; by rewrite Hc|].
  apply Forall_cons in IH as [Hx Hxs]. constructor; [|done]. cbn. by rewrite Hc, Hx.
Qed.

Lemma split_no_sep sep s :
  Forall (λ w, allChars (λ c, negb (sep c)) w = true) (JS.split sep s).
Proof.
  induction s as [|c s IH]; cbn [JS.split]; [by repeat constructor|].
  destruct (sep c) eqn:Hc; [by constructor|].
  destruct (JS.split sep s) as [|x xs]; [repeat constructor; cbn; by rewrite Hc|].
  apply Forall_cons in IH as [Hx Hxs]. constructor; [|done]. cbn. by rewrite Hc, Hx.
Qed.

Lemma isEventWord_allChars w :
  isEventWord w = allChars (λ c, negb (isColon c)) w && allChars (λ c, negb (isEventSep c)) w.
Proof.
  induction w as [|c w IH]; [done|]. cbn [isEventWord allChars]. rewrite IH.
  unfold isColon. by destruct (Ascii.eqb c ":"), (isEventSep c), (allChars _ w).
Qed.

Lemma hd_Forall {A} (P : A → Prop) d l : P d → Forall P l → P (hd d l).
Proof. intros Hd [|x l' Hx _]; [exact Hd|exact Hx]. Qed.

(** The pieces of the first colon-separated segment are event words. *)
Lemma event_parts_words rest :
  Forall (λ w, isEventWord w = true)
    (JS.split isEventSep (hd "" (JS.split isColon rest))).
Proof.
  assert (allChars (λ c, negb (isColon c)) (hd "" (JS.split isColon rest)) = true) as Hseg
    by (apply hd_Forall; [done|apply split_no_sep]).
  pose proof (split_allChars _ isEventSep _ Hseg) as H1.
  pose proof (split_no_sep isEventSep (hd "" (JS.split isColon rest))) as H2.
  apply Forall_forall. intros w Hw. rewrite isEventWord_allChars.
  rewrite Forall_forall in H1, H2. by rewrite (H1 w Hw), (H2 w Hw).
Qed.

Lemma compileAttribute_on trimAny rest v :
  JS.startsWith v "{" = true →
  compileAttribute trimAny {| name := "on:" +:+ rest; value := v |} =
    Some (Event {| eventName := hd "" (JS.split isEventSep (hd "" (JS.split isColon rest)));
                   modifiers := tl (JS.split isEventSep (hd "" (JS.split isColon rest)));
                   variableName := JS.trim (trimAny v ["{"; "}"]) |}).
Proof.
  intros Hv. unfold compileAttribute. cbn [name value].
  rewrite Hv, on_prefix, split_on_prefix.
  change (JS.startsWith (String "o" _) "=") with false.
  change (JS.startsWith (String "o" (String "n" (String ":" rest))) "{") with false.
  change (String.eqb (String "o" (String "n" (String ":" rest))) "#ref") with false.
  change (JS.indexOf (String "o" (String "n" (String ":" rest))) ":") with (Some 2).
  cbv iota. fold isColon.
  destruct (split_nonempty isColon rest) as (x & xs & ->). done.
Qed.

Lemma compileAttribute_Event_inv trimAny a e :
  compileAttribute trimAny a = Some (Event e) →
  JS.startsWith (value a) "{" = true ∧ ∃ rest, name a = "on:" +:+ rest.
Proof.
  unfold compileAttribute.
  destruct (JS.startsWith (name a) "="); [done|].
  destruct (String.eqb (name a) "#ref"); [done|].
  destruct (JS.startsWith (name a) "{"); [done|].
  destruct (JS.startsWith (value a) "{"); [|done].
  destruct (JS.indexOf (name a) ":") as [[|n]|]; try done.
  destruct (JS.split _ (name a)) as [|on [|part ps]] eqn:Hs; try done.
  destruct (String.eqb_spec on "on") as [->|]; [|done]. intros _. split; [done|].
  destruct (split_first _ _ _ _ _ Hs) as (c & s' & Hc & Hn & _).
  apply Ascii.eqb_eq in Hc as ->. by exists s'.
Qed.

(** X10. An attribute is an event directive exactly when its name starts
    with [on:] and its value with an opening brace.  The handler is then
    the value without its braces, and neither the event name nor a
    modifier contains a colon, a dot or a bar. *)
Theorem event_directive_iff trimAny a :
  ((∃ e, compileAttribute trimAny a = Some (Event e)) ↔
   JS.startsWith (name a) "on:" = true ∧ JS.startsWith (value a) "{" = true) ∧
  (∀ e, compileAttribute trimAny a = Some (Event e) →
     variableName e = JS.trim (trimAny (value a) ["{"; "}"]) ∧
     Forall (λ w, isEventWord w = true) (eventName e :: modifiers e)).
Proof.
  split.
  - split.
    + intros [e [Hv [rest Hn]]%compileAttribute_Event_inv]. split; [|done].
      apply startsWith_app. by exists rest.
    + intros [[rest Hn]%startsWith_app Hv]. destruct a as [n v]. cbn [name value] in *.
      subst n. rewrite compileAttribute_on by done. by eexists.
  - intros e He. destruct (compileAttribute_Event_inv _ _ _ He) as [Hv [rest Hn]].
    destruct a as [n v]. cbn [name value] in *. subst n.
    rewrite compileAttribute_on in He by done. injection He as <-. cbn. split; [done|].
    pose proof (event_parts_words rest) as Hw.
    destruct (JS.split isEventSep _); [by repeat constructor|done].
Qed.

(** X11. The classifier drops an attribute exactly when its name starts
    with an equals sign; it keeps an attribute as a plain attribute, name
    and value unchanged, exactly when the name is not [#ref], starts with
    neither an equals sign nor a brace, and the value does not start with a
    brace; and it yields a reference exactly for the name [#ref], whatever
    the value. *)
Theorem attribute_dropped_kept_or_ref trimAny a :
  (compileAttribute trimAny a = None ↔ JS.startsWith (name a) "=" = true) ∧
  (∀ g, compileAttribute trimAny a = Some (Attribute g) ↔
     JS.startsWith (name a) "=" = false ∧ name a ≠ "#ref" ∧
     JS.startsWith (name a) "{" = false ∧ JS.startsWith (value a) "{" = false ∧
     g = {| attr_name := name a; attr_value := value a |}) ∧
  (∀ r, compileAttribute trimAny a = Some (Ref r) ↔
     name a = "#ref" ∧ r = {| ref_name := JS.or_else (JS.trim (value a)) "el" |}).
Proof.
  unfold compileAttribute.
  destruct (JS.startsWith (name a) "=") eqn:Heq.
  { split; [done|]. split; [intros g|intros r]; (split; [done|]).
    - by intros [? _].
    - intros [Hn _]. by rewrite Hn in Heq. }
  destruct (String.eqb_spec (name a) "#ref") as [Hn|Hn].
  { split; [done|]. split; [intros g|intros r]; split; try done.
    - by intros (_ & ? & _).
    - intros [= <-]. done.
    - by intros [_ ->]. }
  destruct (JS.startsWith (name a) "{") eqn:Hb.
  { split; [done|]. split; [intros g|intros r]; split; try done.
    - by intros (_ & _ & ? & _).
    - by intros [? _]. }
  destruct (JS.startsWith (value a) "{") eqn:Hv.
  { split; [|split; [intros g|intros r]; split];
      try (by intros (_ & _ & _ & ? & _)); try (by intros [? _]);
      destruct (JS.indexOf (name a) ":") as [[|n]|]; try done;
      destruct (JS.split _ (name a)) as [|on [|part ps]]; try done;
      by destruct (String.eqb on "on"). }
  split; [done|]. split; [intros g|intros r]; split; try done.
  - by intros [= <-].
  - by intros (_ & _ & _ & _ & ->).
  - by intros [? _].
Qed.

Lemma split_word sep w :
  allChars (λ c, negb (sep c)) w = true → JS.split sep w = [w].
Proof.
  induction w as [|c w IH]; [done|]. cbn [allChars JS.split].
  intros [Hc Hw]%andb_true_iff. apply negb_true_iff in Hc. by rewrite Hc, IH.
Qed.

Lemma split_app_sep sep w c s :
  allChars (λ c, negb (sep c)) w = true → sep c = true →
  JS.split sep (w +:+ String c s) = w :: JS.split sep s.
Proof.
  intros Hw Hc. induction w as [|b w IH].
  - change ("" +:+ String c s) with (String c s). cbn [JS.split]. by rewrite Hc.
  - change (String b w +:+ String c s) with (String b (w +:+ String c s)).
    cbn [allChars JS.split] in *. apply andb_true_iff in Hw as [Hb Hw].
    apply negb_true_iff in Hb. by rewrite Hb, IH.
Qed.

Lemma allChars_app q a b : allChars q (a +:+ b) = allChars q a && allChars q b.
Proof.
  induction a as [|c a IH]; [done|].
  change (String c a +:+ b) with (String c (a +:+ b)). cbn [allChars].
  by rewrite IH, andb_assoc.
Qed.

Lemma modifierSuffix_cons c w mods :
  modifierSuffix ((c, w) :: mods) = String c (w +:+ modifierSuffix mods).
Proof. done. Qed.

Lemma split_modifiers mods : ∀ ev,
  isEventWord ev = true →
  Forall (λ cw, isEventSep cw.1 = true ∧ isEventWord cw.2 = true) mods →
  JS.split isEventSep (ev +:+ modifierSuffix mods) = ev :: mods.*2 ∧
  allChars (λ c, negb (isColon c)) (ev +:+ modifierSuffix mods) = true.
Proof.
  induction mods as [|[c w] mods IH]; intros ev Hev Hm.
  - rewrite isEventWord_allChars in Hev. apply andb_true_iff in Hev as [H1 H2].
    change (modifierSuffix []) with "". rewrite app_nil_r_s. split; [by apply split_word|done].
  - apply Forall_cons in Hm as [[Hc Hw] Hm]. cbn [fst snd] in *.
    destruct (IH w Hw Hm) as [IH1 IH2].
    rewrite isEventWord_allChars in Hev. apply andb_true_iff in Hev as [H1 H2].
    rewrite modifierSuffix_cons. split.
    + rewrite split_app_sep by done. by rewrite IH1.
    + rewrite allChars_app, H1. cbn [allChars andb]. rewrite IH2, andb_true_r.
      unfold isColon. unfold isEventSep in Hc.
      destruct (Ascii.eqb_spec c ":") as [->|]; [done|done].
Qed.

(** X12. The name of an event attribute is read back part by part: for
    [on:], an event word and any number of modifier words, each after a
    dot or a bar, the classifier returns the event word as the event name
    and the modifier words, in order, as the modifiers. *)
Theorem event_name_and_modifiers_parsed trimAny ev mods v :
  isEventWord ev = true →
  Forall (λ cw, isEventSep cw.1 = true ∧ isEventWord cw.2 = true) mods →
  JS.startsWith v "{" = true →
  compileAttribute trimAny {| name := "on:" +:+ ev +:+ modifierSuffix mods; value := v |} =
    Some (Event {| eventName := ev; modifiers := mods.*2;
                   variableName := JS.trim (trimAny v ["{"; "}"]) |}).
Proof.
  intros Hev Hm Hv. rewrite compileAttribute_on by done.
  destruct (split_modifiers mods ev Hev Hm) as [Hs Hc].
  rewrite (split_word isColon) by done. cbn [hd]. by rewrite Hs.
Qed.

Lemma event_name_and_modifiers_parsed_witness :
  compileAttribute trimAnyModel
    {| name := "on:" +:+ "click" +:+ modifierSuffix [("."%char, "prevent"); ("|"%char, "once")];
       value := "{ handle }" |} =
    Some (Event {| eventName := "click"; modifiers := ["prevent"; "once"];
                   variableName := "handle" |}).
Proof.
  apply (event_name_and_modifiers_parsed trimAnyModel "click"
           [("."%char, "prevent"); ("|"%char, "once")] "{ handle }").
  - reflexivity.
  - repeat constructor.
  - reflexivity.
Defined.

(** ** Names of the declared nodes *)




(** ** The arrays of [prepareNodes] *)

Lemma prepare_fold h nodes : ∀ acc,
  rootNodes (fold_left (prepareStep h) nodes acc)
    = rootNodes acc ++ filter (λ n, bucketOf h n = Some RootBucket) nodes ∧
  templates (fold_left (prepareStep h) nodes acc)
    = templates acc ++ filter (λ n, bucketOf h n = Some TemplateBucket) nodes ∧
  scripts (fold_left (prepareStep h) nodes acc)
    = scripts acc ++ filter (λ n, bucketOf h n = Some ScriptBucket) nodes ∧
  styles (fold_left (prepareStep h) nodes acc)
    = styles acc ++ filter (λ n, bucketOf h n = Some StyleBucket) nodes.
Proof.
  induction nodes as [|n nodes IH]; intros acc; cbn [fold_left].
  - by rewrite !filter_nil, !app_nil_r.
  - destruct (IH (prepareStep h acc n)) as (-> & -> & -> & ->). rewrite !filter_cons.
    unfold prepareStep, bucketOf. destruct (h !! n) as [d|]; cbn [mbind option_bind].
    2: { by repeat case_decide. }
    destruct (bool_decide (is_Some (dparent d))).
    { by repeat case_decide. }
    destruct d as [|n0 p0 [] tg r ev va at_ ch]; cbn [rootNodes templates scripts styles];
      try destruct (String.eqb tg "template"); try destruct (String.eqb tg "script");
      try destruct (String.eqb tg "style"); cbn [rootNodes templates scripts styles];
      repeat case_decide; try congruence; by rewrite <- ?app_assoc.
Qed.

(** X14. [prepareNodes] sorts the parentless nodes into its four arrays
    and keeps their order: a parentless [template], [script] or [style]
    element goes to the array of its tag and every other parentless node
    to [rootNodes]; a node with a parent is in none of them. *)
Theorem prepareNodes_sorts_parentless_nodes h nodes :
  rootNodes (prepareNodes h nodes) = filter (λ n, bucketOf h n = Some RootBucket) nodes ∧
  templates (prepareNodes h nodes) = filter (λ n, bucketOf h n = Some TemplateBucket) nodes ∧
  scripts (prepareNodes h nodes) = filter (λ n, bucketOf h n = Some ScriptBucket) nodes ∧
  styles (prepareNodes h nodes) = filter (λ n, bucketOf h n = Some StyleBucket) nodes.
Proof.
  unfold prepareNodes.
  destruct (prepare_fold h nodes
              {| rootNodes := []; templates := []; scripts := []; styles := [] |})
    as (-> & -> & -> & ->).
  done.
Qed.

(** ** Normalized attribute values *)

Lemma trimStart_result s : JS.trimStart s = "" ∨ startsClean (JS.trimStart s) = true.
Proof.
  induction s as [|c s IH]; [by left|]. cbn [JS.trimStart].
  destruct (JS.isWhiteSpace c) eqn:Hc; [done|]. right. cbn. by rewrite Hc.
Qed.

Lemma trimEnd_result s : JS.trimEnd s = "" ∨ endsClean (JS.trimEnd s) = true.
Proof.
  induction s as [|c s IH]; [by left|]. cbn [JS.trimEnd].
  destruct (JS.trimEnd s) as [|c' r].
  - destruct (JS.isWhiteSpace c) eqn:Hc; [by left|]. right. cbn. by rewrite Hc.
  - right. by destruct IH as [?|IH].
Qed.

Lemma trimEnd_head c s :
  JS.isWhiteSpace c = false → ∃ r, JS.trimEnd (String c s) = String c r.
Proof.
  intros Hc. cbn [JS.trimEnd]. rewrite Hc. destruct (JS.trimEnd s); by eexists.
Qed.

Lemma trim_result s :
  JS.trim s = "" ∨ (startsClean (JS.trim s) = true ∧ endsClean (JS.trim s) = true).
Proof.
  unfold JS.trim. destruct (trimStart_result s) as [->|Hs]; [by left|].
  destruct (JS.trimStart s) as [|c t]; [done|]. cbn in Hs. apply negb_true_iff in Hs.
  destruct (trimEnd_head c t Hs) as [r Hr]. right. split.
  - rewrite Hr. cbn. by rewrite Hs.
  - destruct (trimEnd_result (String c t)) as [He|He]; [|done]. by rewrite Hr in He.
Qed.

Lemma trim_idem s : JS.trim (JS.trim s) = JS.trim s.
Proof.
  destruct (trim_result s) as [->|[Hs He]]; [done|]. by apply trim_clean.
Qed.

Lemma allChars_trimStart q s : allChars q s = true → allChars q (JS.trimStart s) = true.
Proof.
  induction s as [|c s IH]; [done|]. cbn [JS.trimStart allChars].
  intros [Hc Hs]%andb_true_iff. destruct (JS.isWhiteSpace c); [by apply IH|].
  cbn. by rewrite Hc, Hs.
Qed.

Lemma allChars_trimEnd q s : allChars q s = true → allChars q (JS.trimEnd s) = true.
Proof.
  induction s as [|c s IH]; [done|]. cbn [JS.trimEnd allChars].
  intros [Hc Hs]%andb_true_iff. specialize (IH Hs).
  destruct (JS.trimEnd s) as [|c' r].
  - destruct (JS.isWhiteSpace c); [done|]. cbn. by rewrite Hc.
  - cbn [allChars] in IH |- *. by rewrite Hc, IH.
Qed.

Lemma allChars_trim q s : allChars q s = true → allChars q (JS.trim s) = true.
Proof. intros H. by apply allChars_trimEnd, allChars_trimStart. Qed.

Lemma replaceRuns_clean cls b s :
  allChars (λ c, negb (cls c)) (JS.replaceRuns cls " " b s) = true ∨ cls " "%char = true.
Proof.
  destruct (cls " "%char) eqn:Hsp; [by right|]. left. revert b.
  induction s as [|c s IH]; intros b; [done|]. cbn [JS.replaceRuns].
  destruct (cls c) eqn:Hc.
  - destruct b; [apply IH|]. change (" " +:+ ?x) with (String " " x). cbn [allChars].
    by rewrite Hsp, IH.
  - cbn [allChars]. by rewrite Hc, IH.
Qed.

Lemma replaceRuns_id cls by_ b s :
  allChars (λ c, negb (cls c)) s = true → JS.replaceRuns cls by_ b s = s.
Proof.
  revert b. induction s as [|c s IH]; intros b; [done|]. cbn [allChars JS.replaceRuns].
  intros [Hc Hs]%andb_true_iff. apply negb_true_iff in Hc. by rewrite Hc, IH.
Qed.

(** X15. A normalized attribute value holds none of the line-break
    characters that [normalizeAttributes] replaces and no white space at
    either end, and normalizing it again changes nothing. *)
Theorem normalizeValue_clean_and_stable raw :
  allChars (λ c, negb (isNewlineLike c)) (normalizeValue raw) = true ∧
  JS.trim (normalizeValue raw) = normalizeValue raw ∧
  normalizeValue (normalizeValue raw) = normalizeValue raw.
Proof.
  assert (allChars (λ c, negb (isNewlineLike c)) (normalizeValue raw) = true) as Hclean.
  { apply allChars_trim. by destruct (replaceRuns_clean isNewlineLike false raw). }
  split; [done|]. split; [apply trim_idem|].
  unfold normalizeValue at 1. rewrite replaceRuns_id by done. apply trim_idem.
Qed.

Lemma replaceEach_spaces s :
  allChars spaceOrInk (JS.replaceEach JS.isWhiteSpace " " s) = true.
Proof.
  induction s as [|c s IH]; [done|]. cbn [JS.replaceEach].
  destruct (JS.isWhiteSpace c) eqn:Hc.
  - change (" " +:+ ?x) with (String " " x). cbn [allChars]. by rewrite IH.
  - cbn [allChars]. unfold spaceOrInk at 1. by rewrite Hc, IH.
Qed.

Lemma replaceEach_id s :
  allChars spaceOrInk s = true → JS.replaceEach JS.isWhiteSpace " " s = s.
Proof.
  induction s as [|c s IH]; [done|]. cbn [allChars JS.replaceEach].
  intros [Hc Hs]%andb_true_iff. rewrite (IH Hs). unfold spaceOrInk in Hc.
  destruct (JS.isWhiteSpace c); [|done]. cbn in Hc. apply Ascii.eqb_eq in Hc as ->. done.
Qed.

Lemma replaceLongRuns_spaced s :
  allChars spaceOrInk s = true →
  spacedOnce (Legacy.replaceLongRuns JS.isWhiteSpace " " Legacy.Outside s) = true ∧
  (spacedOnce (Legacy.replaceLongRuns JS.isWhiteSpace " " Legacy.Many s) = true ∧
   noWsHead (Legacy.replaceLongRuns JS.isWhiteSpace " " Legacy.Many s) = true) ∧
  spacedOnce (Legacy.replaceLongRuns JS.isWhiteSpace " " (Legacy.One " ") s) = true.
Proof.
  induction s as [|c s IH]; [done|]. cbn [allChars Legacy.replaceLongRuns].
  intros [Hc Hs]%andb_true_iff. destruct (IH Hs) as (IH1 & [IH2 IH2'] & IH3).
  unfold spaceOrInk in Hc. destruct (JS.isWhiteSpace c) eqn:Hw.
  - cbn in Hc. apply Ascii.eqb_eq in Hc as ->.
    change (" " +:+ ?x) with (String " " x). cbn [spacedOnce].
    rewrite IH2, IH2'. done.
  - cbn [spacedOnce noWsHead]. rewrite Hw, IH1. done.
Qed.

Lemma replaceLongRuns_id s :
  spacedOnce s = true →
  Legacy.replaceLongRuns JS.isWhiteSpace " " Legacy.Outside s = s ∧
  (noWsHead s = true →
   ∀ c0, Legacy.replaceLongRuns JS.isWhiteSpace " " (Legacy.One c0) s = String c0 s).
Proof.
  induction s as [|c s IH]; [done|]. cbn [spacedOnce Legacy.replaceLongRuns noWsHead].
  intros [Hc Hs]%andb_true_iff. destruct (IH Hs) as [IH1 IH2].
  destruct (JS.isWhiteSpace c) eqn:Hw.
  - cbn in Hc. apply andb_true_iff in Hc as [_ Hh]. split; [by apply IH2|done].
  - rewrite IH1. done.
Qed.

Lemma spacedOnce_tail c s : spacedOnce (String c s) = true → spacedOnce s = true.
Proof. cbn. by intros [_ ?]%andb_true_iff. Qed.

Lemma spacedOnce_trimStart s : spacedOnce s = true → spacedOnce (JS.trimStart s) = true.
Proof.
  induction s as [|c s IH]; [done|]. intros H. cbn [JS.trimStart].
  destruct (JS.isWhiteSpace c); [|done]. by apply IH, (spacedOnce_tail c).
Qed.

Lemma spacedOnce_trimEnd s : spacedOnce s = true → spacedOnce (JS.trimEnd s) = true.
Proof.
  induction s as [|c s IH]; [done|]. cbn [spacedOnce JS.trimEnd].
  intros [Hc Hs]%andb_true_iff. specialize (IH Hs).
  destruct (JS.trimEnd s) as [|c' r] eqn:Hr.
  - destruct (JS.isWhiteSpace c) eqn:Hw; [done|]. cbn. by rewrite Hw.
  - cbn [spacedOnce] in *. rewrite IH, andb_true_r.
    destruct (JS.isWhiteSpace c) eqn:Hw; [|done]. cbn in Hc |- *.
    apply andb_true_iff in Hc as [-> Hh]. cbn.
    destruct s as [|c1 s1]; [done|]. cbn in Hh. apply negb_true_iff in Hh.
    destruct (trimEnd_head c1 s1 Hh) as [r' Hr']. rewrite Hr' in Hr.
    injection Hr as <- _. by rewrite Hh.
Qed.

Lemma spacedOnce_spaces s : spacedOnce s = true → allChars spaceOrInk s = true.
Proof.
  induction s as [|c s IH]; [done|]. cbn [spacedOnce allChars].
  intros [Hc Hs]%andb_true_iff. rewrite (IH Hs), andb_true_r. unfold spaceOrInk.
  destruct (JS.isWhiteSpace c); [|done]. cbn in *. by apply andb_true_iff in Hc as [-> _].
Qed.

(** X16. A value normalized by the earlier parser holds no white space
    but single spaces, each between two other characters, and normalizing
    it again changes nothing. *)
Theorem legacy_normalizeValue_single_spaces raw :
  spacedOnce (Legacy.normalizeValue raw) = true ∧
  JS.trim (Legacy.normalizeValue raw) = Legacy.normalizeValue raw ∧
  Legacy.normalizeValue (Legacy.normalizeValue raw) = Legacy.normalizeValue raw.
Proof.
  assert (spacedOnce (Legacy.normalizeValue raw) = true) as Hs.
  { apply spacedOnce_trimEnd, spacedOnce_trimStart.
    by destruct (replaceLongRuns_spaced _ (replaceEach_spaces raw)) as [? _]. }
  split; [done|]. split; [apply trim_idem|].
  unfold Legacy.normalizeValue at 1.
  rewrite replaceEach_id by (by apply spacedOnce_spaces).
  destruct (replaceLongRuns_id _ Hs) as [-> _]. apply trim_idem.
Qed.

(** ** The earlier compiler *)

Lemma legacy_svg_parent node :
  Legacy.hasSvgParent node true = hasSvgParent node ∧
  (Legacy.hasSvgParent node false = true → hasSvgParent node = true).
Proof.
  assert (∀ n, Legacy.isSvgNode n true = isSvgNode n) as Hsame.
  { intros [|r p t a ch]; [done|]. cbn. by destruct (String.eqb t "svg"). }
  assert (∀ n, Legacy.isSvgNode n false = true → isSvgNode n = true) as Himp.
  { intros [|r p t a ch]; [done|]. cbn. by destruct (String.eqb t "svg"). }
  induction node as [node IH] using Node_parent_ind.
  destruct node as [r [q|] s|r [q|] t a ch]; cbn [Legacy.hasSvgParent hasSvgParent];
    try done; destruct (IH q eq_refl) as [IH1 IH2]; rewrite Hsame, IH1;
    (split; [done|]); intros [H|H]%orb_true_iff; apply orb_true_iff; auto.
Qed.

(** X17. With its default setting the SVG test of the earlier compiler
    agrees with the test of the current one on every node; with the
    setting turned off it accepts no node that the current test rejects. *)
Theorem legacy_svg_test_agrees node :
  Legacy.shouldRenderAsSvg node true = shouldRenderAsSvg node ∧
  (Legacy.shouldRenderAsSvg node false = true → shouldRenderAsSvg node = true).
Proof.
  destruct (legacy_svg_parent node) as [Hp Hi].
  unfold Legacy.shouldRenderAsSvg, shouldRenderAsSvg. split.
  - rewrite Hp. f_equal. destruct node as [|r p t a ch]; [done|]. cbn.
    by destruct (String.eqb t "svg").
  - intros [H|H]%orb_true_iff; apply orb_true_iff; [left|right; by apply Hi].
    destruct node as [|r p t a ch]; [done|]. cbn in *. by destruct (String.eqb t "svg").
Qed.

Section LegacyCompile.
Variable trimAny : string → list string → string.
Variable decode : string → string.

Lemma attrStep_exportNodes m node e a :
  Legacy.exportNodes (Legacy.attrStep trimAny m node e a) = Legacy.exportNodes e.
Proof.
  unfold Legacy.attrStep.
  destruct (JS.startsWith (name a) "="); [done|].
  destruct (JS.startsWith (name a) "{"); [done|].
  destruct (JS.startsWith (value a) "{"); [|done].
  destruct (JS.indexOf (name a) ":") as [[|n]|]; try done.
  destruct (JS.split _ (name a)) as [|on [|part ps]]; try done.
  by destruct (String.eqb on "on").
Qed.

Lemma fold_attrStep_exportNodes m node attrs : ∀ e,
  Legacy.exportNodes (fold_left (Legacy.attrStep trimAny m node) attrs e)
    = Legacy.exportNodes e.
Proof.
  induction attrs as [|a attrs IH]; intros e; [done|].
  cbn [fold_left]. by rewrite IH, attrStep_exportNodes.
Qed.

(** A node is exported exactly when it has no parent or its parent is a
    root template. *)
Lemma nodeStep_exportNodes m templates e node :
  Legacy.exportNodes (Legacy.nodeStep trimAny decode m templates e node) =
    Legacy.exportNodes e ++
    (if match parent node with
        | None => true
        | Some p => existsb (λ root, N.eqb (refId p) (refId root)) templates
        end
     then [node] else []).
Proof.
  unfold Legacy.nodeStep. cbn [Legacy.exportNodes].
  assert (∀ e', Legacy.exportNodes
            match node with
            | TagNode _ _ _ attrs _ => fold_left (Legacy.attrStep trimAny m node) attrs e'
            | TextNode _ _ _ => e'
            end = Legacy.exportNodes e') as Hattrs.
  { intros e'. destruct node; [done|]. apply fold_attrStep_exportNodes. }
  destruct (parent node) as [p|]; [destruct (existsb _ templates)|];
    cbn [Legacy.exportNodes]; rewrite Hattrs; cbn [Legacy.exportNodes];
    by rewrite ?app_nil_r.
Qed.

Lemma fold_nodeStep_exportNodes m templates l : ∀ e,
  ∃ more, Legacy.exportNodes (fold_left (Legacy.nodeStep trimAny decode m templates) l e)
            = Legacy.exportNodes e ++ more.
Proof.
  induction l as [|n l IH]; intros e; cbn [fold_left]; [exists []; by rewrite app_nil_r|].
  destruct (IH (Legacy.nodeStep trimAny decode m templates e n)) as [more ->].
  rewrite nodeStep_exportNodes, <- app_assoc. by eexists.
Qed.

Lemma legacy_flat_grow l : ∀ acc : gset N * list Node,
  ∃ more,
    (fold_left
       (λ (acc : gset N * list Node) node,
          if bool_decide (refId node ∈ acc.1) then acc
          else ({[refId node]} ∪ acc.1, acc.2 ++ [node])) l acc).2 = acc.2 ++ more.
Proof.
  induction l as [|x l IH]; intros acc; cbn [fold_left]; [exists []; by rewrite app_nil_r|].
  case_bool_decide; [apply IH|].
  destruct (IH ({[refId x]} ∪ acc.1, acc.2 ++ [x])) as [more ->].
  cbn [snd]. rewrite <- app_assoc. by eexists.
Qed.

Lemma legacy_flat_head n0 rest : ∃ l, Legacy.flat (n0 :: rest) = n0 :: l.
Proof.
  unfold Legacy.flat.
  assert (∃ tl, Legacy.walkAll (n0 :: rest) = n0 :: tl) as [tl ->]
    by (destruct n0; by eexists).
  cbn [fold_left fst snd]. rewrite bool_decide_eq_false_2 by set_solver.
  destruct (legacy_flat_grow tl ({[refId n0]} ∪ ∅, [] ++ [n0])) as [more ->].
  by eexists.
Qed.

(** X18. On a document whose first root node outside the template, script
    and style elements has no parent, the earlier [compile] raises a
    [TypeError] exactly when the last root [script] element of the
    document is empty; otherwise it returns code. *)
Theorem legacy_compile_throws_on_empty_script parsed n0 rest :
  filter (λ n, Legacy.isSpecialTag n = false) parsed = n0 :: rest →
  parent n0 = None →
  (Legacy.compile trimAny decode parsed = Legacy.TypeError ↔
   ∃ r p t a others,
     filter (λ n, Legacy.hasTag "script" n = true) (reverse parsed)
       = TagNode r p t a [] :: others).
Proof.
  intros Hnodes Hroot. unfold Legacy.compile. rewrite Hnodes.
  destruct (legacy_flat_head n0 rest) as [l ->]. cbn [fold_left].
  match goal with |- context [fold_left (Legacy.nodeStep _ _ ?m ?t) l ?e] =>
    destruct (fold_nodeStep_exportNodes m t l e) as [more Hexp];
    rewrite nodeStep_exportNodes, Hroot in Hexp; cbn [Legacy.exportNodes app] in Hexp;
    generalize dependent (fold_left (Legacy.nodeStep trimAny decode m t) l e) end.
  intros e Hexp. rewrite Hexp.
  destruct (filter _ (reverse parsed)) as [|[r p s|r p t a [|[r1 p1 s1|r1 p1 t1 a1 ch1] ch]] others].
  - split; [done|]. by intros (? & ? & ? & ? & ? & ?).
  - split; [done|]. by intros (? & ? & ? & ? & ? & ?).
  - split; [intros _; by eexists _, _, _, _, _|done].
  - split; [done|]. by intros (? & ? & ? & ? & ? & ?).
  - split; [done|]. by intros (? & ? & ? & ? & ? & ?).
Qed.

End LegacyCompile.

Lemma legacy_compile_throws_on_empty_script_witness :
  Legacy.compile trimAnyModel decodePlain
    [TagNode 1 None "div" [] []; TagNode 2 None "script" [] []] = Legacy.TypeError.
Proof.
  apply (legacy_compile_throws_on_empty_script trimAnyModel decodePlain
           [TagNode 1 None "div" [] []; TagNode 2 None "script" [] []]
           (TagNode 1 None "div" [] []) []).
  - reflexivity.
  - reflexivity.
  - exists 2%N, None, "script", [], []. reflexivity.
Defined.

(** ** [indent] on any text *)

Lemma indentLine_fold l : ∀ code,
  fold_left
    (λ code part,
       let part := JS.trim part in
       (if JS.truthy part then code +:+ "  " +:+ part else code) +:+ nl) l code
  = code +:+ textOfLines (map indentLine l).
Proof.
  induction l as [|x l IH]; intros code; cbn [fold_left map].
  - change (textOfLines []) with "". by rewrite app_nil_r_s.
  - rewrite IH, textOfLines_cons. unfold indentLine. cbv zeta.
    destruct (JS.truthy (JS.trim x)); by rewrite ?app_assoc_s.
Qed.

Lemma joinLines_cons_char c x xs :
  joinLines (String c x :: xs) = String c (joinLines (x :: xs)).
Proof. by destruct xs. Qed.

Lemma joinLines_linesOf s : joinLines (linesOf s) = s.
Proof.
  unfold linesOf. induction s as [|c s IH]; [done|]. cbn [JS.split].
  destruct (split_nonempty (λ c, Ascii.eqb c "010"%char) s) as (x & xs & Hs).
  rewrite Hs in *. destruct (Ascii.eqb_spec c "010"%char) as [->|_].
  - change (joinLines ("" :: x :: xs)) with ("" +:+ nl +:+ joinLines (x :: xs)).
    by rewrite IH.
  - by rewrite joinLines_cons_char, IH.
Qed.

Lemma noNewline_allChars s : noNewline s = allChars (λ c, negb (isNewline c)) s.
Proof. induction s as [|c s IH]; [done|]. cbn. by rewrite IH. Qed.

(** X19. [indent] works line by line: it cuts the text at the line breaks,
    and gives back one line per piece, in order, each piece without the
    white space at its ends and after two spaces, or an empty line when
    the piece holds white space only.  The pieces are the lines of the
    text: they hold no line break, and joined by line breaks they give the
    text back. *)
Theorem indent_line_by_line s :
  indent s = textOfLines (map indentLine (linesOf s)) ∧
  Forall (λ x, noNewline x = true) (linesOf s) ∧
  joinLines (linesOf s) = s.
Proof.
  split; [|split; [|apply joinLines_linesOf]].
  - unfold indent. rewrite indentLine_fold. done.
  - eapply Forall_impl; [apply (split_no_sep (λ c, Ascii.eqb c "010"%char))|].
    intros x Hx. by rewrite noNewline_allChars.
Qed.

(** ** The parser *)

Lemma parseTokens_eq tokens :
  parseTokens tokens = st ← parseFrom (Some parseInit) tokens; Some (attach (flatNodes st)).
Proof. done. Qed.

Lemma parseFrom_None tokens : parseFrom None tokens = None.
Proof. induction tokens as [|tok tokens IH]; [done|exact IH]. Qed.

Lemma parseFrom_cons st tok tokens :
  parseFrom (Some st) (tok :: tokens) = parseFrom (parseStep st tok) tokens.
Proof. done. Qed.

Lemma normalizeValue_idem raw : normalizeValue (normalizeValue raw) = normalizeValue raw.
Proof.
  unfold normalizeValue at 1. rewrite replaceRuns_id; [apply trim_idem|].
  apply allChars_trim. by destruct (replaceRuns_clean isNewlineLike false raw).
Qed.

Lemma normalizeLineBreaks_starts s :
  startsClean s = true → startsClean (normalizeLineBreaks s) = true.
Proof.
  destruct s as [|c [|c' s]]; [done|done|]. cbn [normalizeLineBreaks startsClean].
  intros Hc. destruct (Ascii.eqb_spec c "013"%char) as [->|_]; [done|]. cbn. exact Hc.
Qed.

Lemma normalizeLineBreaks_cons c c' s :
  normalizeLineBreaks (String c (String c' s)) =
    if Ascii.eqb c "013"%char && Ascii.eqb c' "010"%char
    then normalizeLineBreaks (String c' s)
    else String c (normalizeLineBreaks (String c' s)).
Proof. done. Qed.

Lemma normalizeLineBreaks_ends s :
  endsClean s = true → endsClean (normalizeLineBreaks s) = true.
Proof.
  induction s as [|c s IH]; [done|]. destruct s as [|c' s]; [done|].
  intros He. specialize (IH He). rewrite normalizeLineBreaks_cons.
  destruct (Ascii.eqb c "013" && Ascii.eqb c' "010"); [exact IH|].
  destruct (normalizeLineBreaks (String c' s)) as [|c1 s1] eqn:Hn; [done|]. exact IH.
Qed.

(** The text that [ontext] keeps is clean at both ends. *)
Lemma kept_text_clean text :
  JS.truthy (normalizeLineBreaks (JS.trim text)) = true →
  startsClean (normalizeLineBreaks (JS.trim text)) = true ∧
  endsClean (normalizeLineBreaks (JS.trim text)) = true.
Proof.
  destruct (trim_result text) as [->|[Hs He]]; [done|]. intros _.
  split; [by apply normalizeLineBreaks_starts|by apply normalizeLineBreaks_ends].
Qed.

Lemma fmap_alter_same {A B} (f : A → B) (g : A → A) i (l : list A) :
  (∀ x, f (g x) = f x) → f <$> alter g i l = f <$> l.
Proof.
  intros Hfg. apply list_eq. intros j. rewrite !list_lookup_fmap.
  destruct (decide (j = i)) as [->|Hne].
  - rewrite list_lookup_alter_eq. destruct (l !! i); cbn; [by rewrite Hfg|done].
  - by rewrite list_lookup_alter_ne.
Qed.

Lemma nodeOK_appendText text node :
  startsClean text = true → endsClean text = true →
  nodeOK node = true → nodeOK (appendText text node) = true.
Proof.
  intros Hs He. destruct node as [r p s|r p t a ch]; [|done].
  unfold nodeOK. cbn [parent appendText].
  intros [Hp [Hss _]%andb_true_iff]%andb_true_iff.
  by rewrite Hp, startsClean_app, endsClean_app.
Qed.

Lemma head_stack_tag (stack : list Node) :
  Forall (λ n, isTagNode n = true) stack →
  match head stack with Some p => isTagNode p | None => true end = true.
Proof. by intros [|p stack' Hp _]. Qed.

Lemma parse_inv_push st node :
  parse_inv st → refId node = (refCount st + 1)%N → nodeOK node = true →
  NoDup (refId <$> (flatNodes st ++ node :: nodeStack st)) ∧
  Forall (λ n, (refId n ≤ refCount st + 1)%N) (flatNodes st ++ node :: nodeStack st) ∧
  Forall (λ n, nodeOK n = true) (flatNodes st ++ node :: nodeStack st).
Proof.
  intros (Hnd & Hle & Hok & _) Hid Hnode. split; [|split].
  - rewrite <- Permutation_middle. cbn [fmap list_fmap]. constructor; [|done].
    intros (y & Hy & Hin)%list_elem_of_fmap. rewrite Forall_forall in Hle.
    specialize (Hle y Hin). rewrite <- Hy, Hid in Hle. lia.
  - rewrite <- Permutation_middle. constructor; [lia|].
    eapply Forall_impl; [exact Hle|]. intros y Hy. cbn in Hy. lia.
  - rewrite <- Permutation_middle. by constructor.
Qed.

Lemma parseStep_inv st tok st' :
  parse_inv st → parseStep st tok = Some st' → parse_inv st'.
Proof.
  intros Hinv. pose proof Hinv as (Hnd & Hle & Hok & Htags).
  destruct tok as [nm attribs| |text]; cbn [parseStep].
  - intros [= <-]. cbn [flatNodes nodeStack refCount].
    set (node := TagNode _ _ _ _ _).
    assert (nodeOK node = true) as Hnode.
    { unfold nodeOK. cbn [parent node]. rewrite head_stack_tag by done. cbn [andb].
      unfold normalizeAttributes. rewrite forallb_forall. intros a Ha.
      apply in_map_iff in Ha as (kv & <- & _). cbn [value].
      rewrite normalizeValue_idem. apply String.eqb_refl. }
    destruct (parse_inv_push st node Hinv eq_refl Hnode) as (? & ? & ?).
    unfold parse_inv. cbn [flatNodes nodeStack refCount].
    split; [done|]. split; [done|]. split; [done|]. by constructor.
  - destruct (nodeStack st) as [|node rest] eqn:Hst; [done|]. intros [= <-].
    unfold parse_inv. cbn [flatNodes nodeStack refCount]. rewrite <- !app_assoc. cbn [app].
    split; [done|]. split; [done|]. split; [done|]. by apply Forall_cons in Htags as [_ ?].
  - destruct (negb _ || _) eqn:Hskip; [by intros [= <-]|].
    apply orb_false_iff in Hskip as [Htruthy%negb_false_iff _].
    destruct (kept_text_clean text Htruthy) as [Hs He].
    destruct (lastIsText st).
    + intros [= <-]. unfold parse_inv. cbn [flatNodes nodeStack refCount].
      split; [|split; [|split]].
      * rewrite fmap_app, fmap_alter_same, <- fmap_app; [done|]. by intros [].
      * apply Forall_app in Hle as [Hl1 Hl2]. apply Forall_app. split; [|done].
        apply Forall_alter; [done|]. by intros [] _.
      * apply Forall_app in Hok as [Hl1 Hl2]. apply Forall_app. split; [|done].
        apply Forall_alter; [done|]. intros x _. by apply nodeOK_appendText.
      * done.
    + intros [= <-]. cbn [flatNodes nodeStack refCount].
      set (node := TextNode _ _ _).
      assert (nodeOK node = true) as Hnode.
      { unfold nodeOK. cbn [parent node]. rewrite head_stack_tag by done. by rewrite Hs, He. }
      destruct (parse_inv_push st node Hinv eq_refl Hnode) as (H1 & H2 & H3).
      unfold parse_inv. cbn [flatNodes nodeStack refCount].
      rewrite <- !app_assoc. cbn [app]. split; [done|]. split; [done|]. by split.
Qed.

Lemma parseFrom_inv tokens : ∀ st st',
  parse_inv st → parseFrom (Some st) tokens = Some st' → parse_inv st'.
Proof.
  induction tokens as [|tok tokens IH]; intros st st' Hinv.
  - by intros [= <-].
  - rewrite parseFrom_cons. destruct (parseStep st tok) as [st1|] eqn:Hstep.
    + apply IH. by apply (parseStep_inv st tok).
    + by rewrite parseFrom_None.
Qed.

Lemma parse_inv_init : parse_inv parseInit.
Proof. repeat split; constructor. Qed.

Lemma allNodes_app l1 l2 : allNodes (l1 ++ l2) = allNodes l1 ++ allNodes l2.
Proof. apply flat_map_app. Qed.

Lemma allNodes_single y : allNodes [y] = y :: allNodes (childrenOf y).
Proof. unfold allNodes. cbn [flat_map]. rewrite app_nil_r. by destruct y. Qed.

Lemma idsOf_app l1 l2 : idsOf (l1 ++ l2) = idsOf l1 ++ idsOf l2.
Proof. unfold idsOf. by rewrite allNodes_app, fmap_app. Qed.

Lemma idsOf_single y : idsOf [y] = refId y :: idsOf (childrenOf y).
Proof. unfold idsOf. by rewrite allNodes_single. Qed.

Lemma attachStep_gathered acc x k :
  gathered (attachStep acc x) k =
    gathered acc k ++ (if decide (targetOf x = Some k) then [fill acc x] else []).
Proof.
  unfold attachStep, targetOf. fold (fill acc x).
  destruct (parent x) as [p|]; [destruct (isTagNode p)|]; destruct k as [r|];
    cbn [gathered fst snd]; rewrite ?lookup_insert;
    repeat case_decide; simplify_eq; by rewrite ?app_nil_r.
Qed.

Lemma targetOf_parent x k : targetOf x = Some k → refId <$> parent x = k.
Proof.
  unfold targetOf. destruct (parent x) as [p|]; [|by intros [= <-]].
  destruct (isTagNode p); [by intros [= <-]|done].
Qed.

Lemma fill_facts acc x :
  refId (fill acc x) = refId x ∧ parent (fill acc x) = parent x ∧
  nodeOK (fill acc x) = nodeOK x ∧
  (childrenOf (fill acc x) = [] ∨
   childrenOf (fill acc x) = gathered acc (Some (refId x))).
Proof. destruct x as [r p s|r p t a ch]; cbn; auto. Qed.

Lemma attachStep_inv reached acc x :
  attach_inv reached acc → refId x ∉ reached → nodeOK x = true →
  attach_inv (reached ++ [refId x]) (attachStep acc x).
Proof.
  intros [Hi Hii] Hfresh Hok.
  destruct (fill_facts acc x) as (Hid & Hpar & Hnode & Hkids).
  set (filled := fill acc x) in *. set (r := refId x) in *.
  assert (∀ k, isLive (reached ++ [r]) k → isLive reached k ∧ k ≠ Some r) as Hlive.
  { intros [q|]; cbn; [|done]. rewrite elem_of_app, list_elem_of_singleton.
    intros Hq. split; [tauto|]. intros [= ->]. tauto. }
  assert (NoDup (idsOf (childrenOf filled)) ∧
          (∀ i, i ∈ idsOf (childrenOf filled) → i ∈ reached) ∧
          Forall (λ y, nodeOK y = true ∧ holdsChildren y) (allNodes (childrenOf filled)) ∧
          Forall (λ c, refId <$> parent c = Some r) (childrenOf filled) ∧
          (∀ k, isLive reached k → k ≠ Some r →
             ∀ i, i ∈ idsOf (gathered acc k) → i ∈ idsOf (childrenOf filled) → False))
    as (Hc1 & Hc2 & Hc3 & Hc4 & Hc5).
  { destruct Hkids as [->| ->].
    - repeat split; try constructor; intros; by repeat match goal with
        | H : _ ∈ idsOf [] |- _ => apply elem_of_nil in H end.
    - destruct (Hi (Some r) Hfresh) as (? & ? & ? & ?). repeat split; try done.
      intros k Hk Hne. by apply Hii. }
  assert (holdsChildren filled) as Hholds by (unfold holdsChildren; by rewrite Hid).
  assert (∀ l, idsOf (l ++ [filled]) = idsOf l ++ r :: idsOf (childrenOf filled)) as Hids.
  { intros l. by rewrite idsOf_app, idsOf_single, Hid. }
  split.
  - intros k Hk. destruct (Hlive k Hk) as [Hk0 Hne].
    destruct (Hi k Hk0) as (Hnd & Hsub & Hall & Hp).
    rewrite attachStep_gathered. case_decide as Ht.
    + fold filled. rewrite Hids, allNodes_app, allNodes_single. split; [|split; [|split]].
      * apply NoDup_app. split; [done|]. split.
        -- intros i Hi1 [->|Hi2]%elem_of_cons; [by apply Hfresh, Hsub|].
           by apply (Hc5 k Hk0 Hne i).
        -- constructor; [|done]. intros Hr. by apply Hfresh, Hc2.
      * intros i. rewrite !elem_of_app, elem_of_cons, list_elem_of_singleton.
        intros [?|[?|?]]; auto.
      * apply Forall_app. split; [done|]. constructor; [|done]. by rewrite Hnode.
      * apply Forall_app. split; [done|]. constructor; [|done].
        rewrite Hpar. by apply targetOf_parent.
    + rewrite app_nil_r. split; [done|]. split; [|done].
      intros i Hin. apply elem_of_app. left. by apply Hsub.
  - intros k1 k2 Hk1 Hk2 Hne i.
    destruct (Hlive k1 Hk1) as [Hl1 Hn1], (Hlive k2 Hk2) as [Hl2 Hn2].
    destruct (Hi k1 Hl1) as (_ & Hsub1 & _), (Hi k2 Hl2) as (_ & Hsub2 & _).
    rewrite !attachStep_gathered. fold filled.
    case_decide as Ht1; case_decide as Ht2; rewrite ?app_nil_r, ?Hids.
    + congruence.
    + intros [H1|[->|H1]%elem_of_cons]%elem_of_app H2.
      * by apply (Hii k1 k2 Hl1 Hl2 Hne i).
      * by apply Hfresh, Hsub2.
      * by apply (Hc5 k2 Hl2 Hn2 i).
    + intros H1 [H2|[->|H2]%elem_of_cons]%elem_of_app.
      * by apply (Hii k1 k2 Hl1 Hl2 Hne i).
      * by apply Hfresh, Hsub1.
      * by apply (Hc5 k1 Hl1 Hn1 i).
    + by apply Hii.
Qed.

Lemma attach_fold flat : ∀ reached acc,
  attach_inv reached acc → NoDup (reached ++ (refId <$> flat)) →
  Forall (λ n, nodeOK n = true) flat →
  attach_inv (reached ++ (refId <$> flat)) (foldl attachStep acc flat).
Proof.
  induction flat as [|x flat IH]; intros reached acc Hinv Hnd Hok; cbn [foldl fmap list_fmap].
  - by rewrite app_nil_r.
  - apply Forall_cons in Hok as [Hx Hok]. cbn [fmap list_fmap] in Hnd.
    replace (reached ++ refId x :: (refId <$> flat))
      with ((reached ++ [refId x]) ++ (refId <$> flat)) in * by (by rewrite <- app_assoc).
    apply IH; [|done|done]. apply attachStep_inv; [done| |done].
    apply NoDup_app in Hnd as (Hnd & _ & _). apply NoDup_app in Hnd as (_ & Hd & _).
    intros Hin. apply (Hd _ Hin). apply list_elem_of_here.
Qed.

(** What [parse] returns, from the state its callbacks leave. *)
Lemma attach_result st :
  parse_inv st →
  Forall (λ n, parent n = None) (attach (flatNodes st)) ∧
  NoDup (refId <$> allNodes (attach (flatNodes st))) ∧
  Forall (λ y, nodeOK y = true ∧ holdsChildren y) (allNodes (attach (flatNodes st))).
Proof.
  intros (Hnd & _ & Hok & _).
  rewrite fmap_app in Hnd. apply NoDup_app in Hnd as (Hnd & _ & _).
  apply Forall_app in Hok as [Hok _].
  assert (attach_inv [] (∅, [])) as Hinit.
  { split.
    - intros [r|] _; cbn; rewrite ?lookup_empty; cbn; repeat split; try constructor;
        intros i Hi; by apply elem_of_nil in Hi.
    - intros [r1|] k2 _ _ _ i; cbn; rewrite ?lookup_empty; cbn;
        intros Hi; by apply elem_of_nil in Hi. }
  destruct (attach_fold (flatNodes st) [] (∅, []) Hinit Hnd Hok) as [Hi _].
  destruct (Hi None I) as (H1 & _ & H3 & H4). unfold attach. cbn [gathered] in *.
  split; [|by split]. eapply Forall_impl; [exact H4|]. intros c Hc. cbn in Hc.
  by destruct (parent c).
Qed.

Lemma parseFrom_nested tokens : ∀ st,
  is_Some (parseFrom (Some st) tokens) ↔ nested (length (nodeStack st)) tokens = true.
Proof.
  induction tokens as [|tok tokens IH]; intros st; [by split; [|eexists]|].
  rewrite parseFrom_cons. destruct tok as [nm attribs| |text]; cbn [parseStep nested].
  - by rewrite IH.
  - destruct (nodeStack st) as [|node rest] eqn:Hst; cbn [length].
    + rewrite parseFrom_None. split; [by intros [? ?]|done].
    + by rewrite IH.
  - destruct (negb _ || _); [apply IH|]. destruct (lastIsText st); by rewrite IH.
Qed.

(** X20. The forest that [parse] returns is well linked: its roots have no
    parent, every child names the node that holds it as its parent, and
    no two nodes of the forest carry the same ref id. *)
Theorem parse_builds_linked_forest tokens nodes :
  parseTokens tokens = Some nodes →
  Forall (λ n, parent n = None) nodes ∧
  Forall holdsChildren (allNodes nodes) ∧
  NoDup (refId <$> allNodes nodes).
Proof.
  rewrite parseTokens_eq.
  destruct (parseFrom (Some parseInit) tokens) as [st|] eqn:Hrun; [|done].
  intros [= <-].
  destruct (attach_result st (parseFrom_inv tokens _ _ parse_inv_init Hrun))
    as (Hroots & Hnd & Hall).
  split; [done|]. split; [|done].
  eapply Forall_impl; [exact Hall|]. by intros y [_ ?].
Qed.

Lemma parse_builds_linked_forest_witness :
  Forall (λ n, parent n = None) divDoc ∧
  Forall holdsChildren (allNodes divDoc) ∧
  NoDup (refId <$> allNodes divDoc).
Proof.
  apply (parse_builds_linked_forest divTokens divDoc). vm_compute. reflexivity.
Defined.

(** X21. Every node that [parse] returns is normalized: a text node holds
    text that is not empty and has no white space at its ends, the
    attribute values of a tag are unchanged by normalizing them again, and
    a parent link always leads to a tag. *)
Theorem parse_normalizes_nodes tokens nodes :
  parseTokens tokens = Some nodes →
  Forall (λ y, nodeOK y = true) (allNodes nodes).
Proof.
  rewrite parseTokens_eq.
  destruct (parseFrom (Some parseInit) tokens) as [st|] eqn:Hrun; [|done].
  intros [= <-].
  destruct (attach_result st (parseFrom_inv tokens _ _ parse_inv_init Hrun))
    as (_ & _ & Hall).
  eapply Forall_impl; [exact Hall|]. by intros y [? _].
Qed.

Lemma parse_normalizes_nodes_witness :
  Forall (λ y, nodeOK y = true) (allNodes divDoc).
Proof.
  apply (parse_normalizes_nodes divTokens divDoc). vm_compute. reflexivity.
Defined.

(** X22. [parse] returns a forest exactly when the tokenizer's events
    never close more tags than they have opened, as the tokenizer
    guarantees; an event that closes a tag when none is open makes it
    fail, on the node popped from the empty stack, and tags left open do
    not. *)
Theorem parse_succeeds_iff_nested tokens :
  is_Some (parseTokens tokens) ↔ nested 0 tokens = true.
Proof.
  rewrite parseTokens_eq, <- (parseFrom_nested tokens parseInit).
  destruct (parseFrom (Some parseInit) tokens) as [st|]; cbn.
  - split; intros _; by eexists.
  - split; by intros [? ?].
Qed.

Lemma elem_of_flat_map {A B} (f : A → list B) (l : list A) (y : B) :
  y ∈ flat_map f l ↔ ∃ x, x ∈ l ∧ y ∈ f x.
Proof.
  induction l as [|a l IH]; cbn [flat_map].
  - split; [by intros ?%elem_of_nil|by intros (? & ?%elem_of_nil & _)].
  - rewrite elem_of_app, IH. split.
    + intros [?|(x & ? & ?)]; [exists a|exists x]; split; auto using list_elem_of_here,
        list_elem_of_further.
    + intros (x & [->|?]%elem_of_cons & ?); [by left|right; by exists x].
Qed.

Lemma nodesOf_root_or_child x c :
  c ∈ nodesOf x → c = x ∨ ∃ y, y ∈ nodesOf x ∧ c ∈ childrenOf y.
Proof.
  induction x as [r p t|r p t a ch IH] using Node_tree_ind.
  - intros [->|?%elem_of_nil]%elem_of_cons; [by left|done].
  - cbn [nodesOf]. intros [->|Hin]%elem_of_cons; [by left|]. right.
    apply elem_of_flat_map in Hin as (z & Hz & Hc).
    rewrite Forall_forall in IH. destruct (IH z Hz Hc) as [->|(y & Hy & Hcy)].
    + exists (TagNode r p t a ch). split; [apply list_elem_of_here|done].
    + exists y. split; [|done]. apply list_elem_of_further, elem_of_flat_map. by exists z.
Qed.

Lemma allNodes_root_or_child nodes c :
  c ∈ allNodes nodes → c ∈ nodes ∨ ∃ y, y ∈ allNodes nodes ∧ c ∈ childrenOf y.
Proof.
  intros (z & Hz & Hc)%elem_of_flat_map.
  destruct (nodesOf_root_or_child z c Hc) as [->|(y & Hy & Hcy)]; [by left|right].
  exists y. split; [|done]. apply elem_of_flat_map. by exists z.
Qed.

(** X23. The declared tree of a parsed document is the parsed tree: a
    node is a child of another in the forest that [parse] returns exactly
    when the declared node of the first has the declared node of the
    second as its parent, and exactly when it is in the [children] of that
    declared node. *)
Theorem declared_tree_of_parsed_document trimAny decode tokens nodes i k x c :
  parseTokens tokens = Some nodes →
  allNodes nodes !! i = Some x → allNodes nodes !! k = Some c →
  (c ∈ childrenOf x ↔
   dparent <$> (declareAll trimAny decode nodes).2 !! k = Some (Some i)) ∧
  (c ∈ childrenOf x ↔
   ∃ dx, (declareAll trimAny decode nodes).2 !! i = Some dx ∧ k ∈ dchildren dx).
Proof.
  rewrite parseTokens_eq.
  destruct (parseFrom (Some parseInit) tokens) as [st|] eqn:Hrun; [|done].
  intros [= <-] Hi Hk.
  destruct (attach_result st (parseFrom_inv tokens _ _ parse_inv_init Hrun))
    as (Hroots & Hnd & Hall).
  set (nodes := attach (flatNodes st)) in *.
  rewrite Forall_forall in Hroots, Hall.
  assert (∀ j y, allNodes nodes !! j = Some y → c ∈ childrenOf y →
            dparent <$> (declareAll trimAny decode nodes).2 !! k = Some (Some j)) as Hdown.
  { intros j y Hj Hc.
    destruct (Hall y (list_elem_of_lookup_2 _ _ _ Hj)) as [_ Hy].
    unfold holdsChildren in Hy. rewrite Forall_forall in Hy.
    apply (declared_parent_link trimAny decode nodes j k y c); [done..| |by apply Hy].
    destruct (allNodes_child_after nodes j y c Hj Hc) as [j' Hj'].
    pose proof (NoDup_lookup _ _ _ _ (NoDup_fmap_1 _ _ Hnd) Hk Hj'). lia. }
  assert (dparent <$> (declareAll trimAny decode nodes).2 !! k = Some (Some i) →
          c ∈ childrenOf x) as Hup.
  { intros Hp.
    destruct (allNodes_root_or_child nodes c (list_elem_of_lookup_2 _ _ _ Hk))
      as [Hroot|(y & Hy & Hcy)].
    - exfalso. specialize (Hroots c Hroot).
      destruct (mirror_declareAll trimAny decode nodes) as (m & _ & Hw & _ & Hpar & _).
      cbn [snd] in *. destruct ((declareAll trimAny decode nodes).2 !! k) as [dc|] eqn:Hdc; [|done]. injection Hp as Hp.
      rewrite (Hpar k c dc Hk Hdc) in Hp. unfold parentIndex in Hp. by rewrite Hroots in Hp.
    - apply list_elem_of_lookup_1 in Hy as [j Hj].
      pose proof (Hdown j y Hj Hcy) as Hp'. rewrite Hp in Hp'. injection Hp' as <-.
      rewrite Hi in Hj. by injection Hj as <-. }
  split; [split; [apply (Hdown i x Hi)|exact Hup]|]. split.
  - intros Hc. assert (isTagNode x = true) as Htag
      by (destruct x; [by apply elem_of_nil in Hc|done]).
    destruct (declared_parent_lists_child trimAny decode nodes i k x Hi Htag
                (Hdown i x Hi Hc)) as (dx & ? & _ & ?).
    by exists dx.
  - intros (dx & Hdx & Hin). apply Hup.
    destruct (declareAll_wf trimAny decode nodes) as [[Hwf _] _].
    by destruct (Hwf i dx Hdx) as [_ Hch]; destruct (Hch k Hin).
Qed.

Lemma declared_tree_of_parsed_document_witness :
  ∃ x c,
    allNodes divDoc !! 0 = Some x ∧ allNodes divDoc !! 1 = Some c ∧
    (c ∈ childrenOf x ↔
     dparent <$> (declareAll trimAnyModel decodePlain divDoc).2 !! 1 = Some (Some 0)) ∧
    (c ∈ childrenOf x ↔
     ∃ dx, (declareAll trimAnyModel decodePlain divDoc).2 !! 0 = Some dx ∧ 1 ∈ dchildren dx).
Proof.
  destruct (allNodes divDoc !! 0) as [x|] eqn:Hx; [|discriminate].
  destruct (allNodes divDoc !! 1) as [c|] eqn:Hc; [|discriminate].
  assert (parseTokens divTokens = Some divDoc) as Hparse by (vm_compute; reflexivity).
  exists x, c. split; [done|]. split; [done|].
  apply (declared_tree_of_parsed_document trimAnyModel decodePlain divTokens divDoc 0 1 x c
           Hparse Hx Hc).
Defined.

(** ** What the output does not depend on *)

Section Skeleton.
Variable trimAny : string → list string → string.
Variable decode : string → string.

Lemma skeleton_fields d :
  nameof (skeleton d) = nameof d ∧ dparent (skeleton d) = dparent d ∧
  dchildren (skeleton d) = dchildren d ∧ isText (skeleton d) = isText d ∧
  devents (skeleton d) = map skeletonEvent (devents d) ∧
  creationStatement (skeleton d) = creationStatement d ∧
  dattributes (skeleton d) = dattributes d ∧
  scriptChunk (0, skeleton d) = scriptChunk (0, d).
Proof. by destruct d. Qed.

Lemma skeleton_setParent d p : skeleton (setParent d p) = setParent (skeleton d) p.
Proof. by destruct d. Qed.

Lemma skeleton_pushChild l d : skeleton (pushChild l d) = pushChild l (skeleton d).
Proof. by destruct d. Qed.

Lemma prepareNodes_skeleton h l :
  prepareNodes (skeleton <$> h) l = prepareNodes h l.
Proof.
  unfold prepareNodes.
  generalize {| rootNodes := []; templates := []; scripts := []; styles := [] |}.
  induction l as [|n l IH]; intros acc; [done|]. cbn [fold_left]. rewrite IH. f_equal.
  unfold prepareStep. rewrite list_lookup_fmap. destruct (h !! n) as [d|]; [|done].
  cbn [fmap option_fmap option_map]. destruct (skeleton_fields d) as (_ & -> & _).
  by destruct d.
Qed.

Lemma preorder_skeleton h fuel : ∀ nodes,
  preorder fuel (skeleton <$> h) nodes
    = map (λ x, (x.1, skeleton x.2)) <$> preorder fuel h nodes.
Proof.
  induction fuel as [|fuel IHf]; intros nodes; [done|].
  induction nodes as [|n l IHl]; [done|].
  rewrite !preorder_cons, list_lookup_fmap. destruct (h !! n) as [d|]; [|done].
  cbn [fmap option_fmap option_map mbind option_bind].
  destruct (skeleton_fields d) as (_ & _ & -> & -> & _).
  rewrite IHl.
  assert ((if isText d then Some [] else preorder fuel (skeleton <$> h) (dchildren d))
          = map (λ x, (x.1, skeleton x.2))
              <$> (if isText d then Some [] else preorder fuel h (dchildren d))) as ->
    by (destruct (isText d); [done|apply IHf]).
  destruct (if isText d then _ else _) as [sub|]; [|done].
  cbn [fmap option_fmap option_map mbind option_bind].
  destruct (preorder (S fuel) h l) as [rest|]; [|done].
  cbn [fmap option_fmap option_map mbind option_bind map fst snd]. by rewrite map_app.
Qed.

Lemma compileHtml_skeleton h d :
  compileHtml (skeleton <$> h) (skeleton d) = compileHtml h d.
Proof.
  rewrite !compileHtml_eq.
  destruct (skeleton_fields d) as (Hn & Hp & _ & _ & _ & Hc & Ha & _).
  rewrite Hn, Hc, Ha. do 2 f_equal. unfold appendPart, appendStatement. rewrite Hp, Hn.
  destruct (dparent d) as [q|]; [|done]. rewrite list_lookup_fmap.
  destruct (h !! q) as [e|]; [|done]. cbn.
  by destruct (skeleton_fields e) as (-> & _).
Qed.

Lemma eventStatement_skeleton d :
  map eventStatement (bindings (0, skeleton d)) = map eventStatement (bindings (0, d)).
Proof.
  unfold bindings. cbn [snd]. destruct (skeleton_fields d) as (Hn & _ & _ & _ & -> & _).
  rewrite !map_map. apply map_ext. intros e. unfold eventStatement. cbn. by rewrite Hn.
Qed.

(** The output is read off the skeleton of the declared tree. *)
Lemma outputOf_skeleton h declared :
  outputOf (skeleton <$> h) declared = outputOf h declared.
Proof.
  unfold outputOf. rewrite prepareNodes_skeleton, length_fmap, !preorder_skeleton.
  destruct (preorder _ h (rootNodes _)) as [ws|]; [|done].
  destruct (preorder _ h (scripts _)) as [sc|]; [|done].
  cbn [fmap option_fmap option_map mbind option_bind]. do 2 f_equal.
  assert (map (nodeChunk (skeleton <$> h)) (map (λ x, (x.1, skeleton x.2)) ws)
          = map (nodeChunk h) ws) as ->.
  { rewrite map_map. apply map_ext. intros [n d]. unfold nodeChunk. cbn [fst snd].
    by rewrite compileHtml_skeleton. }
  assert (map scriptChunk (map (λ x, (x.1, skeleton x.2)) sc) = map scriptChunk sc) as ->.
  { rewrite map_map. apply map_ext. intros [n d].
    by destruct (skeleton_fields d) as (_ & _ & _ & _ & _ & _ & _ & ?). }
  assert (map eventStatement (flat_map bindings (map (λ x, (x.1, skeleton x.2)) ws))
          = map eventStatement (flat_map bindings ws)) as ->; [|done].
  induction ws as [|[n d] ws IH]; [done|]. cbn [map flat_map fst snd].
  rewrite !map_app, IH. f_equal. apply (eventStatement_skeleton d).
Qed.

Lemma compile_outputOf nodes :
  compile trimAny decode nodes
    = outputOf (declareAll trimAny decode nodes).2 (declareAll trimAny decode nodes).1.
Proof.
  destruct (compile_shape trimAny decode nodes) as (ws & sc & Hws & Hsc & ->).
  unfold outputOf, visited, visitedScripts in *.
  destruct (declareAll trimAny decode nodes) as [declared h]. cbn [fst snd].
  by rewrite Hws, Hsc.
Qed.

Lemma declare_declareNode node p h :
  (declare trimAny decode node p h).2 = declareNode (compileNode trimAny decode node) p h.
Proof.
  unfold declare, declareNode. cbn [snd]. rewrite length_app. cbn [length].
  by replace (length h + 1 - 1) with (length h) by lia.
Qed.

Lemma skeleton_declareNode c p h :
  skeleton <$> declareNode c p h = declareNode (skeleton c) p (skeleton <$> h).
Proof.
  unfold declareNode. rewrite <- skeleton_setParent.
  change [skeleton (setParent c p)] with (skeleton <$> [setParent c p]).
  rewrite <- fmap_app, length_fmap. generalize (h ++ [setParent c p]). intros h'.
  destruct p as [q|]; [|done].
  rewrite list_lookup_fmap. destruct (h' !! q) as [[|]|]; try done.
  cbn [fmap option_fmap option_map skeleton]. apply list_fmap_alter, Forall_forall.
  intros x _. apply skeleton_pushChild.
Qed.

Lemma getParent_same {T} (m : gmap N T) n1 n2 :
  refId <$> parent n1 = refId <$> parent n2 → getParent m n1 = getParent m n2.
Proof.
  unfold getParent. destruct (parent n1), (parent n2); cbn; try done. by intros [= ->].
Qed.

Lemma fold_skeleton w1 w2 :
  Forall2 (sameSkeleton trimAny decode) w1 w2 →
  ∀ m h1 h2, skeleton <$> h1 = skeleton <$> h2 →
    (fold_left (reduceStep (declare trimAny decode)) w1 (m, h1)).1
      = (fold_left (reduceStep (declare trimAny decode)) w2 (m, h2)).1 ∧
    skeleton <$> (fold_left (reduceStep (declare trimAny decode)) w1 (m, h1)).2
      = skeleton <$> (fold_left (reduceStep (declare trimAny decode)) w2 (m, h2)).2.
Proof.
  induction 1 as [|n1 n2 w1 w2 (Hid & Hpar & Hsk) _ IH]; intros m h1 h2 Hh; [done|].
  cbn [fold_left]. rewrite !reduceStep_declare. cbn [fst snd].
  assert (length h1 = length h2) as Hlen
    by (by rewrite <- (length_fmap skeleton h1), Hh, length_fmap).
  rewrite Hid, Hlen, (getParent_same m n1 n2 Hpar). apply IH.
  by rewrite !declare_declareNode, !skeleton_declareNode, Hsk, Hh.
Qed.

Lemma fold_length w : ∀ st,
  length (fold_left (reduceStep (declare trimAny decode)) w st).2 = length st.2 + length w.
Proof.
  induction w as [|n w IH]; intros st; cbn [fold_left length]; [lia|].
  rewrite IH, reduceStep_declare. cbn [snd]. rewrite declare_length. lia.
Qed.

Lemma reduceWalk_positions nodes : ∀ st,
  (reduceWalk (declare trimAny decode) nodes st).1 = rootPositions (length st.2) nodes.
Proof.
  induction nodes as [|c nodes IH]; intros st; [done|].
  rewrite reduceWalk_cons. cbn [rootPositions].
  pose proof (reduceNode_fold (declare trimAny decode) c st) as Hf.
  pose proof (reduceNode_eq (declare trimAny decode) c st) as He.
  destruct (reduceNode _ c st) as [r1 st1]. cbn [snd] in Hf.
  specialize (IH st1). destruct (reduceWalk _ nodes st1) as [rs st2]. cbn [fst] in *.
  f_equal.
  - unfold declare in He. by injection He as -> _.
  - rewrite IH, Hf, fold_length. done.
Qed.

(** Two forests of the same shape whose nodes [compile] cannot tell
    apart give the same output. *)
Lemma compile_same_skeleton nodes1 nodes2 :
  rootPositions 0 nodes1 = rootPositions 0 nodes2 →
  Forall2 (sameSkeleton trimAny decode) (allNodes nodes1) (allNodes nodes2) →
  compile trimAny decode nodes1 = compile trimAny decode nodes2.
Proof.
  intros Hroots Hall. rewrite !compile_outputOf.
  rewrite <- (outputOf_skeleton (declareAll trimAny decode nodes1).2),
          <- (outputOf_skeleton (declareAll trimAny decode nodes2).2).
  unfold declareAll, reduce.
  pose proof (reduceWalk_positions nodes1 (∅, [])) as Hp1.
  pose proof (reduceWalk_positions nodes2 (∅, [])) as Hp2.
  destruct (reduceWalk_fold (declare trimAny decode) nodes1 (∅, [])) as [Hf1 _].
  destruct (reduceWalk_fold (declare trimAny decode) nodes2 (∅, [])) as [Hf2 _].
  destruct (reduceWalk _ nodes1 _) as [rs1 [m1 h1]], (reduceWalk _ nodes2 _) as [rs2 [m2 h2]].
  cbn [fst snd length] in *. subst rs1 rs2. rewrite Hroots.
  destruct (fold_skeleton _ _ Hall ∅ [] [] eq_refl) as [_ Hh].
  rewrite <- Hf1, <- Hf2 in Hh. cbn [snd] in Hh. by rewrite Hh.
Qed.

End Skeleton.

Section Silent.
Variable trimAny : string → list string → string.
Variable decode : string → string.

Lemma stripSilent_svg node :
  shouldRenderAsSvg (stripSilent trimAny node) = shouldRenderAsSvg node.
Proof.
  assert (∀ n, isSvgNode (stripSilent trimAny n) = isSvgNode n) as Hsvg by (by intros []).
  unfold shouldRenderAsSvg. rewrite Hsvg. f_equal.
  induction node as [node IH] using Node_parent_ind.
  destruct node as [r [q|] s|r [q|] t a ch]; cbn [stripSilent option_map hasSvgParent];
    try done; by rewrite Hsvg, (IH q eq_refl).
Qed.

Lemma omap_silent {B} (f : DeclaredAttribute → option B) (a : list NodeAttribute) :
  (∀ v, f (Variable_ v) = None) →
  omap f (omap (compileAttribute trimAny) (filter (λ x, isSilent trimAny x = false) a))
    = omap f (omap (compileAttribute trimAny) a).
Proof.
  intros Hf. induction a as [|x a IH]; [done|]. rewrite filter_cons.
  destruct (decide (isSilent trimAny x = false)) as [Hk|Hk]; unfold isSilent in Hk;
    cbn [omap list_omap];
    destruct (compileAttribute trimAny x) as [[v|r|e|g]|] eqn:Hx; try done;
    cbn [omap list_omap]; rewrite ?Hf, ?IH; done.
Qed.

Lemma stripSilent_same node :
  sameSkeleton trimAny decode (stripSilent trimAny node) node.
Proof.
  split; [by destruct node|]. split.
  { destruct node as [r [q|] s|r [q|] t a ch]; cbn; try done; by destruct q. }
  destruct node as [r p s|r p t a ch]; [done|].
  change (stripSilent trimAny (TagNode r p t a ch))
    with (TagNode r (option_map (stripSilent trimAny) p) t
            (filter (λ x, isSilent trimAny x = false) a) (map (stripSilent trimAny) ch)).
  unfold compileNode.
  change (TagNode r (option_map (stripSilent trimAny) p) t
            (filter (λ x, isSilent trimAny x = false) a) (map (stripSilent trimAny) ch))
    with (stripSilent trimAny (TagNode r p t a ch)).
  rewrite stripSilent_svg. cbn [skeleton]. unfold findRefTag.
  rewrite !omap_silent; done.
Qed.

Lemma stripSilent_nodesOf node :
  nodesOf (stripSilent trimAny node) = stripSilent trimAny <$> nodesOf node.
Proof.
  induction node as [r p t|r p t a ch IH] using Node_tree_ind; [done|].
  cbn [stripSilent nodesOf fmap list_fmap]. f_equal.
  induction IH as [|c ch Hc _ IHch]; [done|].
  cbn [map flat_map]. by rewrite Hc, IHch, fmap_app.
Qed.

Lemma stripSilent_allNodes nodes :
  allNodes (stripSilent trimAny <$> nodes) = stripSilent trimAny <$> allNodes nodes.
Proof.
  unfold allNodes. induction nodes as [|c nodes IH]; [done|].
  cbn [fmap list_fmap flat_map]. by rewrite stripSilent_nodesOf, IH, fmap_app.
Qed.

Lemma stripSilent_positions nodes : ∀ start,
  rootPositions start (stripSilent trimAny <$> nodes) = rootPositions start nodes.
Proof.
  induction nodes as [|c nodes IH]; intros start; [done|].
  cbn [fmap list_fmap rootPositions]. by rewrite stripSilent_nodesOf, length_fmap, IH.
Qed.

(** X24. Variable bindings leave no trace in the generated code: a
    document compiles to the same output with and without the attributes
    that the classifier drops (a name starting with an equals sign) or
    takes for a variable binding (a name in braces, or a value in braces
    under a name that is not an event). *)
Theorem silent_attributes_do_not_change_output nodes :
  compile trimAny decode (stripSilent trimAny <$> nodes) = compile trimAny decode nodes.
Proof.
  apply compile_same_skeleton.
  - apply stripSilent_positions.
  - rewrite stripSilent_allNodes. apply Forall2_fmap_l, Forall_Forall2_diag, Forall_forall.
    intros node _. apply stripSilent_same.
Qed.

End Silent.

(** ** Every node is emitted once *)

Section Once.
Variable trimAny : string → list string → string.
Variable decode : string → string.

Lemma under_le h t v : wf_store h → under h t v → t ≤ v.
Proof.
  intros Hwf. induction 1 as [|c d p Hc Hp _ IH]; [lia|].
  destruct (Hwf c d Hc) as [Hlt _]. specialize (Hlt p Hp). lia.
Qed.

Lemma under_trans h a b c : under h a b → under h b c → under h a c.
Proof.
  intros Hab. induction 1 as [|c d p Hc Hp _ IH]; [done|]. by eapply under_child.
Qed.

Lemma under_linear h a b v : under h a v → under h b v → under h a b ∨ under h b a.
Proof.
  intros Ha. revert b. induction Ha as [|v d p Hv Hp Hap IH]; intros b Hb; [by right|].
  inversion Hb as [|v' d' p' Hv' Hp' Hbp]; subst.
  - left. by eapply under_child.
  - rewrite Hv in Hv'. injection Hv' as <-. rewrite Hp in Hp'. injection Hp' as <-.
    by apply IH.
Qed.

(** Two different nodes with the same declared parent are not above one
    another. *)
Lemma siblings_apart h P a b :
  wf_store h → a ≠ b →
  (∃ d, h !! a = Some d ∧ dparent d = P) → (∃ d, h !! b = Some d ∧ dparent d = P) →
  under h a b → False.
Proof.
  intros Hwf Hne (da & Ha & Hpa) (db & Hb & Hpb) Hu.
  inversion Hu as [|b' d p Hb' Hp Hap]; subst; [done|].
  rewrite Hb in Hb'. injection Hb' as <-.
  pose proof (under_le h a p Hwf Hap). destruct (Hwf a da Ha) as [Hlt _].
  rewrite <- Hpb, Hp in Hlt. specialize (Hlt p eq_refl). lia.
Qed.

Lemma preorder_under h fuel nodes ws :
  wf_store h → preorder fuel h nodes = Some ws →
  ∀ i v dv, ws !! i = Some (v, dv) → ∃ t, t ∈ nodes ∧ under h t v.
Proof.
  intros Hwf Hws i. induction i as [i IH] using lt_wf_ind. intros v dv Hi.
  destruct (preorder_origin _ _ _ _ Hws _ _ _ Hi)
    as [Hv [Hin|(j & p & dp & Hj & Hjp & Hin)]].
  - exists v. split; [done|constructor].
  - destruct (IH j Hj p dp Hjp) as (t & Ht & Hu). exists t. split; [done|].
    destruct (preorder_origin _ _ _ _ Hws _ _ _ Hjp) as [Hp _].
    destruct (Hwf p dp Hp) as [_ Hch]. destruct (Hch v Hin) as [_ Hpar].
    rewrite Hv in Hpar. injection Hpar as Hpar. by eapply under_child.
Qed.

Lemma preorder_NoDup h :
  wf_store h → (∀ p d, h !! p = Some d → NoDup (dchildren d)) →
  ∀ fuel nodes ws P,
    preorder fuel h nodes = Some ws → NoDup nodes →
    (∀ n, n ∈ nodes → ∃ d, h !! n = Some d ∧ dparent d = P) →
    NoDup ws.*1.
Proof.
  intros Hwf Hkids. induction fuel as [|fuel IHf]; [done|].
  induction nodes as [|n l IHl]; intros ws P Hws Hnd Hpar.
  { rewrite preorder_nil in Hws. injection Hws as <-. constructor. }
  pose proof Hws as Hall. rewrite preorder_cons in Hws.
  destruct (h !! n) as [d|] eqn:Hd; [|done]. cbn [mbind option_bind] in Hws.
  destruct (if isText d then Some [] else preorder fuel h (dchildren d))
    as [sub|] eqn:Hsub; [|done]. cbn [mbind option_bind] in Hws.
  destruct (preorder (S fuel) h l) as [rest|] eqn:Hrest; [|done].
  cbn [mbind option_bind] in Hws. injection Hws as <-.
  apply NoDup_cons in Hnd as [Hn Hl].
  assert (∀ c, c ∈ dchildren d → ∃ dc, h !! c = Some dc ∧ dparent dc = Some n) as Hkid.
  { intros c Hc. destruct (Hwf n d Hd) as [_ Hch]. destruct (Hch c Hc) as [_ Hp].
    destruct (h !! c) as [dc|]; [|done]. injection Hp as Hp. by exists dc. }
  assert (∀ v, v ∈ sub.*1 → under h n v ∧ n < v) as Hsub_under.
  { intros v (x & -> & Hx)%list_elem_of_fmap. destruct x as [v dv].
    destruct (isText d); [injection Hsub as <-; by apply elem_of_nil in Hx|].
    apply list_elem_of_lookup_1 in Hx as [i Hi].
    destruct (preorder_under _ _ _ _ Hwf Hsub _ _ _ Hi) as (t & Ht & Hu).
    destruct (Hkid t Ht) as (dt & Hdt & Hpt).
    destruct (Hwf n d Hd) as [_ Hch]. destruct (Hch t Ht) as [Hlt _].
    pose proof (under_le _ _ _ Hwf Hu). split; [|cbn; lia].
    apply (under_trans h n t); [|done]. eapply under_child; [done..|constructor]. }
  assert (∀ v, v ∈ rest.*1 → ∃ t, t ∈ l ∧ under h t v) as Hrest_under.
  { intros v (x & -> & Hx)%list_elem_of_fmap. destruct x as [v dv].
    apply list_elem_of_lookup_1 in Hx as [i Hi].
    apply (preorder_under _ _ _ _ Hwf Hrest _ _ _ Hi). }
  assert (∀ t, t ∈ l → ∃ d, h !! t = Some d ∧ dparent d = P) as Hparl
    by (intros t Ht; by apply Hpar, list_elem_of_further).
  assert (∃ d, h !! n = Some d ∧ dparent d = P) as Hpn by (apply Hpar, list_elem_of_here).
  cbn [fmap list_fmap fst]. rewrite fmap_app. constructor.
  - rewrite elem_of_app. intros [Hin|Hin].
    + destruct (Hsub_under n Hin). lia.
    + destruct (Hrest_under n Hin) as (t & Ht & Hu).
      apply (siblings_apart h P t n); auto. by intros ->.
  - apply NoDup_app. split; [|split].
    + destruct (isText d); [injection Hsub as <-; constructor|].
      apply (IHf _ _ (Some n) Hsub); [by eapply Hkids|done].
    + intros v Hv1 Hv2. destruct (Hsub_under v Hv1) as [Hu1 _].
      destruct (Hrest_under v Hv2) as (t & Ht & Hu2).
      assert (n ≠ t) as Hne by (by intros ->).
      destruct (under_linear h n t v Hu1 Hu2) as [H|H].
      * apply (siblings_apart h P n t); auto.
      * apply (siblings_apart h P t n); auto.
    + by apply (IHl rest P).
Qed.

Lemma rootPositions_lb nodes : ∀ start x, x ∈ rootPositions start nodes → start ≤ x.
Proof.
  induction nodes as [|n nodes IH]; intros start x; cbn [rootPositions].
  - by intros ?%elem_of_nil.
  - intros [->|Hx%IH]%elem_of_cons; lia.
Qed.

Lemma rootPositions_NoDup nodes : ∀ start, NoDup (rootPositions start nodes).
Proof.
  induction nodes as [|n nodes IH]; intros start; cbn [rootPositions]; constructor; [|done].
  intros Hx%rootPositions_lb. destruct n; cbn in Hx; lia.
Qed.

(** The store of [compile]: well formed, without a reference twice among
    the roots that [reduce] returns or in a [children] array. *)
Lemma declareAll_once nodes :
  wf_store (declareAll trimAny decode nodes).2 ∧
  (∀ p d, (declareAll trimAny decode nodes).2 !! p = Some d → NoDup (dchildren d)) ∧
  NoDup (declareAll trimAny decode nodes).1.
Proof.
  destruct (declareAll_wf trimAny decode nodes) as [[Hwf _] _]. split; [done|]. split.
  - destruct (mirror_declareAll trimAny decode nodes) as (m & _ & _ & _ & _ & Hch).
    cbn [snd] in Hch. intros p d Hd. rewrite (Hch p d Hd).
    destruct (isText d); [constructor|]. apply NoDup_filter, NoDup_seq.
  - unfold declareAll, reduce.
    pose proof (reduceWalk_positions trimAny decode nodes (∅, [])) as Hp.
    destruct (reduceWalk _ nodes _) as [rs [m h]]. cbn [fst snd] in *. subst rs.
    apply rootPositions_NoDup.
Qed.

Lemma visited_once nodes ws sc :
  visited trimAny decode nodes = Some ws →
  visitedScripts trimAny decode nodes = Some sc →
  NoDup (ws ++ sc).*1.
Proof.
  intros Hws Hsc.
  destruct (declareAll_once nodes) as (Hwf & Hkids & Hroots).
  unfold visited, visitedScripts in *.
  destruct (declareAll trimAny decode nodes) as [declared h]. cbn [fst snd] in *.
  destruct (prepare_fold h declared
              {| rootNodes := []; templates := []; scripts := []; styles := [] |})
    as (Hr & _ & Hs & _).
  fold (prepareNodes h declared) in Hr, Hs. cbn [app rootNodes scripts] in Hr, Hs.
  assert (∀ b n, n ∈ filter (λ n, bucketOf h n = Some b) declared →
            ∃ d, h !! n = Some d ∧ dparent d = None) as Hpar.
  { intros b n [Hb _]%list_elem_of_filter. unfold bucketOf in Hb.
    destruct (h !! n) as [d|]; [|done]. cbn in Hb. exists d. split; [done|].
    destruct (dparent d); [|done]. by rewrite bool_decide_eq_true_2 in Hb. }
  rewrite fmap_app. apply NoDup_app. split; [|split].
  - apply (preorder_NoDup h Hwf Hkids _ _ _ None Hws).
    + rewrite Hr. by apply NoDup_filter.
    + rewrite Hr. apply Hpar.
  - intros v (x & -> & Hx)%list_elem_of_fmap (y & Hxy & Hy)%list_elem_of_fmap.
    apply list_elem_of_lookup_1 in Hx as [i Hi], Hy as [j Hj].
    destruct x as [v dv], y as [v' dv']. cbn [fst] in Hxy. subst v'.
    destruct (preorder_under _ _ _ _ Hwf Hws _ _ _ Hi) as (t1 & Ht1 & Hu1).
    destruct (preorder_under _ _ _ _ Hwf Hsc _ _ _ Hj) as (t2 & Ht2 & Hu2).
    rewrite Hr in Ht1. rewrite Hs in Ht2.
    assert (t1 ≠ t2) as Hne.
    { intros ->. apply list_elem_of_filter in Ht1 as [H1 _], Ht2 as [H2 _]. congruence. }
    destruct (under_linear h t1 t2 v Hu1 Hu2) as [H|H].
    + apply (siblings_apart h None t1 t2); eauto.
    + apply (siblings_apart h None t2 t1); eauto.
  - apply (preorder_NoDup h Hwf Hkids _ _ _ None Hsc).
    + rewrite Hs. by apply NoDup_filter.
    + rewrite Hs. apply Hpar.
Qed.

(** X25. No node is emitted twice: the walk over the structure and the
    walk over the scripts together visit every declared node at most
    once, whatever the parent links of the input. *)
Theorem no_node_is_emitted_twice nodes :
  ∃ ws sc,
    visited trimAny decode nodes = Some ws ∧
    visitedScripts trimAny decode nodes = Some sc ∧
    NoDup (ws ++ sc).*1.
Proof.
  destruct (visited_total trimAny decode nodes) as [ws Hws].
  destruct (visitedScripts_total trimAny decode nodes) as [sc Hsc].
  exists ws, sc. split; [done|]. split; [done|]. by apply (visited_once nodes).
Qed.




End Once.


(** ** Names in the two generations of the compiler *)

Lemma refTag_of_attributes trimAny fallback attrs :
  Forall (λ a, JS.trim (value a) = value a) attrs →
  match find (λ attr, String.eqb (name attr) "#ref") attrs with
  | Some attr =>
      if String.eqb (value attr) "" then "el"
      else if JS.truthy (value attr) then value attr else fallback
  | None => fallback
  end =
  match findRefTag (omap (compileAttribute trimAny) attrs) with
  | Some n => if JS.truthy n then n else fallback
  | None => fallback
  end.
Proof.
  unfold findRefTag. induction 1 as [|x attrs Hx _ IH]; [done|].
  cbn [find omap list_omap]. destruct (String.eqb_spec (name x) "#ref") as [Hn|Hn].
  - destruct x as [n v]. cbn [name value] in *. subst n.
    change (compileAttribute trimAny {| name := "#ref"; value := v |})
      with (Some (Ref {| ref_name := JS.or_else (JS.trim v) "el" |})).
    cbn [omap list_omap refName ref_name]. rewrite or_else_truthy, Hx.
    by destruct v.
  - destruct (compileAttribute trimAny x) as [[v|rf|e|g]|] eqn:Hc;
      cbn [omap list_omap refName]; try exact IH.
    by apply compileAttribute_ref in Hc.
Qed.

(** X27. The two generations of the compiler give a node the same
    variable name when its attribute values have no white space at their
    ends, as both parsers leave them: the value of its first [#ref]
    attribute, [el] when that value is empty, and [el] followed by the ref
    id without such an attribute. *)
Theorem both_compilers_choose_the_same_name trimAny decode node :
  Forall (λ a, JS.trim (value a) = value a) (attributesOf node) →
  Legacy.chosenName node = nameof (compileNode trimAny decode node).
Proof.
  destruct node as [r p s|r p t a ch]; [done|]. cbn [attributesOf]. intros Hall.
  unfold Legacy.chosenName, compileNode, nameof. cbn [dnode refId].
  apply (refTag_of_attributes trimAny ("el" +:+ JS.ofNumber r) a Hall).
Qed.

Lemma both_compilers_choose_the_same_name_witness :
  Legacy.chosenName (TagNode 1 None "div" [{| name := "#ref"; value := "box" |}] [])
    = nameof (compileNode trimAnyModel decodePlain
                (TagNode 1 None "div" [{| name := "#ref"; value := "box" |}] [])).
Proof.
  apply (both_compilers_choose_the_same_name trimAnyModel decodePlain
           (TagNode 1 None "div" [{| name := "#ref"; value := "box" |}] [])).
  repeat constructor.
Defined.

(** ** Every node of an exported root is emitted *)

Lemma preorder_closed h fuel : ∀ nodes ws,
  preorder fuel h nodes = Some ws →
  (∀ n, n ∈ nodes → ∃ d, (n, d) ∈ ws) ∧
  (∀ p dp c, (p, dp) ∈ ws → c ∈ dchildren dp → ∃ dc, (c, dc) ∈ ws).
Proof.
  induction fuel as [|fuel IHf]; [done|].
  induction nodes as [|n l IHl]; intros ws Hws.
  { rewrite preorder_nil in Hws. injection Hws as <-.
    split; [by intros n ?%elem_of_nil|by intros p dp c ?%elem_of_nil]. }
  rewrite preorder_cons in Hws.
  destruct (h !! n) as [d|] eqn:Hd; [|done]. cbn [mbind option_bind] in Hws.
  destruct (if isText d then Some [] else preorder fuel h (dchildren d))
    as [sub|] eqn:Hsub; [|done]. cbn [mbind option_bind] in Hws.
  destruct (preorder (S fuel) h l) as [rest|] eqn:Hrest; [|done].
  cbn [mbind option_bind] in Hws. injection Hws as <-.
  destruct (IHl rest eq_refl) as [Hl1 Hl2].
  assert ((∀ c, c ∈ dchildren d → ∃ dc, (c, dc) ∈ sub) ∧
          (∀ p dp c, (p, dp) ∈ sub → c ∈ dchildren dp → ∃ dc, (c, dc) ∈ sub))
    as [Hs1 Hs2].
  { destruct d as [|n0 p0 ty tg rf ev va at_ ch]; cbn [isText dchildren] in *.
    - injection Hsub as <-.
      split; [by intros c ?%elem_of_nil|by intros p dp c ?%elem_of_nil].
    - by apply IHf. }
  split.
  - intros m [->|Hm]%elem_of_cons; [exists d; apply list_elem_of_here|].
    destruct (Hl1 m Hm) as [dm Hdm]. exists dm.
    apply list_elem_of_further, elem_of_app. by right.
  - intros p dp c [[= -> ->]|[Hin|Hin]%elem_of_app]%elem_of_cons Hc.
    + destruct (Hs1 c Hc) as [dc Hdc]. exists dc.
      apply list_elem_of_further, elem_of_app. by left.
    + destruct (Hs2 p dp c Hin Hc) as [dc Hdc]. exists dc.
      apply list_elem_of_further, elem_of_app. by left.
    + destruct (Hl2 p dp c Hin Hc) as [dc Hdc]. exists dc.
      apply list_elem_of_further, elem_of_app. by right.
Qed.

Section Emitted.
Variable trimAny : string → list string → string.
Variable decode : string → string.

(** A root outside the template, script and style elements is in
    [rootNodes]. *)
Lemma exported_root_bucket nodes r :
  r ∈ nodes → parent r = None → isSegregatedRoot r = false →
  ∃ l, l ∈ rootNodes (prepareNodes (declareAll trimAny decode nodes).2
                        (declareAll trimAny decode nodes).1) ∧
       allNodes nodes !! l = Some r.
Proof.
  intros Hr Hpar Hseg.
  destruct (prepare_fold (declareAll trimAny decode nodes).2 (declareAll trimAny decode nodes).1
              {| rootNodes := []; templates := []; scripts := []; styles := [] |})
    as (Hroots & _).
  fold (prepareNodes (declareAll trimAny decode nodes).2 (declareAll trimAny decode nodes).1)
    in Hroots. cbn [app rootNodes] in Hroots. rewrite Hroots.
  pose proof (declareAll_roots trimAny decode nodes) as Hall.
  destruct (mirror_declareAll trimAny decode nodes) as (m & _ & Hw & _). cbn [snd] in Hw.
  apply list_elem_of_lookup_1 in Hr as [j Hj].
  destruct (Forall2_lookup_l _ _ _ _ _ Hall Hj) as (l & Hl & d & Hd & He & Hp).
  exists l. split.
  - apply list_elem_of_filter. split; [|by eapply list_elem_of_lookup_2].
    unfold bucketOf. rewrite Hd. cbn [mbind option_bind].
    rewrite (Hp Hpar), bool_decide_eq_false_2 by (by intros [? ?]). f_equal.
    destruct d as [|n0 p0 ty tg rf ev va at_ ch]; [done|]. destruct ty; [done|].
    destruct r as [|rr [q|] t a chr]; cbn in He; try done. injection He as _ _ -> _.
    cbn in Hseg. apply orb_false_iff in Hseg as [[-> ->]%orb_false_iff ->]. done.
  - rewrite <- Hw, list_lookup_fmap, Hd. cbn. f_equal.
    by rewrite <- (dnode_eraseLinks d), He, (proj2 (eraseLinks_compileNode trimAny decode r)).
Qed.

(** X28. On a forest whose nodes carry distinct ref ids, whose roots have
    no parent and whose children name their holders, as [parse] returns
    it, every node of a root that is no template, script or style element
    is emitted: the walk over the structure visits its declared node. *)
Theorem nodes_of_exported_roots_are_emitted nodes :
  NoDup (refId <$> allNodes nodes) →
  Forall (λ n, parent n = None) nodes →
  Forall holdsChildren (allNodes nodes) →
  ∃ ws, visited trimAny decode nodes = Some ws ∧
        ∀ r c, r ∈ nodes → isSegregatedRoot r = false → c ∈ nodesOf r →
          ∃ k dc, (k, dc) ∈ ws ∧ dnode dc = c.
Proof.
  intros Hnd Hroots Hlinks.
  destruct (visited_total trimAny decode nodes) as [ws Hws]. exists ws. split; [done|].
  destruct (mirror_declareAll trimAny decode nodes) as (m & _ & Hw & _). cbn [snd] in Hw.
  assert (∀ i dx, (i, dx) ∈ ws → (declareAll trimAny decode nodes).2 !! i = Some dx) as Hlook.
  { intros i dx [j Hj]%list_elem_of_lookup_1.
    apply (visited_lookup trimAny decode nodes ws j i dx Hws Hj). }
  assert (∀ i dx, (i, dx) ∈ ws → allNodes nodes !! i = Some (dnode dx)) as Hnode.
  { intros i dx Hin. by rewrite <- Hw, list_lookup_fmap, (Hlook i dx Hin). }
  pose proof Hws as Hpre. unfold visited in Hpre.
  destruct (declareAll trimAny decode nodes) as [declared h] eqn:Hdecl. cbn [fst snd] in *.
  destruct (preorder_closed _ _ _ _ Hpre) as [Hstart Hclosed].
  assert (∀ x i dx, allNodes nodes !! i = Some x → (i, dx) ∈ ws →
            ∀ y, y ∈ nodesOf x → ∃ k dy, (k, dy) ∈ ws ∧ dnode dy = y) as Hsub.
  { induction x as [r p t|r p t a ch IH] using Node_tree_ind; intros i dx Hi Hin y.
    - intros [->|?%elem_of_nil]%elem_of_cons; [|done]. exists i, dx. split; [done|].
      pose proof (Hnode i dx Hin) as H. rewrite Hi in H. by injection H.
    - cbn [nodesOf]. intros [->|Hy]%elem_of_cons.
      + exists i, dx. split; [done|].
        pose proof (Hnode i dx Hin) as H. rewrite Hi in H. by injection H.
      + apply elem_of_flat_map in Hy as (c & Hc & Hy).
        destruct (allNodes_child_after nodes i (TagNode r p t a ch) c Hi Hc) as [j Hj].
        rewrite Forall_forall in Hlinks.
        pose proof (Hlinks _ (list_elem_of_lookup_2 _ _ _ Hi)) as Hx.
        unfold holdsChildren in Hx. rewrite Forall_forall in Hx.
        pose proof (declared_parent_link trimAny decode nodes i (i + S j)
                      (TagNode r p t a ch) c Hnd Hi Hj ltac:(lia) (Hx c Hc)) as Hp.
        destruct (declared_parent_lists_child trimAny decode nodes i (i + S j)
                    (TagNode r p t a ch) Hi eq_refl Hp) as (dx' & Hdx' & _ & Hkid).
        rewrite Hdecl in Hdx', Hp. cbn [snd] in Hdx', Hp.
        rewrite (Hlook i dx Hin) in Hdx'. injection Hdx' as <-.
        destruct (Hclosed i dx (i + S j) Hin Hkid) as [dc Hdc].
        rewrite Forall_forall in IH. apply (IH c Hc (i + S j) dc Hj Hdc y Hy). }
  intros r c Hr Hseg Hc. rewrite Forall_forall in Hroots.
  destruct (exported_root_bucket nodes r Hr (Hroots r Hr) Hseg) as (l & Hl & Hlr).
  rewrite Hdecl in Hl. cbn [fst snd] in Hl.
  destruct (Hstart l Hl) as [d Hd]. apply (Hsub r l d Hlr Hd c Hc).
Qed.

End Emitted.

Lemma nodes_of_exported_roots_are_emitted_witness :
  ∃ ws, visited trimAnyModel decodePlain divDoc = Some ws ∧
        ∀ r c, r ∈ divDoc → isSegregatedRoot r = false → c ∈ nodesOf r →
          ∃ k dc, (k, dc) ∈ ws ∧ dnode dc = c.
Proof.
  apply (nodes_of_exported_roots_are_emitted trimAnyModel decodePlain divDoc).
  - apply (bool_decide_unpack _). vm_compute. reflexivity.
  - repeat constructor.
  - repeat constructor.
Defined.
